(** * compose-go: merge engine, extends resolver, port canonicaliser, loader

    A shallow embedding of the four source files of the composition engine
    ([override/merge.go], [loader/extends.go], [transform/ports.go] and the
    loader orchestrator) together with the properties the specification
    states about them.

    Layout: the first part holds every definition (data model, external
    interfaces, the embedded functions, sample inputs); the second part holds
    the lemmas and theorems. *)

From Stdlib Require Import ZArith String Ascii.
From stdpp Require Import gmap strings list sorting pretty.

Open Scope string_scope.
Open Scope list_scope.

(* ===================================================================== *)
(** * Part 1. Definitions *)
(* ===================================================================== *)

(** ** Outcomes of a Go call

    A Go function of type [(T, error)] either returns normally, returns a
    non-nil error, or panics (failed type assertion, nil dereference).  The
    three cases are kept apart: a panic is not a returned error. *)

Inductive result (A : Type) : Type :=
| Ok (a : A)
| Err (msg : string)
| Panic (msg : string).
Arguments Ok {A} a.
Arguments Err {A} msg.
Arguments Panic {A} msg.

(** State-and-outcome monad: the state survives an error or a panic, as the
    mutations a Go function made before it failed do. *)

Definition M (S A : Type) : Type := S -> result A * S.

Definition ret {S A} (a : A) : M S A := fun s => (Ok a, s).

Definition fail {S A} (msg : string) : M S A := fun s => (Err msg, s).

Definition panic {S A} (msg : string) : M S A := fun s => (Panic msg, s).

Definition bind {S A B} (m : M S A) (k : A -> M S B) : M S B :=
  fun s =>
    match m s with
    | (Ok a, s') => k a s'
    | (Err e, s') => (Err e, s')
    | (Panic e, s') => (Panic e, s')
    end.

Definition get {S} : M S S := fun s => (Ok s, s).

Definition lift {S A} (r : result A) : M S A := fun s => (r, s).

Notation "'let*' x ':=' c1 'in' c2" := (bind c1 (fun x => c2))
  (at level 10, x name, c1 at level 100, c2 at level 200).
Notation "c1 ';;' c2" := (bind c1 (fun _ => c2))
  (at level 100, c2 at level 200, right associativity).

(** [for _, x := range l { body }] threading an accumulator. *)

Fixpoint forM {S A B} (l : list A) (acc : B) (body : B -> A -> M S B) : M S B :=
  match l with
  | [] => ret acc
  | x :: l' => bind (body acc x) (fun acc' => forM l' acc' body)
  end.

(** ** Text helpers *)

Definition LF : string := String "010" "".
Definition DQ : string := String "034" "".

(** [strings.Join]. *)
Definition Join (elems : list string) (sep : string) : string :=
  String.concat sep elems.

(** [strings.HasPrefix]. *)
Definition HasPrefix (s pre : string) : bool := String.prefix pre s.

(** [%q] of a string: exact for strings of printable ASCII without quote or
    backslash, which need no escape. *)
Definition Quote (s : string) : string := DQ +:+ s +:+ DQ.

(** [strconv.Itoa] and [fmt.Sprint] of an [int]. *)
Definition Itoa (n : Z) : string := pretty n.

(** ** The raw tree (spec section 3)

    [map[string]any], [[]any] and the scalars a YAML decoder produces.  A
    [float64] is kept as its IEEE-754 bit pattern. *)

Inductive tree : Type :=
| TNull
| TBool (b : bool)
| TInt (n : Z)
| TFloat (bits : Z)
| TStr (s : string)
| TSeq (l : list tree)
| TMap (m : gmap string tree).

Definition is_map (t : tree) : bool :=
  match t with TMap _ => true | _ => false end.

(** Go leaves the order of [for k, v := range m] unspecified.  The
    development is parametric in it: any enumeration of the entries. *)

Class MapRange : Type := {
  range : forall {A : Type}, gmap string A -> list (string * A);
  range_perm : forall (A : Type) (m : gmap string A), range m ≡ₚ map_to_list m
}.

(** The enumeration used to evaluate the model on concrete inputs. *)
Definition key_order : MapRange :=
  {| range := fun A m => map_to_list m;
     range_perm := fun A m => reflexivity (map_to_list m) |}.

(** ** Paths

    Modelled from the spec: package [tree] (type [Path], [NewPath], [Next],
    [Matches]) is not among the sources.  Spec section 3: a path is a sequence
    of segments and, in a glob match, [*] matches exactly one segment.  The
    dotted literals of the sources ("services.*.logging") are written as
    their segment lists. *)

Definition Path : Type := list string.

Definition NewPath : Path := [].

Definition Next (p : Path) (part : string) : Path := p ++ [part].

Fixpoint Matches (p pattern : Path) : bool :=
  match p, pattern with
  | [], [] => true
  | part :: p', pat :: pattern' =>
      (String.eqb pat "*" || String.eqb pat part) && Matches p' pattern'
  | _, _ => false
  end.

Definition Path_String (p : Path) : string := Join p ".".

(** Go's single-value index [m[k]]: the zero value [nil] for a missing key. *)
Definition index (m : gmap string tree) (k : string) : tree :=
  default TNull (m !! k).

(** Type assertions [v.(map[string]any)] and [v.(string)]. *)
Definition assert_map {S} (v : tree) : M S (gmap string tree) :=
  match v with
  | TMap m => ret m
  | _ => panic "interface conversion: not map[string]interface {}"
  end.

Definition assert_string {S} (v : tree) : M S string :=
  match v with
  | TStr s => ret s
  | _ => panic "interface conversion: not string"
  end.

(** [%T] of a tree node. *)
Definition type_name (v : tree) : string :=
  match v with
  | TNull => "<nil>"
  | TBool _ => "bool"
  | TInt _ => "int"
  | TFloat _ => "float64"
  | TStr _ => "string"
  | TSeq _ => "[]interface {}"
  | TMap _ => "map[string]interface {}"
  end.

(** ** External collaborators

    Packages the sources import but which are not among them are taken as
    interfaces; every theorem holds for each implementation. *)

(** Package [interpolation]: its options and [Interpolate]. *)
Class Interp : Type := {
  interp_Options : Type;
  interp_Interpolate :
    gmap string tree -> interp_Options -> result (gmap string tree)
}.

(** [ParseYAML] (loader, l.192), whose work is done by the YAML decoder:
    the mapping and the error it returns. *)
Class Yaml : Type := {
  ParseYAML : string -> gmap string tree * option string
}.

(** Package [path/filepath] and [os.Stat]. *)
Class FilePath : Type := {
  filepath_IsAbs : string -> bool;
  filepath_Join : string -> string -> string;
  filepath_Dir : string -> string;
  filepath_Rel : string -> string -> result string;
  os_Stat_ok : string -> bool
}.

(** ** Loader: [ResourceLoader], [Options] (loader, l.46-134) *)

Record ResourceLoader : Type := {
  Accept : string -> bool;
  Load : string -> result string
}.

Module localResourceLoader.
Definition abs {FP : FilePath} (WorkingDir p : string) : string :=
  if filepath_IsAbs p then p else filepath_Join WorkingDir p.

Definition new {FP : FilePath} (WorkingDir : string) : ResourceLoader :=
  {| Accept := fun p => os_Stat_ok (abs WorkingDir p);
     Load := fun p => Ok (abs WorkingDir p) |}.
End localResourceLoader.

Module Options.
Record t {I : Interp} : Type := {
  SkipValidation : bool;
  SkipInterpolation : bool;
  SkipNormalization : bool;
  ResolvePaths : bool;
  ConvertWindowsPaths : bool;
  SkipConsistencyCheck : bool;
  SkipExtends : bool;
  SkipInclude : bool;
  SkipResolveEnvironment : bool;
  Interpolate : option interp_Options;
  discardEnvFiles : bool;
  projectName : string;
  projectNameImperativelySet : bool;
  Profiles : list string;
  ResourceLoaders : list ResourceLoader
}.

(** The composite literal of [clone] names fourteen of the fifteen fields;
    the one it leaves out, [SkipResolveEnvironment], gets the zero value. *)
Definition clone {I : Interp} (o : t) : t :=
  {| SkipValidation := SkipValidation o;
     SkipInterpolation := SkipInterpolation o;
     SkipNormalization := SkipNormalization o;
     ResolvePaths := ResolvePaths o;
     ConvertWindowsPaths := ConvertWindowsPaths o;
     SkipConsistencyCheck := SkipConsistencyCheck o;
     SkipExtends := SkipExtends o;
     SkipInclude := SkipInclude o;
     SkipResolveEnvironment := false;
     Interpolate := Interpolate o;
     discardEnvFiles := discardEnvFiles o;
     projectName := projectName o;
     projectNameImperativelySet := projectNameImperativelySet o;
     Profiles := Profiles o;
     ResourceLoaders := ResourceLoaders o |}.

Definition SetProjectName {I : Interp} (o : t) (name : string)
    (imperativelySet : bool) : t :=
  {| SkipValidation := SkipValidation o;
     SkipInterpolation := SkipInterpolation o;
     SkipNormalization := SkipNormalization o;
     ResolvePaths := ResolvePaths o;
     ConvertWindowsPaths := ConvertWindowsPaths o;
     SkipConsistencyCheck := SkipConsistencyCheck o;
     SkipExtends := SkipExtends o;
     SkipInclude := SkipInclude o;
     SkipResolveEnvironment := SkipResolveEnvironment o;
     Interpolate := Interpolate o;
     discardEnvFiles := discardEnvFiles o;
     projectName := name;
     projectNameImperativelySet := imperativelySet;
     Profiles := Profiles o;
     ResourceLoaders := ResourceLoaders o |}.

Definition GetProjectName {I : Interp} (o : t) : string * bool :=
  (projectName o, projectNameImperativelySet o).

(** The four assignments [ApplyExtends] makes on the clone
    (extends.go, l.74-78). *)
Definition forExtends {I : Interp} (o : t) : t :=
  let c := clone o in
  {| SkipValidation := SkipValidation c;
     SkipInterpolation := SkipInterpolation c;
     SkipNormalization := true;
     ResolvePaths := true;
     ConvertWindowsPaths := ConvertWindowsPaths c;
     SkipConsistencyCheck := true;
     SkipExtends := SkipExtends c;
     SkipInclude := true;
     SkipResolveEnvironment := SkipResolveEnvironment c;
     Interpolate := Interpolate c;
     discardEnvFiles := discardEnvFiles c;
     projectName := projectName c;
     projectNameImperativelySet := projectNameImperativelySet c;
     Profiles := Profiles c;
     ResourceLoaders := ResourceLoaders c |}.

(** [LoadWithContext], l.258: the local loader is appended last. *)
Definition withLocalLoader {I : Interp} {FP : FilePath} (o : t)
    (WorkingDir : string) : t :=
  {| SkipValidation := SkipValidation o;
     SkipInterpolation := SkipInterpolation o;
     SkipNormalization := SkipNormalization o;
     ResolvePaths := ResolvePaths o;
     ConvertWindowsPaths := ConvertWindowsPaths o;
     SkipConsistencyCheck := SkipConsistencyCheck o;
     SkipExtends := SkipExtends o;
     SkipInclude := SkipInclude o;
     SkipResolveEnvironment := SkipResolveEnvironment o;
     Interpolate := Interpolate o;
     discardEnvFiles := discardEnvFiles o;
     projectName := projectName o;
     projectNameImperativelySet := projectNameImperativelySet o;
     Profiles := Profiles o;
     ResourceLoaders :=
       ResourceLoaders o ++ [localResourceLoader.new WorkingDir] |}.
End Options.

(** ** Loader: the extends cycle tracker (loader, l.136-170) *)

Record serviceRef : Type := {
  filename : string;
  service : string
}.

#[global] Instance serviceRef_eq_dec : EqDecision serviceRef.
Proof. solve_decision. Defined.

Definition serviceRef_eqb (a b : serviceRef) : bool :=
  String.eqb (filename a) (filename b) && String.eqb (service a) (service b).

Module cycleTracker.
Record t : Type := { loaded : list serviceRef }.

Definition empty : t := {| loaded := [] |}.

(** The lines of the error: the head of the chain, then one [extends]
    line for each later node and for the node being added. *)
Definition errLines (ct : t) (toAdd : serviceRef) : list string :=
  match loaded ct with
  | [] => ["Circular reference:"]
  | first :: rest =>
      ["Circular reference:";
       "  " +:+ service first +:+ " in " +:+ filename first]
      ++ map (fun s => "  extends " +:+ service s +:+ " in " +:+ filename s)
             (rest ++ [toAdd])
  end.

Definition Add (ct : t) (filename service : string) : result unit * t :=
  let toAdd := {| filename := filename; service := service |} in
  if existsb (serviceRef_eqb toAdd) (loaded ct)
  then (Err (Join (errLines ct toAdd) LF), ct)
  else (Ok tt, {| loaded := loaded ct ++ [toAdd] |}).
End cycleTracker.

(** ** Loader: configuration input (spec section 3) *)

Record ConfigFile : Type := {
  Filename : string;
  Content : string;
  Config : option (gmap string tree)
}.

Record ConfigDetails : Type := {
  WorkingDir : string;
  ConfigFiles : list ConfigFile;
  Environment : gmap string string
}.

(** ** Extends resolver (extends.go)

    The state [ApplyExtends] works on besides the tree: the shared cycle
    tracker, and a log of the calls made on resource loaders, each loader
    named by its position in [Options.ResourceLoaders]. *)

Inductive event : Type :=
| EvAccept (loader : nat) (path : string)
| EvLoad (loader : nat) (path : string).

Record world : Type := {
  ct : cycleTracker.t;
  trace : list event
}.

Definition emit (e : event) : M world unit :=
  fun w => (Ok tt, {| ct := ct w; trace := trace w ++ [e] |}).


(** [PostProcessor.Apply] receives the document [{services: {name: source}}]
    and may change the map [source] in place; its returned error is dropped.
    [Apply name source] is the content of [source] afterwards. *)
Record PostProcessor : Type := {
  Apply : string -> gmap string tree -> gmap string tree
}.

(** What [ApplyExtends] calls outside extends.go: [loadYamlModel] (which
    runs the whole pipeline on the referenced file, and re-enters
    [ApplyExtends] with the same tracker), and [override.ExtendService],
    which is not among the sources. *)
Class ExtendsEnv {I : Interp} : Type := {
  loadYamlModel :
    ConfigDetails -> Options.t -> M cycleTracker.t (gmap string tree);
  ExtendService :
    gmap string tree -> gmap string tree -> result (gmap string tree)
}.

(** A step on the tracker alone; the log keeps the calls of this
    invocation of [ApplyExtends], not those of the loads nested in it. *)
Definition onTracker {A} (m : M cycleTracker.t A) : M world A :=
  fun w =>
    let '(r, ct') := m (ct w) in
    (r, {| ct := ct'; trace := trace w |}).

Fixpoint deepClone (value : tree) : tree :=
  match value with
  | TSeq v => TSeq (deepClone <$> v)
  | TMap v => TMap (deepClone <$> v)
  | _ => value
  end.

(** One turn of the loop over [opts.ResourceLoaders] (extends.go, l.59-93);
    [base] is the variable declared at l.56. *)
Definition tryLoader {FP : FilePath} {I : Interp} {EE : ExtendsEnv}
    (workingdir : string) (opts : Options.t) (name ref path : string)
    (base : tree) (il : nat * ResourceLoader) : M world tree :=
  let '(i, loader) := il in
  emit (EvAccept i path) ;;
  if negb (Accept loader path) then ret base
  else
    emit (EvLoad i path) ;;
    let* local := lift (Load loader path) in
    let* relworkingdir :=
      if negb (filepath_IsAbs local)
      then lift (filepath_Rel workingdir (filepath_Dir local))
      else ret (filepath_Dir local) in
    let extendsOpts := Options.forExtends opts in
    let* source :=
      onTracker
        (loadYamlModel
           {| WorkingDir := relworkingdir;
              ConfigFiles :=
                [{| Filename := local; Content := ""; Config := None |}];
              Environment := ∅ |}
           extendsOpts) in
    let* services := assert_map (index source "services") in
    match services !! ref with
    | Some b => ret b
    | None =>
        fail ("cannot extend service " +:+ Quote name +:+ " in " +:+ path
              +:+ ": service not found")
    end.

(** [for i, x := range l]: the elements with their positions. *)
Definition indexed {A} (l : list A) : list (nat * A) := imap pair l.

(** The part of the loop body that finds [base] (extends.go, l.56-102). *)
Definition resolveBase {FP : FilePath} {I : Interp} {EE : ExtendsEnv}
    (workingdir : string) (opts : Options.t) (services : gmap string tree)
    (name ref : string) (file : tree) : M world tree :=
  match file with
  | TNull =>
      match services !! ref with
      | Some b => ret b
      | None =>
          fail ("cannot extend service " +:+ Quote name +:+ " in "
                +:+ "filename" +:+ ": service not found")
      end
  | _ =>
      let* path := assert_string file in
      let* base :=
        forM (indexed (Options.ResourceLoaders opts)) TNull
             (tryLoader workingdir opts name ref path) in
      match base with
      | TNull => fail ("cannot read " +:+ path)
      | _ => ret base
      end
  end.

(** The body of the loop over [services] (extends.go, l.35-117). *)
Definition extendOne {FP : FilePath} {I : Interp} {EE : ExtendsEnv}
    (ctx : option string) (workingdir : string) (opts : Options.t)
    (post : list PostProcessor)
    (services : gmap string tree) (entry : string * tree)
    : M world (gmap string tree) :=
  let '(name, s) := entry in
  let* service := assert_map s in
  match service !! "extends" with
  | None => ret services
  | Some x =>
      let* file_name :=
        match ctx with
        | Some f => ret f
        | None => panic "interface conversion: interface {} is nil, not string"
        end in
      onTracker (fun ct => cycleTracker.Add ct file_name name) ;;
      let* rf :=
        match x with
        | TMap v =>
            let* ref := assert_string (index v "service") in
            ret (ref, index v "file")
        | TStr v => ret (v, TNull)
        | _ => ret ("", TNull)
        end in
      let* base := resolveBase workingdir opts services name rf.1 rf.2 in
      let* source := assert_map (deepClone base) in
      let source := fold_left (fun src p => Apply p name src) post source in
      let* merged := lift (ExtendService source service) in
      ret (<[name := TMap (delete "extends" merged)]> services)
  end.

(** [ApplyExtends] changes [dict] in place and returns an error; the model
    returns the tree [dict] holds after a normal return. *)
Definition ApplyExtends {MR : MapRange} {FP : FilePath} {I : Interp}
    {EE : ExtendsEnv}
    (ctx : option string) (dict : gmap string tree) (workingdir : string)
    (opts : Options.t) (post : list PostProcessor)
    : M world (gmap string tree) :=
  match dict !! "services" with
  | None => ret dict
  | Some a =>
      let* services := assert_map a in
      let* services :=
        forM (range services) services
             (extendOne ctx workingdir opts post) in
      ret (<["services" := TMap services]> dict)
  end.

(** ** Project name (loader, l.463-536) *)

Definition InvalidProjectNameErr (v : string) : string :=
  "invalid project name " +:+ Quote v +:+
  ": must consist only of lowercase alphanumeric characters, hyphens, and underscores as well as start with a letter or number".

Definition is_upper (c : ascii) : bool :=
  (65 <=? nat_of_ascii c)%nat && (nat_of_ascii c <=? 90)%nat.

Definition lower_ascii (c : ascii) : ascii :=
  if is_upper c then ascii_of_nat (nat_of_ascii c + 32) else c.

(** [strings.ToLower] on the UTF-8 bytes of a string.  ASCII letters are
    lower-cased; the two non-ASCII runes whose lower case is an ASCII letter
    are U+0130 (bytes 196 176, lower case [i]) and U+212A (bytes 226 132 170,
    lower case [k]).  Every other non-ASCII rune maps to a non-ASCII rune;
    its bytes are kept as they are, which [NormalizeProjectName] cannot
    tell apart since it drops all bytes above 127. *)
Fixpoint ToLower (s : string) : string :=
  match s with
  | EmptyString => EmptyString
  | String c rest =>
      match rest with
      | String c1 rest1 =>
          if Ascii.eqb c "196" && Ascii.eqb c1 "176"
          then String "i" (ToLower rest1)
          else
            match rest1 with
            | String c2 rest2 =>
                if Ascii.eqb c "226" && Ascii.eqb c1 "132" && Ascii.eqb c2 "170"
                then String "k" (ToLower rest2)
                else String (lower_ascii c) (ToLower rest)
            | EmptyString => String (lower_ascii c) (ToLower rest)
            end
      | EmptyString => String (lower_ascii c) EmptyString
      end
  end.

(** The character class of [regexp.MustCompile("[a-z0-9_-]")]. *)
Definition name_char (c : ascii) : bool :=
  let n := nat_of_ascii c in
  ((97 <=? n)%nat && (n <=? 122)%nat) || ((48 <=? n)%nat && (n <=? 57)%nat)
  || Ascii.eqb c "_" || Ascii.eqb c "-".

(** [r.FindAllString(s, -1)]: every match of the one-character class. *)
Fixpoint FindAllString (s : string) : list string :=
  match s with
  | EmptyString => []
  | String c rest =>
      if name_char c then String c EmptyString :: FindAllString rest
      else FindAllString rest
  end.

(** [strings.TrimLeft(s, "_-")]. *)
Fixpoint TrimLeft_name (s : string) : string :=
  match s with
  | EmptyString => EmptyString
  | String c rest =>
      if Ascii.eqb c "_" || Ascii.eqb c "-" then TrimLeft_name rest else s
  end.

Definition NormalizeProjectName (s : string) : string :=
  let s := ToLower s in
  let s := Join (FindAllString s) "" in
  TrimLeft_name s.

(** The loop over the config files (l.483-503): [inl] is the early
    [return "", nil], [inr] the name held when the loop ends. *)
Fixpoint nameFromConfigFiles {Y : Yaml} (files : list ConfigFile)
    (pjNameFromConfigFile : string) : unit + string :=
  match files with
  | [] => inr pjNameFromConfigFile
  | configFile :: files' =>
      match ParseYAML (Content configFile) with
      | (yml, None) =>
          match yml !! "name" with
          | Some (TStr "") => nameFromConfigFiles files' pjNameFromConfigFile
          | Some (TStr sVal) => nameFromConfigFiles files' sVal
          | Some _ => inl tt
          | None => nameFromConfigFiles files' pjNameFromConfigFile
          end
      | (_, Some _) => inl tt
      end
  end.

Definition projectName {I : Interp} {Y : Yaml} (details : ConfigDetails)
    (opts : Options.t) : result string :=
  let '(projectName, projectNameImperativelySet) :=
    Options.GetProjectName opts in
  let check (projectName : string) : result string :=
    if String.eqb projectName "" then Err "project name must not be empty"
    else if negb (String.eqb (NormalizeProjectName projectName) projectName)
    then Err (InvalidProjectNameErr projectName)
    else Ok projectName in
  if negb projectNameImperativelySet then
    match nameFromConfigFiles (ConfigFiles details) "" with
    | inl _ => Ok ""
    | inr pjNameFromConfigFile =>
        let interpolated : result string :=
          if negb (Options.SkipInterpolation opts) then
            match Options.Interpolate opts with
            | None => Panic "nil pointer dereference"
            | Some io =>
                match interp_Interpolate
                        {[ "name" := TStr pjNameFromConfigFile ]} io with
                | Ok interpolated =>
                    match index interpolated "name" with
                    | TStr s => Ok s
                    | _ => Panic "interface conversion: not string"
                    end
                | Err e => Err e
                | Panic e => Panic e
                end
            end
          else Ok pjNameFromConfigFile in
        match interpolated with
        | Ok pjNameFromConfigFile =>
            let pjNameFromConfigFile :=
              NormalizeProjectName pjNameFromConfigFile in
            check (if negb (String.eqb pjNameFromConfigFile "")
                   then pjNameFromConfigFile else projectName)
        | Err e => Err e
        | Panic e => Panic e
        end
    end
  else check projectName.

(** ** Extension grouping (loader, l.538-576) *)

Definition userDefinedKeys : list Path :=
  [ ["services"]; ["volumes"]; ["networks"]; ["secrets"]; ["configs"] ].

(** Modelled from the spec: [consts.Extensions] (package [consts] is not
    among the sources); the spec names the bucket [extensions]. *)
Definition consts_Extensions : string := "extensions".

(** [skip] of l.549-555: some user-defined key matches the pattern [p]. *)
Definition skipXFields (p : Path) : bool :=
  existsb (fun uk => Matches uk p) userDefinedKeys.

(** One turn of the loop over [dict] (l.548-571).  [child key] is what the
    switch at l.561 leaves at [key]; the state is [(dict, extras)]. *)
Definition groupStep (p : Path) (child : string -> tree -> tree)
    (st : gmap string tree * gmap string tree) (kv : string * tree)
    : gmap string tree * gmap string tree :=
  let '(dict, extras) := st in
  let '(key, value) := kv in
  if negb (skipXFields p) && HasPrefix key "x-"
  then (delete key dict, <[key := value]> extras)
  else (<[key := child key value]> dict, extras).

(** [groupXFields t p] is [groupXFieldsIntoExtensions(dict, p)] when [t] is
    the mapping [dict], and [t] otherwise.  The recursive calls of the
    switch (on a mapping value at [p.Next(key)], on the mapping elements of
    a sequence value at [p.Next(i)]) are prepared per entry of the map. *)
Fixpoint groupXFields {MR : MapRange} (t : tree) : Path -> tree :=
  match t with
  | TMap dict => fun p =>
      let children : gmap string (string -> tree) :=
        (fun value =>
           match value with
           | TMap _ => fun key => groupXFields value (Next p key)
           | TSeq v => fun _ =>
               TSeq (imap (fun i (f : Path -> tree) =>
                             f (Next p (Itoa (Z.of_nat i))))
                          ((fun e => match e with
                                     | TMap _ => groupXFields e
                                     | _ => fun _ => e
                                     end) <$> v))
           | _ => fun _ => value
           end) <$> dict in
      let child (key : string) (value : tree) : tree :=
        match children !! key with
        | Some f => f key
        | None => value
        end in
      let '(dict', extras) :=
        fold_left (groupStep p child) (range dict) (dict, ∅) in
      TMap (if (0 <? size extras)%nat
            then <[consts_Extensions := TMap extras]> dict'
            else dict')
  | _ => fun _ => t
  end.

Definition groupXFieldsIntoExtensions {MR : MapRange} (dict : gmap string tree)
    (p : Path) : gmap string tree :=
  match groupXFields (TMap dict) p with
  | TMap m => m
  | _ => dict
  end.

(** What the switch of l.561-570 leaves at [key] of the mapping at [p]:
    a mapping value grouped at [p.Next(key)], a sequence value with each
    mapping element grouped at [p.Next(i)], any other value as it is. *)
Definition groupChild {MR : MapRange} (p : Path) (key : string)
    (value : tree) : tree :=
  match value with
  | TMap _ => groupXFields value (Next p key)
  | TSeq v =>
      TSeq (imap (fun i e =>
                    match e with
                    | TMap _ => groupXFields e (Next p (Itoa (Z.of_nat i)))
                    | _ => e
                    end) v)
  | _ => value
  end.

(** The last step (l.572-574): the bucket is stored when it is not empty. *)
Definition storeExtras (st : gmap string tree * gmap string tree)
    : gmap string tree :=
  if (0 <? size st.2)%nat
  then <[consts_Extensions := TMap st.2]> st.1
  else st.1.

(** ** Port canonicalisation (ports.go) *)

(** Package [types] ([ServicePortConfig], [ParsePortConfig]) and the
    [mapstructure] decoder behind [encode] are not among the sources.  Both
    return a value together with an error, as in Go. *)
Class Ports : Type := {
  ServicePortConfig : Type;
  ParsePortConfig : string -> list ServicePortConfig * option string;
  mapstructure_Decode : ServicePortConfig -> gmap string tree * option string
}.

Definition encode {P : Ports} (v : ServicePortConfig)
    : gmap string tree * option string :=
  mapstructure_Decode v.

(** The inner loops [for _, v := range parsed] (l.42-48 and l.57-63):
    [inr err] is the [return nil, err]. *)
Fixpoint encodeAll {P : Ports} (parsed : list ServicePortConfig)
    (ports : list tree) : list tree + string :=
  match parsed with
  | [] => inl ports
  | v :: parsed' =>
      match encode v with
      | (m, None) => encodeAll parsed' (ports ++ [TMap m])
      | (_, Some err) => inr err
      end
  end.

(** A short form (l.38-48 and l.50-63): parse [text], encode every parsed
    port; [inr] is the pair the function returns on failure.  [data] is the
    argument of [transformPorts], returned as it is next to a parse error. *)
Definition shortForm {P : Ports} (data : tree) (text : string)
    (ports : list tree) : list tree + tree * option string :=
  match ParsePortConfig text with
  | (parsed, None) =>
      match encodeAll parsed ports with
      | inl ports' => inl ports'
      | inr err => inr (TNull, Some err)
      end
  | (_, Some err) => inr (data, Some err)
  end.

(** The loop over [entries] (l.35-69). *)
Fixpoint portsLoop {P : Ports} (data : tree) (entries : list tree)
    (ports : list tree) : tree * option string :=
  match entries with
  | [] => (TSeq ports, None)
  | entry :: rest =>
      match entry with
      | TInt value =>
          match shortForm data (Itoa value) ports with
          | inl ports' => portsLoop data rest ports'
          | inr r => r
          end
      | TStr value =>
          match shortForm data value ports with
          | inl ports' => portsLoop data rest ports'
          | inr r => r
          end
      | TMap value => portsLoop data rest (ports ++ [entry])
      | _ => (data, Some ("invalid type " +:+ type_name entry +:+ " for port"))
      end
  end.

Definition transformPorts {P : Ports} (data : tree) (_ : Path)
    : tree * option string :=
  match data with
  | TSeq entries => portsLoop data entries []
  | _ => (data, Some ("invalid type " +:+ type_name data +:+ " for port"))
  end.

(** ** Merge engine (merge.go)

    [Merge] works in place: [mergeMappings] assigns into the map it was
    given and hands parts of the override to the accumulator.  Maps are
    therefore objects in a store, named by their location; a slice is the
    list of its elements (no function here writes into a cell of a slice
    it did not just build). *)

Definition loc : Type := nat.

Inductive val : Type :=
| VNull
| VBool (b : bool)
| VInt (n : Z)
| VFloat (bits : Z)
| VStr (s : string)
| VSeq (l : list val)
| VMap (r : loc).

Definition store : Type := list (gmap string val).

Definition loadMap (r : loc) : M store (gmap string val) :=
  fun s =>
    match s !! r with
    | Some m => (Ok m, s)
    | None => (Panic "dangling map reference", s)
    end.

(** [mapping[k] = v]. *)
Definition setKey (mapping : loc) (k : string) (v : val) : M store unit :=
  fun s =>
    match s !! mapping with
    | Some m => (Ok tt, <[mapping := <[k := v]> m]> s)
    | None => (Panic "dangling map reference", s)
    end.

(** Writing a tree into the store and reading it back. *)

Definition sequence {S A} (l : list (S -> A * S)) (s : S) : list A * S :=
  fold_left (fun acc f => let '(a, s') := f acc.2 in (acc.1 ++ [a], s'))
            l ([], s).

Fixpoint alloc (t : tree) : store -> val * store :=
  match t with
  | TNull => fun s => (VNull, s)
  | TBool b => fun s => (VBool b, s)
  | TInt n => fun s => (VInt n, s)
  | TFloat bits => fun s => (VFloat bits, s)
  | TStr x => fun s => (VStr x, s)
  | TSeq l => fun s =>
      let '(vs, s') := sequence (alloc <$> l) s in (VSeq vs, s')
  | TMap m => fun s =>
      let fields := map_to_list (alloc <$> m) in
      let '(vs, s') := sequence (snd <$> fields) s in
      (VMap (length s'), s' ++ [list_to_map (zip (fst <$> fields) vs)])
  end.

Fixpoint readback (fuel : nat) (s : store) (v : val) : option tree :=
  match fuel with
  | O => None
  | S fuel' =>
      match v with
      | VNull => Some TNull
      | VBool b => Some (TBool b)
      | VInt n => Some (TInt n)
      | VFloat bits => Some (TFloat bits)
      | VStr x => Some (TStr x)
      | VSeq l => TSeq <$> mapM (readback fuel' s) l
      | VMap r =>
          match s !! r with
          | Some m =>
              let fields := map_to_list m in
              vs ← mapM (readback fuel' s) (snd <$> fields);
              Some (TMap (list_to_map (zip (fst <$> fields) vs)))
          | None => None
          end
      end
  end.

(** [fmt.Sprintf("%s", v)] for a value that is not a string: the bad-verb
    form for [int] and [bool]; floats and composite values are left to the
    [fmt] package. *)
Class Fmt : Type := {
  Sprint_s_other : store -> val -> string
}.

Definition Sprint_s {F : Fmt} (s : store) (v : val) : string :=
  match v with
  | VStr x => x
  | VInt n => "%!s(int=" +:+ Itoa n +:+ ")"
  | VBool true => "%!s(bool=true)"
  | VBool false => "%!s(bool=false)"
  | VNull => "%!s(<nil>)"
  | _ => Sprint_s_other s v
  end.

(** The order [a.(string) < b.(string)] sorts by: byte-wise comparison. *)
Definition string_le (a b : string) : Prop := String.leb a b = true.

Definition string_le_dec (a b : string) : Decision (string_le a b) :=
  Bool.bool_dec (String.leb a b) true.

(** One entry of the environment mapping as a sequence item (l.121-127). *)
Definition envItem {F : Fmt} (s : store) (kv : string * val) : string :=
  match kv.2 with
  | VNull => kv.1
  | v => kv.1 +:+ "=" +:+ Sprint_s s v
  end.

Definition convertIntoSequence {MR : MapRange} {F : Fmt} (value : val)
    : M store (list val) :=
  match value with
  | VMap r =>
      let* v := loadMap r in
      let* s := get in
      let seq := envItem s <$> range v in
      ret (VStr <$> merge_sort string_le (H := string_le_dec) seq)
  | VSeq v => ret v
  | _ => ret []
  end.

(** Equality of two interface values, [d == o]: values of different
    dynamic types differ; comparing two slices or two maps panics. *)
Definition float_isNaN (bits : Z) : bool :=
  (((bits / 2 ^ 52) mod 2 ^ 11 =? 2047) && negb (bits mod 2 ^ 52 =? 0))%Z.

Definition float_eqb (a b : Z) : bool :=
  negb (float_isNaN a) && negb (float_isNaN b)
  && ((a =? b) || ((a mod 2 ^ 63 =? 0) && (b mod 2 ^ 63 =? 0)))%Z.

Definition iface_eq {S} (a b : val) : M S bool :=
  match a, b with
  | VNull, VNull => ret true
  | VBool x, VBool y => ret (Bool.eqb x y)
  | VInt x, VInt y => ret (x =? y)%Z
  | VFloat x, VFloat y => ret (float_eqb x y)
  | VStr x, VStr y => ret (String.eqb x y)
  | VSeq _, VSeq _ =>
      panic "runtime error: comparing uncomparable type []interface {}"
  | VMap _, VMap _ =>
      panic "runtime error: comparing uncomparable type map[string]interface {}"
  | _, _ => ret false
  end.

(** The rules of [mergeSpecials]. *)
Inductive merger : Type :=
| mergeLogging_rule
| override_rule
| mergeEnvironment_rule
| mergeUlimit_rule.

Definition mergeSpecials : list (Path * merger) :=
  [ (["services"; "*"; "logging"], mergeLogging_rule);
    (["services"; "*"; "command"], override_rule);
    (["services"; "*"; "entrypoint"], override_rule);
    (["services"; "*"; "healthcheck"; "test"], override_rule);
    (["services"; "*"; "environment"], mergeEnvironment_rule);
    (["services"; "*"; "ulimits"; "*"], mergeUlimit_rule) ].

(** The pattern loop of [mergeYaml] (l.52-60).  At most one pattern of the
    table matches a path (lemma [mergeSpecials_unique]), so the order in
    which Go visits the table does not matter. *)
Definition findSpecial (p : Path) : option merger :=
  snd <$> find (fun pm => Matches p pm.1) mergeSpecials.

Section Merge.
Context {MR : MapRange} {F : Fmt}.

(** The recursive call of [mergeMappings] into [mergeYaml]. *)
Variable mergeYaml_rec : val -> val -> Path -> M store val.

(** [mergeMappings] (l.79-94).  [other] is read when the loop starts:
    a turn assigns to the key it visits only, so even when [mapping] and
    [other] are the same map every turn sees the entry the loop began
    with. *)
Definition mergeMappings_with (mapping other : loc) (p : Path)
    : M store val :=
  let* entries := loadMap other in
  forM (range entries) tt
       (fun _ kv =>
          let '(k, v) := kv in
          let* m := loadMap mapping in
          match m !! k with
          | Some e =>
              if HasPrefix k "x-" then setKey mapping k v
              else
                let next := Next p k in
                let* merged := mergeYaml_rec e v next in
                setKey mapping k merged
          | None => setKey mapping k v
          end) ;;
  ret (VMap mapping).

(** [mergeLogging] (l.97-107). *)
Definition mergeLogging_with (c o : val) (p : Path) : M store val :=
  match c with
  | VMap config =>
      match o with
      | VMap other =>
          let* om := loadMap other in
          let* cm := loadMap config in
          let d := om !! "driver" in
          let o' := cm !! "driver" in
          let* same := iface_eq (default VNull d) (default VNull o') in
          if same || negb (bool_decide (is_Some d))
                  || negb (bool_decide (is_Some o'))
          then mergeMappings_with config other p
          else ret (VMap other)
      | _ => panic "interface conversion: not map[string]interface {}"
      end
  | _ => panic "interface conversion: not map[string]interface {}"
  end.

(** [mergeEnvironment] (l.110-114). *)
Definition mergeEnvironment (c o : val) (_ : Path) : M store val :=
  let* right := convertIntoSequence c in
  let* left := convertIntoSequence o in
  ret (VSeq (right ++ left)).

(** [mergeUlimit] (l.139-145): both [over] and [base] are taken from
    [o]; the first argument is not named. *)
Definition mergeUlimit_with (_ : val) (o : val) (p : Path) : M store val :=
  match o with
  | VMap over =>
      match o with
      | VMap base => mergeMappings_with base over p
      | _ => ret o
      end
  | _ => ret o
  end.

(** [override] (l.147-149). *)
Definition override (_ : val) (other : val) (_ : Path) : M store val :=
  ret other.

Definition applyMerger (m : merger) : val -> val -> Path -> M store val :=
  match m with
  | mergeLogging_rule => mergeLogging_with
  | override_rule => override
  | mergeEnvironment_rule => mergeEnvironment
  | mergeUlimit_rule => mergeUlimit_with
  end.

(** The body of [mergeYaml] (l.51-77). *)
Definition mergeYaml_with (e o : val) (p : Path) : M store val :=
  match findSpecial p with
  | Some merger => applyMerger merger e o p
  | None =>
      match e with
      | VMap value =>
          match o with
          | VMap other => mergeMappings_with value other p
          | _ => fail ("cannot override " +:+ Path_String p)
          end
      | VSeq value =>
          match o with
          | VSeq other => ret (VSeq (value ++ other))
          | _ => fail ("cannont override " +:+ Path_String p)
          end
      | _ => ret o
      end
  end.
End Merge.

(** [mergeYaml] with its recursion bounded: on a store whose maps contain
    themselves Go's recursion does not end, and the model runs out of
    [fuel]. *)
Fixpoint mergeYaml {MR : MapRange} {F : Fmt} (fuel : nat) (e o : val)
    (p : Path) : M store val :=
  match fuel with
  | O => panic "stack overflow"
  | S fuel' => mergeYaml_with (mergeYaml fuel') e o p
  end.

Definition mergeMappings {MR : MapRange} {F : Fmt} (fuel : nat)
    (mapping other : loc) (p : Path) : M store val :=
  mergeMappings_with (mergeYaml fuel) mapping other p.

Definition mergeLogging {MR : MapRange} {F : Fmt} (fuel : nat)
    (c o : val) (p : Path) : M store val :=
  mergeLogging_with (mergeYaml fuel) c o p.

Definition mergeUlimit {MR : MapRange} {F : Fmt} (fuel : nat)
    (c o : val) (p : Path) : M store val :=
  mergeUlimit_with (mergeYaml fuel) c o p.

(** [Merge] (l.28-34).  Its parameters are called [right] and [left]; the
    first is the accumulator, the second the override. *)
Definition Merge {MR : MapRange} {F : Fmt} (fuel : nat) (right left : loc)
    : M store loc :=
  let* merged := mergeYaml fuel (VMap right) (VMap left) NewPath in
  match merged with
  | VMap r => ret r
  | _ => panic "interface conversion: not map[string]interface {}"
  end.

(** ** Statements: the chain of a circular reference

    The chain the specification describes for a cycle: the first node of
    the chain on a line of its own, every later node on an [extends] line. *)

Definition chainLines (nodes : list serviceRef) : list string :=
  match nodes with
  | [] => []
  | first :: rest =>
      ("  " +:+ service first +:+ " in " +:+ filename first)
      :: map (fun s => "  extends " +:+ service s +:+ " in " +:+ filename s)
             rest
  end.

(** ** Statements: a service entry that went through extends *)

(** A service entry that is a mapping without [extends] key. *)
Definition extendsFree (entry : tree) : Prop :=
  exists m : gmap string tree, entry = TMap m /\ m !! "extends" = None.

(** ** Sample collaborators and inputs

    Small implementations of the external interfaces, used to run the
    model on concrete inputs. *)

Definition sample_Interp : Interp :=
  {| interp_Options := unit;
     interp_Interpolate := fun m _ => Ok m |}.

(** Absolute paths start with a slash; every file exists. *)
Definition sample_FilePath : FilePath :=
  {| filepath_IsAbs := fun p => HasPrefix p "/";
     filepath_Join := fun a b => a +:+ "/" +:+ b;
     filepath_Dir := fun p => p;
     filepath_Rel := fun _ target => Ok target;
     os_Stat_ok := fun _ => true |}.

(** Two copies of a base file, one behind each of two resource loaders. *)
Definition sample_model (origin : string) : gmap string tree :=
  {[ "services" :=
       TMap {[ "base" := TMap {[ "image" := TStr "busybox";
                                  "origin" := TStr origin ]} ]} ]}.

(** [loadYamlModel] returns the model of the file it is asked for;
    [ExtendService] lets the fields of the extending service win. *)
Definition sample_ExtendsEnv : @ExtendsEnv sample_Interp :=
  {| loadYamlModel := fun details _ =>
       match ConfigFiles details with
       | [f] =>
           if String.eqb (Filename f) "/first/base.yaml"
           then ret (sample_model "first")
           else if String.eqb (Filename f) "/second/base.yaml"
           then ret (sample_model "second")
           else fail ("open " +:+ Filename f +:+ ": no such file or directory")
       | _ => fail "No files specified"
       end;
     ExtendService := fun source service => Ok (service ∪ source) |}.

Definition first_loader : ResourceLoader :=
  {| Accept := fun _ => true; Load := fun _ => Ok "/first/base.yaml" |}.

Definition second_loader : ResourceLoader :=
  {| Accept := fun _ => true; Load := fun _ => Ok "/second/base.yaml" |}.

Definition sample_Options (loaders : list ResourceLoader)
    : @Options.t sample_Interp :=
  {| Options.SkipValidation := false;
     Options.SkipInterpolation := false;
     Options.SkipNormalization := false;
     Options.ResolvePaths := true;
     Options.ConvertWindowsPaths := false;
     Options.SkipConsistencyCheck := false;
     Options.SkipExtends := false;
     Options.SkipInclude := false;
     Options.SkipResolveEnvironment := false;
     Options.Interpolate := Some (tt : @interp_Options sample_Interp);
     Options.discardEnvFiles := false;
     Options.projectName := "";
     Options.projectNameImperativelySet := false;
     Options.Profiles := [];
     Options.ResourceLoaders := loaders |}.

Definition world0 : world := {| ct := cycleTracker.empty; trace := [] |}.

(** [web] extends [base] of the file [base.yaml]. *)
Definition extends_file_dict : gmap string tree :=
  {[ "services" :=
       TMap {[ "web" :=
                 TMap {[ "extends" := TMap {[ "service" := TStr "base";
                                               "file" := TStr "base.yaml" ]};
                         "command" := TStr "serve" ]} ]} ]}.

(** [web] extends [base] of the same file. *)
Definition extends_local_dict : gmap string tree :=
  {[ "services" :=
       TMap {[ "base" := TMap {[ "image" := TStr "busybox" ]};
               "web" := TMap {[ "extends" := TStr "base";
                                "command" := TStr "serve" ]} ]} ]}.

(** What [ApplyExtends] leaves of [extends_local_dict]. *)
Definition extends_local_result : gmap string tree :=
  {[ "services" :=
       TMap {[ "base" := TMap {[ "image" := TStr "busybox" ]};
               "web" := TMap {[ "image" := TStr "busybox";
                                "command" := TStr "serve" ]} ]} ]}.

Definition extends_local_world : world :=
  {| ct := {| cycleTracker.loaded :=
                [ {| filename := "compose.yaml"; service := "web" |} ] |};
     trace := [] |}.

(** What [ApplyExtends] leaves of [extends_file_dict] when both sample
    loaders are registered: the fields of the copy behind the second. *)
Definition extends_file_result : gmap string tree :=
  {[ "services" :=
       TMap {[ "web" := TMap {[ "image" := TStr "busybox";
                                "origin" := TStr "second";
                                "command" := TStr "serve" ]} ]} ]}.

Definition extends_file_world : world :=
  {| ct := {| cycleTracker.loaded :=
                [ {| filename := "compose.yaml"; service := "web" |} ] |};
     trace := [ EvAccept 0 "base.yaml"; EvLoad 0 "base.yaml";
                EvAccept 1 "base.yaml"; EvLoad 1 "base.yaml" ] |}.

(** ** Statements: project name *)

(** Every character of [s] is in the class [[a-z0-9_-]]. *)
Fixpoint all_name_chars (s : string) : Prop :=
  match s with
  | EmptyString => True
  | String c rest => name_char c = true /\ all_name_chars rest
  end.





(** ** Statements: canonical ports *)

(** The mappings a list of parsed ports encodes to, if every one does. *)
Definition encodeEach {P : Ports} (parsed : list ServicePortConfig)
    : option (list tree) :=
  mapM (fun v => match encode v with
                 | (m, None) => Some (TMap m)
                 | (_, Some _) => None
                 end) parsed.

(** The long form of one entry: a mapping stands for itself, an integer or
    a string for the encoded ports the parser makes of it; [None] when the
    parser or the encoder refuses, or the entry has another type. *)
Definition expandEntry {P : Ports} (entry : tree) : option (list tree) :=
  match entry with
  | TMap _ => Some [entry]
  | TInt n =>
      match ParsePortConfig (Itoa n) with
      | (parsed, None) => encodeEach parsed
      | (_, Some _) => None
      end
  | TStr s =>
      match ParsePortConfig s with
      | (parsed, None) => encodeEach parsed
      | (_, Some _) => None
      end
  | _ => None
  end.

Definition isShortOrMapping (entry : tree) : Prop :=
  match entry with
  | TInt _ | TStr _ | TMap _ => True
  | _ => False
  end.

(** The claim of the specification: every sequence of integers, strings
    and mappings is turned into a sequence of mappings, without error. *)
Definition alwaysCanonical {P : Ports} (entries : list tree) : Prop :=
  Forall isShortOrMapping entries ->
  exists ports,
    transformPorts (TSeq entries) NewPath = (TSeq ports, None)
    /\ Forall (fun t => is_map t = true) ports.

(** A port parser that knows the short form [80] only; a port is its
    target number. *)
Definition sample_Ports : Ports :=
  {| ServicePortConfig := Z;
     ParsePortConfig := fun s =>
       if String.eqb s "80" then ([80%Z], None)
       else ([], Some ("invalid containerPort: " +:+ s));
     mapstructure_Decode := fun target =>
       ({[ "mode" := TStr "ingress"; "protocol" := TStr "tcp";
           "target" := TInt target ]}, None) |}.

(** ** Sample inputs for extension grouping *)

(** A top-level key named [*] whose mapping has an extension key. *)
Definition star_dict : gmap string tree :=
  {[ "*" := TMap {[ "x-foo" := TStr "bar" ]} ]}.

(** An [x-foo] key directly under [services], and one under
    [services.web]. *)
Definition services_dict : gmap string tree :=
  {[ "services" :=
       TMap {[ "x-foo" := TMap {[ "image" := TStr "a" ]};
               "web" := TMap {[ "image" := TStr "b";
                                "x-foo" := TStr "bar" ]} ]} ]}.

Definition services_grouped : gmap string tree :=
  {[ "services" :=
       TMap {[ "x-foo" := TMap {[ "image" := TStr "a" ]};
               "web" := TMap {[ "image" := TStr "b";
                                "extensions" :=
                                  TMap {[ "x-foo" := TStr "bar" ]} ]} ]} ]}.

(** ** Statements: the environment rule *)






(** ** Sample inputs for the merge engine *)

Definition sample_Fmt : Fmt := {| Sprint_s_other := fun _ _ => "?" |}.



(** A [nofile] limit in the base (location 0) and in the override
    (location 1). *)
Definition ulimit_store : store :=
  [ {[ "hard" := VInt 20; "soft" := VInt 10 ]};
    {[ "soft" := VInt 15 ]} ].

(** Two documents that differ in [services.web.ulimits.nofile]. *)
Definition ulimit_base : tree :=
  TMap {[ "services" := TMap {[ "web" := TMap {[ "ulimits" :=
    TMap {[ "nofile" := TMap {[ "soft" := TInt 1024 ]} ]} ]} ]} ]}.

Definition ulimit_override : tree :=
  TMap {[ "services" := TMap {[ "web" := TMap {[ "ulimits" :=
    TMap {[ "nofile" := TMap {[ "soft" := TSeq [TInt 2048] ]} ]} ]} ]} ]}.

(** The override document after the merge. *)
Definition ulimit_override_after : tree :=
  TMap {[ "services" := TMap {[ "web" := TMap {[ "ulimits" :=
    TMap {[ "nofile" :=
      TMap {[ "soft" := TSeq [TInt 2048; TInt 2048] ]} ]} ]} ]} ]}.

(** The store that holds the base and then the override, and the
    locations of the two documents in it. *)
Definition ulimit_docs : store :=
  (alloc ulimit_override (alloc ulimit_base []).2).2.

Definition ulimit_base_loc : loc := 4.
Definition ulimit_override_loc : loc := 9.

(** Two services of one file that extend each other. *)
Definition extends_cycle_dict : gmap string tree :=
  {[ "services" :=
       TMap {[ "a" := TMap {[ "extends" := TStr "b"; "image" := TStr "ia" ]};
               "b" := TMap {[ "extends" := TStr "a";
                              "command" := TStr "cb" ]} ]} ]}.

Definition extends_cycle_result : gmap string tree :=
  {[ "services" :=
       TMap {[ "a" := TMap {[ "command" := TStr "cb"; "image" := TStr "ia" ]};
               "b" := TMap {[ "command" := TStr "cb";
                              "image" := TStr "ia" ]} ]} ]}.

Definition extends_cycle_world : world :=
  {| ct := {| cycleTracker.loaded :=
                [ {| filename := "compose.yaml"; service := "a" |};
                  {| filename := "compose.yaml"; service := "b" |} ] |};
     trace := [] |}.

(** ** Statements: the calls made on the resource loaders

    What is asked of the loader at position [i] when every loader that
    accepts the path is made to load it. *)
Definition loaderCalls (path : string) (il : nat * ResourceLoader)
    : list event :=
  if Accept il.2 path
  then [EvAccept il.1 path; EvLoad il.1 path]
  else [EvAccept il.1 path].

(** ** Statements: further properties *)

(** A name in canonical form: every character is in [[a-z0-9_-]] and the
    first one, if there is one, is neither [_] nor [-]. *)
Definition canonicalName (s : string) : Prop :=
  all_name_chars s
  /\ match s with
     | EmptyString => True
     | String c _ => (Ascii.eqb c "_" || Ascii.eqb c "-") = false
     end.



(** The reference a service entry makes to a base of its own file, as the
    loop of [ApplyExtends] takes it (extends.go, l.48-54): the short form
    [extends: ref], the long form without [file], and, for an [extends]
    value of any other type, the empty reference. *)
Definition localRef (entry : tree) : option string :=
  match entry with
  | TMap svc =>
      match svc !! "extends" with
      | Some (TStr ref) => Some ref
      | Some (TMap v) =>
          match index v "service", index v "file" with
          | TStr ref, TNull => Some ref
          | _, _ => None
          end
      | Some _ => Some ""
      | None => None
      end
  | _ => None
  end.

(** The [services] mapping of [extends_local_dict] and of
    [sample_model]. *)
Definition extends_local_services : gmap string tree :=
  {[ "base" := TMap {[ "image" := TStr "busybox" ]};
     "web" := TMap {[ "extends" := TStr "base";
                      "command" := TStr "serve" ]} ]}.


(** ** Sample inputs for port canonicalisation *)

(** The long form the sample parser gives the short form [80]. *)
Definition port_80 : tree :=
  TMap {[ "mode" := TStr "ingress"; "protocol" := TStr "tcp";
          "target" := TInt 80 ]}.

(** A sequence with an integer, a mapping and a string, and its long
    form. *)
Definition ports_mixed : tree :=
  TSeq [TInt 80; TMap {[ "target" := TInt 443 ]}; TStr "80"].

Definition ports_mixed_long : tree :=
  TSeq [port_80; TMap {[ "target" := TInt 443 ]}; port_80].

(** ** Statements: what a merge does to the store *)

(** A value that is neither a mapping nor a sequence. *)
Definition is_scalar (v : val) : bool :=
  match v with
  | VMap _ | VSeq _ => false
  | _ => true
  end.

(** [s'] has the maps of [s], at the same locations, each with at least
    the keys it had. *)
Definition keepsKeys (s s' : store) : Prop :=
  length s' = length s
  /\ forall (r : loc) (m : gmap string val),
       s !! r = Some m ->
       exists m', s' !! r = Some m' /\ dom m ⊆ dom m'.

(** The keys on which a turn of the loop of [mergeMappings] at path [p]
    leaves the value of the override: extension keys, and keys on which
    the recursive call [rec] returns the override and leaves the store. *)
Definition plainKey (rec : val -> val -> Path -> M store val) (p : Path)
    (cur : gmap string val) (k : string) : Prop :=
  forall e, cur !! k = Some e ->
    HasPrefix k "x-" = true
    \/ forall v s, rec e v (Next p k) s = (Ok v, s).

(** A computation that only ever assigns to keys of existing maps. *)
Definition assignsOnly {A} (c : M store A) : Prop :=
  forall s r s', c s = (r, s') -> keepsKeys s s'.

(** ** Sample inputs for flat merges *)

(** A base document and an override with scalar entries only. *)
Definition flat_base : gmap string val := {[ "name" := VStr "base" ]}.

Definition flat_override : gmap string val :=
  {[ "name" := VStr "app"; "version" := VStr "3" ]}.

Definition flat_store : store := [flat_base; flat_override].

(** A service and its override: a scalar in common, a sequence only in
    the override. *)
Definition service_base : gmap string val := {[ "image" := VStr "a" ]}.

Definition service_override : gmap string val :=
  {[ "image" := VStr "b"; "ports" := VSeq [VInt 80] ]}.

Definition service_store : store := [service_base; service_override].

(** ** Statements: the errors of a merge *)

(** [msg] reports a type mismatch at [p] or below it, in either of the two
    spellings of [mergeYaml]. *)
Definition mismatchAt (p : Path) (msg : string) : Prop :=
  exists q : Path,
    p `prefix_of` q
    /\ (msg = "cannot override " +:+ Path_String q
        \/ msg = "cannont override " +:+ Path_String q).

(** Every error the computation returns satisfies [Q]. *)
Definition errsIn {A} (Q : string -> Prop) (c : M store A) : Prop :=
  forall s msg s', c s = (Err msg, s') -> Q msg.

(** A base whose key [a] holds a mapping and an override whose key [a]
    holds a string. *)
Definition mismatch_store : store :=
  [ {[ "a" := VMap 2 ]}; {[ "a" := VStr "x" ]}; ∅ ].

(** ** Statements: the special rules on sequences *)

(** The paths at which the rule in force returns the override as it is
    when given two sequences: the three [override] rules and, for an
    operand that is not a mapping, [mergeUlimit]. *)
Definition replacesSequence (p : Path) : bool :=
  Matches p ["services"; "*"; "command"]
  || Matches p ["services"; "*"; "entrypoint"]
  || Matches p ["services"; "*"; "healthcheck"; "test"]
  || Matches p ["services"; "*"; "ulimits"; "*"].

(** A value that is a mapping. *)
Definition is_mapping (v : val) : bool :=
  match v with VMap _ => true | _ => false end.

(** Two logging blocks with different drivers (locations 0 and 1). *)
Definition logging_store : store :=
  [ {[ "driver" := VStr "json-file"; "options" := VMap 2 ]};
    {[ "driver" := VStr "syslog" ]};
    {[ "max-size" := VStr "10m" ]} ].

(** ** Statements: extension grouping as a function of the mapping *)

(** The keys [groupXFieldsIntoExtensions] moves at path [p]: the keys with
    prefix [x-], unless [p] is one of [userDefinedKeys] or the one-segment
    path [*]. *)
Definition movedKey (p : Path) (k : string) : bool :=
  negb (bool_decide (p ∈ userDefinedKeys \/ p = ["*"])) && HasPrefix k "x-".

(** The bucket: the moved entries of [dict], with the values they had. *)
Definition extensionBucket (p : Path) (dict : gmap string tree)
    : gmap string tree :=
  filter (fun kv => movedKey p kv.1 = true) dict.

(** The entries that stay, each with its child. *)
Definition groupedRest {MR : MapRange} (p : Path) (dict : gmap string tree)
    : gmap string tree :=
  map_imap (fun k v => if movedKey p k then None
                       else Some (groupChild p k v)) dict.

(** ** Decoded YAML and string keys (loader, l.192-232 and l.612-674)

    A YAML decoder gives a mapping the type [map[string]interface{}] when
    it can and [map[interface{}]interface{}] otherwise.  [raw] is such a
    decoded value; a mapping of the second kind is the list of its entries
    in the order Go visits them. *)

Inductive raw : Type :=
| RNull
| RBool (b : bool)
| RInt (n : Z)
| RFloat (bits : Z)
| RStr (s : string)
| RSeq (l : list raw)
| RMap (m : gmap string raw)
| RAny (m : list (raw * raw)).

(** [%#v] of a key, from package [fmt]. *)
Class KeyFmt : Type := {
  GoSyntax : raw -> string
}.

(** [formatInvalidKeyError] (l.666-674). *)
Definition formatInvalidKeyError {KF : KeyFmt} (keyPrefix : string)
    (key : raw) : string :=
  let location :=
    if String.eqb keyPrefix "" then "at top level"
    else "in " +:+ keyPrefix in
  "Non-string key " +:+ location +:+ ": " +:+ GoSyntax key.

(** [newKeyPrefix] of the two mapping loops (l.616-621 and l.636-641). *)
Definition newKeyPrefix (keyPrefix key : string) : string :=
  if String.eqb keyPrefix "" then key
  else keyPrefix +:+ "." +:+ key.

(** [fmt.Sprintf("%s[%d]", keyPrefix, index)] (l.653). *)
Definition indexKeyPrefix (keyPrefix : string) (index : nat) : string :=
  keyPrefix +:+ "[" +:+ Itoa (Z.of_nat index) +:+ "]".

(** A loop that converts one entry per turn and leaves at the first
    error: [inr err] is the [return nil, err]. *)
Fixpoint convertLoop {A B} (l : list A) (acc : B)
    (body : B -> A -> B + string) : B + string :=
  match l with
  | [] => inl acc
  | x :: l' =>
      match body acc x with
      | inl acc' => convertLoop l' acc' body
      | inr err => inr err
      end
  end.

(** [convertToStringKeysRecursive] (l.613-664).  The recursive calls are
    prepared per entry; [mapping[key] = convertedEntry] of the first loop
    assigns into the map that is visited. *)
Fixpoint convertToStringKeysRecursive {MR : MapRange} {KF : KeyFmt}
    (value : raw) : string -> raw + string :=
  match value with
  | RMap mapping => fun keyPrefix =>
      let children : gmap string (string -> raw + string) :=
        (fun entry => convertToStringKeysRecursive entry) <$> mapping in
      match
        convertLoop (range mapping) mapping
          (fun acc kv =>
             match children !! kv.1 with
             | Some convert =>
                 match convert (newKeyPrefix keyPrefix kv.1) with
                 | inl convertedEntry => inl (<[kv.1 := convertedEntry]> acc)
                 | inr err => inr err
                 end
             | None => inl acc
             end)
      with
      | inl mapping' => inl (RMap mapping')
      | inr err => inr err
      end
  | RAny mapping => fun keyPrefix =>
      let children : list (raw * (string -> raw + string)) :=
        (fun kv => let '(key, entry) := kv in
                   (key, convertToStringKeysRecursive entry)) <$> mapping in
      match
        convertLoop children (∅ : gmap string raw)
          (fun dict kc =>
             match kc.1 with
             | RStr str =>
                 match kc.2 (newKeyPrefix keyPrefix str) with
                 | inl convertedEntry => inl (<[str := convertedEntry]> dict)
                 | inr err => inr err
                 end
             | key => inr (formatInvalidKeyError keyPrefix key)
             end)
      with
      | inl dict => inl (RMap dict)
      | inr err => inr err
      end
  | RSeq entries => fun keyPrefix =>
      let children : list (string -> raw + string) :=
        (fun entry => convertToStringKeysRecursive entry) <$> entries in
      match
        convertLoop (imap pair children) []
          (fun convertedList ic =>
             match ic.2 (indexKeyPrefix keyPrefix ic.1) with
             | inl convertedEntry => inl (convertedList ++ [convertedEntry])
             | inr err => inr err
             end)
      with
      | inl convertedList => inl (RSeq convertedList)
      | inr err => inr err
      end
  | _ => fun _ => inl value
  end.

(** One turn of the second loop (l.634-646) up to the assignment: the
    string key and the converted entry, or the error returned. *)
Definition convertAnyEntry {MR : MapRange} {KF : KeyFmt}
    (keyPrefix : string) (kv : raw * raw) : string * raw + string :=
  match kv.1 with
  | RStr str =>
      match convertToStringKeysRecursive kv.2 (newKeyPrefix keyPrefix str) with
      | inl convertedEntry => inl (str, convertedEntry)
      | inr err => inr err
      end
  | key => inr (formatInvalidKeyError keyPrefix key)
  end.

(** [parseYAML] (l.203-232) after the decoder returned the document [cfg]
    without error.  [None] stands for the panic of a type assertion on
    the converted value. *)
Definition parseYAML {MR : MapRange} {KF : KeyFmt} (cfg : raw)
    : option (gmap string raw + string) :=
  match cfg with
  | RMap _ | RAny _ =>
      match convertToStringKeysRecursive cfg "" with
      | inl (RMap converted) => Some (inl converted)
      | inl _ => None
      | inr err => Some (inr err)
      end
  | _ => Some (inr "Top-level object must be a mapping")
  end.

(** ** Statements: string keys *)

(** Every mapping in the value has the type [map[string]interface{}]. *)
Inductive stringKeyed : raw -> Prop :=
| stringKeyed_null : stringKeyed RNull
| stringKeyed_bool b : stringKeyed (RBool b)
| stringKeyed_int n : stringKeyed (RInt n)
| stringKeyed_float bits : stringKeyed (RFloat bits)
| stringKeyed_str s : stringKeyed (RStr s)
| stringKeyed_seq l : Forall stringKeyed l -> stringKeyed (RSeq l)
| stringKeyed_map m :
    map_Forall (fun _ entry => stringKeyed entry) m -> stringKeyed (RMap m).

(** Some mapping in the value, not inside a key, has a key that is not a
    string. *)
Inductive hasNonStringKey : raw -> Prop :=
| nonString_here m key entry :
    (key, entry) ∈ m -> (forall s, key <> RStr s) ->
    hasNonStringKey (RAny m)
| nonString_any m key entry :
    (key, entry) ∈ m -> hasNonStringKey entry -> hasNonStringKey (RAny m)
| nonString_map m k entry :
    m !! k = Some entry -> hasNonStringKey entry -> hasNonStringKey (RMap m)
| nonString_seq l entry :
    entry ∈ l -> hasNonStringKey entry -> hasNonStringKey (RSeq l).

(** The messages of [formatInvalidKeyError] for a key that is not a
    string, at [keyPrefix] or below it. *)
Definition invalidKeyBelow {KF : KeyFmt} (keyPrefix err : string) : Prop :=
  exists location key,
    err = formatInvalidKeyError location key
    /\ (forall s, key <> RStr s)
    /\ HasPrefix location keyPrefix = true.

(** The size of a decoded value, for induction. *)
Fixpoint raw_size (v : raw) : nat :=
  match v with
  | RSeq l => S (sum_list (raw_size <$> l))
  | RMap m => S (sum_list (map_to_list (raw_size <$> m)).*2)
  | RAny m => S (sum_list ((fun kv => let '(_, entry) := kv in
                                      raw_size entry) <$> m))
  | _ => 1
  end.

(** ** Sample inputs for string keys *)

(** [%#v] of integers and booleans; other keys are left to [fmt]. *)
Definition sample_KeyFmt : KeyFmt :=
  {| GoSyntax := fun key =>
       match key with
       | RInt n => Itoa n
       | RBool true => "true"
       | RBool false => "false"
       | _ => "?"
       end |}.

(** A document whose top level has string keys and whose [ports] entry is
    a mapping with an integer key, and a document with string keys only,
    before and after the conversion. *)
Definition int_key_doc : raw :=
  RMap {[ "services" := RSeq [RAny [(RStr "image", RStr "a");
                                    (RInt 80, RStr "b")]] ]}.

Definition any_doc : raw :=
  RAny [(RStr "services", RAny [(RStr "web", RMap {[ "image" := RStr "a" ]})])].

Definition any_doc_converted : raw :=
  RMap {[ "services" := RMap {[ "web" := RMap {[ "image" := RStr "a" ]} ]} ]}.

(** ** [deepClone] on the store (extends.go, l.122-139)

    The copy [deepClone] makes exists so that the merge that follows can
    assign into it.  On the store this shows: every mapping of the copy
    is a new map. *)

(** [make(map[string]any, n)]. *)
Definition newMap : M store loc :=
  fun s => (Ok (length s), s ++ [∅]).

Module InStore.
Fixpoint deepClone {MR : MapRange} (fuel : nat) (value : val) : M store val :=
  match fuel with
  | O => panic "stack overflow"
  | S fuel' =>
      match value with
      | VSeq v =>
          let* cp :=
            forM v []
              (fun cp e =>
                 let* c := deepClone fuel' e in
                 ret (cp ++ [c])) in
          ret (VSeq cp)
      | VMap r =>
          let* v := loadMap r in
          let* cp := newMap in
          forM (range v) tt
               (fun _ ke =>
                  let '(k, e) := ke in
                  let* c := deepClone fuel' e in
                  setKey cp k c) ;;
          ret (VMap cp)
      | _ => ret value
      end
  end.
End InStore.

(** ** Statements: a copy that shares nothing *)

(** Every map the value names, directly or in a sequence, is at location
    [n] or later. *)
Fixpoint freshFrom (n : nat) (v : val) : bool :=
  match v with
  | VMap r => (n <=? r)%nat
  | VSeq l => forallb (freshFrom n) l
  | _ => true
  end.

(** The maps at location [n] and later hold values that name only maps at
    location [n] and later. *)
Definition closedFrom (n : nat) (s : store) : Prop :=
  forall (r : loc) (m : gmap string val) (k : string) (x : val),
    n <= r -> s !! r = Some m -> m !! k = Some x -> freshFrom n x = true.

(** The maps of [s] are in [s'] as they were. *)
Definition keepsMaps (s s' : store) : Prop :=
  forall (r : loc) (m : gmap string val), s !! r = Some m -> s' !! r = Some m.

(** The state of the loop of the mapping case of [deepClone], started in
    a store that keeps the maps of [s0]: the new map at [n] holds a copy
    of each entry visited so far, and the copy reads back as [T] says. *)
Definition cloneMapInv (fuel : nat) (s0 : store) (n : nat)
    (T : gmap string tree) (visited : list string) (sx : store) : Prop :=
  keepsMaps s0 sx
  /\ S n <= length sx
  /\ closedFrom (S n) sx
  /\ exists mcp : gmap string val,
       sx !! n = Some mcp
       /\ (forall k c, mcp !! k = Some c ->
             freshFrom (S n) c = true
             /\ exists te, T !! k = Some te /\ readback fuel sx c = Some te)
       /\ (forall k, is_Some (mcp !! k) <-> k ∈ visited).

(** What a call of [deepClone] that returns guarantees: the maps of the
    store it started in are kept, and the copy and the maps made for it
    name only maps made for it. *)
Definition clonedFrom (s : store) (c : val) (s' : store) : Prop :=
  keepsMaps s s'
  /\ freshFrom (length s) c = true
  /\ closedFrom (length s) s'.

(** The logging block at location 0 of [logging_store], read back. *)
Definition logging_tree : tree :=
  TMap {[ "driver" := TStr "json-file";
          "options" := TMap {[ "max-size" := TStr "10m" ]} ]}.

(* ===================================================================== *)
(** * Part 2. Lemmas and theorems *)
(* ===================================================================== *)

(** ** The monad *)

Lemma bind_inv_Ok {S A B} (m : M S A) (k : A -> M S B) s b s2 :
  bind m k s = (Ok b, s2) ->
  exists a s1, m s = (Ok a, s1) /\ k a s1 = (Ok b, s2).
Proof.
  unfold bind. destruct (m s) as [[a|e|e] s1]; intros E; try discriminate.
  eauto.
Qed.

(** ** [Options.clone] *)

(** C10: [clone] returns options whose [SkipResolveEnvironment] is false
    whatever the receiver holds, and whose fourteen other fields are the
    receiver's. *)
Theorem clone_resets_SkipResolveEnvironment {I : Interp} (o : Options.t) :
  Options.SkipResolveEnvironment (Options.clone o) = false
  /\ Options.SkipValidation (Options.clone o) = Options.SkipValidation o
  /\ Options.SkipInterpolation (Options.clone o) = Options.SkipInterpolation o
  /\ Options.SkipNormalization (Options.clone o) = Options.SkipNormalization o
  /\ Options.ResolvePaths (Options.clone o) = Options.ResolvePaths o
  /\ Options.ConvertWindowsPaths (Options.clone o)
     = Options.ConvertWindowsPaths o
  /\ Options.SkipConsistencyCheck (Options.clone o)
     = Options.SkipConsistencyCheck o
  /\ Options.SkipExtends (Options.clone o) = Options.SkipExtends o
  /\ Options.SkipInclude (Options.clone o) = Options.SkipInclude o
  /\ Options.Interpolate (Options.clone o) = Options.Interpolate o
  /\ Options.discardEnvFiles (Options.clone o) = Options.discardEnvFiles o
  /\ Options.projectName (Options.clone o) = Options.projectName o
  /\ Options.projectNameImperativelySet (Options.clone o)
     = Options.projectNameImperativelySet o
  /\ Options.Profiles (Options.clone o) = Options.Profiles o
  /\ Options.ResourceLoaders (Options.clone o) = Options.ResourceLoaders o.
Proof. repeat split. Qed.

(** ** [cycleTracker.Add] *)

Lemma serviceRef_eqb_eq (a b : serviceRef) :
  serviceRef_eqb a b = true <-> a = b.
Proof.
  unfold serviceRef_eqb. rewrite andb_true_iff, !String.eqb_eq.
  destruct a, b; simpl. split.
  - intros [-> ->]. reflexivity.
  - intros [= -> ->]. split; reflexivity.
Qed.

Lemma existsb_serviceRef (x : serviceRef) (l : list serviceRef) :
  existsb (serviceRef_eqb x) l = bool_decide (x ∈ l).
Proof.
  induction l as [|y l IH].
  - symmetry. apply bool_decide_eq_false_2, not_elem_of_nil.
  - cbn [existsb]. destruct (serviceRef_eqb x y) eqn:E.
    + apply serviceRef_eqb_eq in E as ->.
      symmetry. apply bool_decide_eq_true_2, list_elem_of_here.
    + rewrite IH. apply bool_decide_ext. rewrite elem_of_cons.
      split; [tauto |]. intros [->|?]; [| assumption].
      assert (serviceRef_eqb y y = true) by (apply serviceRef_eqb_eq; reflexivity).
      congruence.
Qed.


(** ** [ApplyExtends] *)

Section Extends.
Context {MR : MapRange} {FP : FilePath} {I : Interp} {EE : ExtendsEnv}.
Variables (ctx : option string) (workingdir : string) (opts : Options.t)
          (post : list PostProcessor).

(** A turn of the loop either leaves [services] alone, on an entry without
    [extends], or replaces the entry of [name] by a mapping from which
    [extends] was deleted. *)
Lemma extendOne_Ok services name s w services' w' :
  extendOne ctx workingdir opts post services (name, s) w = (Ok services', w') ->
  (extendsFree s /\ services' = services)
  \/ (exists merged,
        services' = <[name := TMap (delete "extends" merged)]> services).
Proof.
  unfold extendOne. intros E.
  apply bind_inv_Ok in E as (svc & w1 & Hs & E).
  destruct s; try discriminate. injection Hs as -> <-.
  destruct (svc !! "extends") as [x|] eqn:Hx.
  - right.
    apply bind_inv_Ok in E as (file_name & w2 & _ & E).
    apply bind_inv_Ok in E as (? & w3 & _ & E).
    apply bind_inv_Ok in E as (rf & w4 & _ & E).
    apply bind_inv_Ok in E as (base & w5 & _ & E).
    apply bind_inv_Ok in E as (source & w6 & _ & E).
    apply bind_inv_Ok in E as (merged & w7 & _ & E).
    injection E as <- <-. eauto.
  - left. injection E as <- <-. split; [| reflexivity].
    exists svc. auto.
Qed.

Lemma delete_extendsFree (merged : gmap string tree) :
  extendsFree (TMap (delete "extends" merged)).
Proof. eexists. split; [reflexivity | apply lookup_delete_eq]. Qed.

(** The loop invariant: keys outside the visited entries keep their value;
    a visited entry is free of [extends], either because it was replaced
    or because it never had the key. *)
Lemma extends_loop_inv (l : list (string * tree)) :
  NoDup l.*1 ->
  forall services w services' w',
    forM l services (extendOne ctx workingdir opts post) w
      = (Ok services', w') ->
    (forall k, k ∉ l.*1 -> services' !! k = services !! k)
    /\ (forall k s, (k, s) ∈ l ->
          (exists t, services' !! k = Some t /\ extendsFree t)
          \/ (services' !! k = services !! k /\ extendsFree s)).
Proof.
  induction l as [|[k0 s0] l IH]; intros Hnd services w services' w' E.
  - injection E as <- <-. split; [reflexivity |].
    intros k s Hin. exfalso. revert Hin. apply not_elem_of_nil.
  - cbn [forM] in E. apply bind_inv_Ok in E as (services1 & w1 & E1 & E).
    cbn [fmap list_fmap fst] in Hnd. apply NoDup_cons in Hnd as [Hk0 Hnd].
    destruct (IH Hnd _ _ _ _ E) as [IH1 IH2]. clear IH E.
    assert (Hother : forall k, k <> k0 -> services1 !! k = services !! k).
    { intros k Hne. apply extendOne_Ok in E1 as [[_ ->]|[merged ->]];
        [reflexivity | by rewrite lookup_insert_ne]. }
    split.
    + intros k Hk. cbn [fmap list_fmap fst] in Hk.
      apply not_elem_of_cons in Hk as [Hne Hk].
      rewrite IH1 by assumption. by apply Hother.
    + intros k s Hin. apply elem_of_cons in Hin as [[= -> ->]|Hin].
      * rewrite (IH1 _ Hk0).
        apply extendOne_Ok in E1 as [[Hfree ->]|[merged ->]].
        -- right. auto.
        -- left. eexists. rewrite lookup_insert_eq.
           split; [reflexivity | apply delete_extendsFree].
      * assert (Hne : k <> k0).
        { intros ->. apply Hk0. apply list_elem_of_fmap. by exists (k0, s). }
        destruct (IH2 _ _ Hin) as [?|[Heq Hfree]]; [by left |].
        right. split; [| assumption]. rewrite Heq. by apply Hother.
Qed.

(** C5: after [ApplyExtends] returned without error on a tree that has a
    [services] entry, that entry is a mapping and none of the services in
    it has an [extends] key. *)
Theorem ApplyExtends_removes_extends (dict : gmap string tree)
    (w : world) (dict' : gmap string tree) (w' : world) :
  ApplyExtends ctx dict workingdir opts post w = (Ok dict', w') ->
  is_Some (dict !! "services") ->
  exists services' : gmap string tree,
    dict' !! "services" = Some (TMap services')
    /\ forall name entry,
         services' !! name = Some entry ->
         exists m : gmap string tree,
           entry = TMap m /\ m !! "extends" = None.
Proof.
  unfold ApplyExtends. intros E [a Ha]. rewrite Ha in E.
  apply bind_inv_Ok in E as (services & w1 & Hs & E).
  destruct a; try discriminate. injection Hs as -> <-.
  apply bind_inv_Ok in E as (services' & w2 & Hloop & E).
  injection E as <- <-. exists services'.
  split; [apply lookup_insert_eq |].
  assert (Hperm : range services ≡ₚ map_to_list services) by apply range_perm.
  assert (Hnd : NoDup (range services).*1).
  { rewrite Hperm. apply NoDup_fst_map_to_list. }
  destruct (extends_loop_inv _ Hnd _ _ _ _ Hloop) as [H1 H2].
  intros name entry Hentry.
  destruct (services !! name) as [s|] eqn:Hname.
  - assert (Hin : (name, s) ∈ range services).
    { rewrite Hperm. by apply elem_of_map_to_list. }
    destruct (H2 _ _ Hin) as [(t & Ht & Hfree)|[Heq Hfree]].
    + rewrite Hentry in Ht. injection Ht as <-. exact Hfree.
    + rewrite Heq, Hname in Hentry. injection Hentry as <-. exact Hfree.
  - assert (Hout : name ∉ (range services).*1).
    { rewrite Hperm. intros Hin. apply list_elem_of_fmap in Hin as ([k s] & -> & Hin).
      apply elem_of_map_to_list in Hin. simpl in Hname. congruence. }
    rewrite (H1 _ Hout), Hname in Hentry. discriminate.
Qed.

End Extends.

(** [ApplyExtends] adds a node for each service that has [extends] and
    takes a base of the same file from [services] as it stands, without
    resolving the base first.  Two services of one file that extend each
    other therefore pass: the tracker ends with the two nodes and no node
    is added twice. *)
Lemma ApplyExtends_same_file_cycle :
  ApplyExtends (MR := key_order) (FP := sample_FilePath) (EE := sample_ExtendsEnv)
    (Some "compose.yaml") extends_cycle_dict "/work" (sample_Options []) []
    world0
  = (Ok extends_cycle_result, extends_cycle_world).
Proof. vm_compute. reflexivity. Qed.

Lemma ApplyExtends_removes_extends_witness :
  ApplyExtends (MR := key_order) (FP := sample_FilePath) (EE := sample_ExtendsEnv)
    (Some "compose.yaml") extends_local_dict "/work" (sample_Options []) []
    world0 = (Ok extends_local_result, extends_local_world)
  /\ is_Some (extends_local_dict !! "services")
  /\ exists services' : gmap string tree,
       extends_local_result !! "services" = Some (TMap services')
       /\ forall name entry,
            services' !! name = Some entry ->
            exists m : gmap string tree,
              entry = TMap m /\ m !! "extends" = None.
Proof.
  assert (E : ApplyExtends (MR := key_order) (FP := sample_FilePath)
                (EE := sample_ExtendsEnv)
                (Some "compose.yaml") extends_local_dict "/work"
                (sample_Options []) [] world0
              = (Ok extends_local_result, extends_local_world))
    by (vm_compute; reflexivity).
  assert (S : is_Some (extends_local_dict !! "services"))
    by (vm_compute; eauto).
  split; [exact E |]. split; [exact S |].
  exact (ApplyExtends_removes_extends (MR := key_order) (FP := sample_FilePath)
           (EE := sample_ExtendsEnv) (Some "compose.yaml") "/work"
           (sample_Options []) [] extends_local_dict world0
           extends_local_result extends_local_world E S).
Defined.

(** ** The loop over the resource loaders *)

Lemma tryLoader_trace {FP : FilePath} {I : Interp} {EE : ExtendsEnv}
    workingdir (opts : Options.t) name ref path base il w b w' :
  tryLoader workingdir opts name ref path base il w = (Ok b, w') ->
  trace w' = trace w ++ loaderCalls path il.
Proof.
  destruct il as [i loader]. unfold tryLoader, loaderCalls. cbn [fst snd].
  intros E. apply bind_inv_Ok in E as ([] & w1 & E1 & E).
  injection E1 as <-. destruct (Accept loader path); cbn [negb] in E.
  - apply bind_inv_Ok in E as ([] & w2 & E2 & E). injection E2 as <-.
    apply bind_inv_Ok in E as (local & w3 & E3 & E).
    unfold lift in E3. injection E3 as _ <-.
    apply bind_inv_Ok in E as (rel & w4 & E4 & E).
    assert (w4 = {| ct := ct w; trace := (trace w ++ [EvAccept i path])
                                         ++ [EvLoad i path] |}) as ->.
    { destruct (negb (filepath_IsAbs local)); unfold lift, ret in E4;
        by injection E4 as _ <-. }
    apply bind_inv_Ok in E as (source & w5 & E5 & E).
    unfold onTracker in E5. cbn [ct trace] in E5.
    destruct (loadYamlModel _ _ _) as [r ct']. injection E5 as _ <-.
    apply bind_inv_Ok in E as (services & w6 & E6 & E).
    destruct (index source "services"); try discriminate E6.
    injection E6 as _ <-.
    destruct (services !! ref); [| discriminate E].
    injection E as _ <-. cbn [trace]. by rewrite <- app_assoc.
  - injection E as _ <-. reflexivity.
Qed.

(** The loop has no exit: on a normal return every loader was asked, and
    every loader that accepts the path was made to load it. *)
Lemma loaders_loop_trace {FP : FilePath} {I : Interp} {EE : ExtendsEnv}
    workingdir (opts : Options.t) name ref path
    (l : list (nat * ResourceLoader)) :
  forall base w b w',
    forM l base (tryLoader workingdir opts name ref path) w = (Ok b, w') ->
    trace w' = trace w ++ (l ≫= loaderCalls path).
Proof.
  induction l as [|il l IH]; intros base w b w' E; cbn [forM] in E.
  - injection E as _ <-. cbn. by rewrite app_nil_r.
  - apply bind_inv_Ok in E as (b1 & w1 & E1 & E).
    apply tryLoader_trace in E1. apply IH in E.
    rewrite E, E1. cbn. by rewrite <- app_assoc.
Qed.

(** C2 (what the code does): the loop over the registered loaders does not
    stop at the first loader that accepts the path.  Whenever it returns
    normally, [Load] was called on every registered loader that accepts
    the path; and with two loaders that both accept it, [Load] is called on
    both, in registration order, and the base that is merged comes from
    the file of the second. *)
Theorem ApplyExtends_every_accepting_loader_loads :
  (forall {FP : FilePath} {I : Interp} {EE : ExtendsEnv} workingdir
          (opts : Options.t) name ref path w base w' i loader,
     forM (indexed (Options.ResourceLoaders opts)) TNull
          (tryLoader workingdir opts name ref path) w = (Ok base, w') ->
     Options.ResourceLoaders opts !! i = Some loader ->
     Accept loader path = true ->
     EvLoad i path ∈ trace w')
  /\ ApplyExtends (MR := key_order) (FP := sample_FilePath) (EE := sample_ExtendsEnv)
    (Some "compose.yaml") extends_file_dict "/work"
    (sample_Options [first_loader; second_loader]) [] world0
  = (Ok extends_file_result, extends_file_world)
  /\ EvLoad 1 "base.yaml" ∈ trace extends_file_world
  /\ (exists web : gmap string tree,
        index extends_file_result "services" = TMap {[ "web" := TMap web ]}
        /\ web !! "origin" = Some (TStr "second")).
Proof.
  split; [| split; [vm_compute; reflexivity | split]].
  - intros FP I EE workingdir opts name ref path w base w' i loader E Hi Ha.
    apply loaders_loop_trace in E. rewrite E.
    apply elem_of_app. right. apply list_elem_of_bind.
    exists (i, loader). split.
    + unfold loaderCalls. cbn [fst snd]. rewrite Ha.
      apply list_elem_of_further, list_elem_of_here.
    + apply list_elem_of_lookup. exists i. unfold indexed.
      by rewrite list_lookup_imap, Hi.
  - unfold extends_file_world. cbn [trace].
    do 3 apply list_elem_of_further. apply list_elem_of_here.
  - eexists. split; vm_compute; reflexivity.
Qed.

(** ** [NormalizeProjectName] and [projectName] *)

Lemma name_char_plain (c : ascii) :
  name_char c = true ->
  is_upper c = false /\ Ascii.eqb c "196" = false /\ Ascii.eqb c "226" = false.
Proof.
  destruct c as [[] [] [] [] [] [] [] []]; vm_compute; intros E;
    try discriminate E; repeat split.
Qed.

Lemma ToLower_cons_plain (c : ascii) (rest : string) :
  Ascii.eqb c "196" = false -> Ascii.eqb c "226" = false ->
  ToLower (String c rest) = String (lower_ascii c) (ToLower rest).
Proof.
  intros H1 H2. destruct rest as [|c1 [|c2 rest2]]; cbn [ToLower];
    rewrite ?H1, ?H2; reflexivity.
Qed.

Lemma ToLower_name_chars (s : string) : all_name_chars s -> ToLower s = s.
Proof.
  induction s as [|c rest IH]; [reflexivity |]. intros [Hc Hrest].
  destruct (name_char_plain c Hc) as (Hup & H1 & H2).
  rewrite ToLower_cons_plain by assumption.
  unfold lower_ascii. rewrite Hup, IH by assumption. reflexivity.
Qed.

Lemma Join_FindAllString_cons (c : ascii) (rest : string) :
  Join (FindAllString (String c rest)) ""
  = if name_char c then String c (Join (FindAllString rest) "")
    else Join (FindAllString rest) "".
Proof.
  cbn [FindAllString]. destruct (name_char c); [| reflexivity].
  unfold Join. destruct (FindAllString rest); reflexivity.
Qed.

Lemma FindAllString_name_chars (s : string) :
  all_name_chars (Join (FindAllString s) "").
Proof.
  induction s as [|c rest IH]; [exact Logic.I |].
  rewrite Join_FindAllString_cons. destruct (name_char c) eqn:E; [| exact IH].
  split; assumption.
Qed.

Lemma FindAllString_id (s : string) :
  all_name_chars s -> Join (FindAllString s) "" = s.
Proof.
  induction s as [|c rest IH]; [reflexivity |]. intros [Hc Hrest].
  rewrite Join_FindAllString_cons, Hc, IH by assumption. reflexivity.
Qed.

Lemma TrimLeft_name_chars (s : string) :
  all_name_chars s -> all_name_chars (TrimLeft_name s).
Proof.
  induction s as [|c rest IH]; [auto |]. intros [Hc Hrest]. cbn [TrimLeft_name].
  destruct (Ascii.eqb c "_" || Ascii.eqb c "-"); [auto | split; assumption].
Qed.







(** ** [transformPorts] *)

Section Ports.
Context {P : Ports}.

Lemma encodeAll_encodeEach (parsed : list ServicePortConfig) :
  forall ports,
    match encodeEach parsed with
    | Some ms => encodeAll parsed ports = inl (ports ++ ms)
    | None => exists err, encodeAll parsed ports = inr err
    end.
Proof.
  unfold encodeEach.
  induction parsed as [|v parsed IH]; intros ports; cbn.
  - by rewrite app_nil_r.
  - destruct (encode v) as [m [err|]]; cbn; [eauto |].
    specialize (IH (ports ++ [TMap m])).
    destruct (mapM _ parsed) as [ms|]; cbn in *.
    + by rewrite IH, <- app_assoc.
    + exact IH.
Qed.

Lemma encodeEach_maps (parsed : list ServicePortConfig) (ms : list tree) :
  encodeEach parsed = Some ms -> Forall (fun t => is_map t = true) ms.
Proof.
  unfold encodeEach. revert ms.
  induction parsed as [|v parsed IH]; intros ms; cbn.
  - intros [= <-]. constructor.
  - destruct (encode v) as [m [err|]]; cbn; [discriminate |].
    destruct (mapM _ parsed) as [ms'|]; cbn; [| discriminate].
    intros [= <-]. constructor; [reflexivity | by apply IH].
Qed.

Lemma shortForm_expand (data : tree) (text : string) (ports : list tree) :
  match (match ParsePortConfig text with
         | (parsed, None) => encodeEach parsed
         | (_, Some _) => None
         end) with
  | Some ms => shortForm data text ports = inl (ports ++ ms)
  | None => exists t err, shortForm data text ports = inr (t, Some err)
  end.
Proof.
  unfold shortForm. destruct (ParsePortConfig text) as [parsed [err|]]; [eauto |].
  pose proof (encodeAll_encodeEach parsed ports) as H.
  destruct (encodeEach parsed) as [ms|].
  - by rewrite H.
  - destruct H as [err ->]. eauto.
Qed.

Lemma expandEntry_maps (entry : tree) (ms : list tree) :
  expandEntry entry = Some ms -> Forall (fun t => is_map t = true) ms.
Proof.
  destruct entry; cbn; try discriminate.
  - destruct (ParsePortConfig _) as [parsed [err|]]; [discriminate |].
    apply encodeEach_maps.
  - destruct (ParsePortConfig _) as [parsed [err|]]; [discriminate |].
    apply encodeEach_maps.
  - intros [= <-]. repeat constructor.
Qed.

Lemma portsLoop_expand (data : tree) (entries : list tree) :
  forall ports,
    match mapM expandEntry entries with
    | Some groups =>
        portsLoop data entries ports = (TSeq (ports ++ concat groups), None)
    | None => exists err, (portsLoop data entries ports).2 = Some err
    end.
Proof.
  induction entries as [|entry rest IH]; intros ports; cbn [mapM portsLoop].
  - cbn. by rewrite app_nil_r.
  - destruct entry; cbn [expandEntry mbind option_bind]; try (cbn; eauto; fail).
    + pose proof (shortForm_expand data (Itoa n) ports) as H.
      destruct (match ParsePortConfig (Itoa n) with
                | (parsed, None) => encodeEach parsed
                | (_, Some _) => None
                end) as [ms|]; cbn.
      * rewrite H. specialize (IH (ports ++ ms)).
        destruct (mapM expandEntry rest) as [groups|]; cbn in *.
        -- by rewrite IH, <- app_assoc.
        -- exact IH.
      * destruct H as (t & err & ->). eauto.
    + pose proof (shortForm_expand data s ports) as H.
      destruct (match ParsePortConfig s with
                | (parsed, None) => encodeEach parsed
                | (_, Some _) => None
                end) as [ms|]; cbn.
      * rewrite H. specialize (IH (ports ++ ms)).
        destruct (mapM expandEntry rest) as [groups|]; cbn in *.
        -- by rewrite IH, <- app_assoc.
        -- exact IH.
      * destruct H as (t & err & ->). eauto.
    + cbn. specialize (IH (ports ++ [TMap m])).
      destruct (mapM expandEntry rest) as [groups|]; cbn in *.
      * by rewrite IH, <- app_assoc.
      * exact IH.
Qed.

(** C6 (amended): on a sequence, [transformPorts] returns without error
    exactly when every entry has a long form: it is a mapping, or an
    integer or string that the port parser accepts and whose ports encode.
    The result is then the sequence of those long forms in order, all of
    them mappings, a mapping entry standing unchanged.  Otherwise, which
    includes an entry of any other type, it returns an error; and on an
    input that is not a sequence it returns an error. *)
Theorem transformPorts_canonical :
  (forall (entries : list tree) (p : Path),
     match mapM expandEntry entries with
     | Some groups =>
         transformPorts (TSeq entries) p = (TSeq (concat groups), None)
         /\ Forall (fun t => is_map t = true) (concat groups)
     | None => exists err, (transformPorts (TSeq entries) p).2 = Some err
     end)
  /\ (forall (m : gmap string tree), expandEntry (TMap m) = Some [TMap m])
  /\ (forall (data : tree) (p : Path),
        match data with
        | TSeq _ => True
        | _ => exists err, transformPorts data p = (data, Some err)
        end).
Proof.
  split; [| split].
  - intros entries p. cbn [transformPorts].
    pose proof (portsLoop_expand (TSeq entries) entries []) as H.
    destruct (mapM expandEntry entries) as [groups|] eqn:E; [| exact H].
    split; [exact H |].
    clear H. revert groups E.
    induction entries as [|entry rest IH]; intros groups; cbn.
    + intros [= <-]. constructor.
    + destruct (expandEntry entry) as [ms|] eqn:Em; cbn; [| discriminate].
      destruct (mapM expandEntry rest) as [groups'|]; cbn; [| discriminate].
      intros [= <-]. cbn. apply Forall_app. split.
      * by apply expandEntry_maps in Em.
      * by apply IH.
  - reflexivity.
  - intros data p. destruct data; cbn; eauto.
Qed.

End Ports.

(** A run of the sample parser: the integer and the string are replaced
    by the port they parse to, the mapping stays. *)
Lemma transformPorts_sample :
  transformPorts (P := sample_Ports)
    (TSeq [TInt 80; TMap {[ "target" := TInt 443 ]}; TStr "80"]) NewPath
  = (TSeq [ TMap {[ "mode" := TStr "ingress"; "protocol" := TStr "tcp";
                    "target" := TInt 80 ]};
            TMap {[ "target" := TInt 443 ]};
            TMap {[ "mode" := TStr "ingress"; "protocol" := TStr "tcp";
                    "target" := TInt 80 ]} ],
     None).
Proof. vm_compute. reflexivity. Qed.

(** C6 (as stated) fails: a sequence holding the string [eighty] is a
    sequence of integers, strings and mappings, and the port parser
    rejects it; [transformPorts] returns the parser's error. *)
Lemma transformPorts_rejects_unparsable :
  ~ alwaysCanonical (P := sample_Ports) [TStr "eighty"].
Proof.
  intros Hclaim. destruct Hclaim as (ports & E & _).
  - repeat constructor.
  - vm_compute in E. discriminate E.
Qed.

(** ** [groupXFieldsIntoExtensions] *)

Lemma range_singleton {MR : MapRange} {A} (k : string) (v : A) :
  range ({[ k := v ]} : gmap string A) = [(k, v)].
Proof.
  apply Permutation_singleton_r. rewrite range_perm, map_to_list_singleton.
  reflexivity.
Qed.

(** The test of l.549-555 succeeds for the five user-defined keys and for
    the one-segment path [*]: the path of the mapping is the pattern that
    the keys are matched against. *)
Lemma skipXFields_true (p : Path) :
  skipXFields p = true <-> p ∈ userDefinedKeys \/ p = ["*"].
Proof.
  unfold skipXFields, userDefinedKeys. cbn [existsb Matches]. split.
  - destruct p as [|seg [|seg' p]]; cbn; try discriminate.
    + rewrite !andb_true_r, !orb_false_r, !orb_true_iff.
      destruct (String.eqb_spec seg "*") as [->|Hne]; [intros _; by right |].
      cbn. intros H. left.
      destruct H as [[H|H]|[[H|H]|[[H|H]|[[H|H]|[H|H]]]]];
        try discriminate H; apply String.eqb_eq in H; subst seg; set_solver.
    + rewrite !andb_false_r. discriminate.
  - intros [Hin | ->]; [| reflexivity].
    repeat (apply elem_of_cons in Hin as [->|Hin]; [reflexivity |]).
    exfalso. revert Hin. apply not_elem_of_nil.
Qed.

Lemma fold_left_ext_in {A B} (f g : A -> B -> A) (l : list B) :
  (forall a x, x ∈ l -> f a x = g a x) ->
  forall a, fold_left f l a = fold_left g l a.
Proof.
  induction l as [|x l IH]; intros Hfg a; [reflexivity |]. cbn.
  rewrite Hfg by apply list_elem_of_here. apply IH.
  intros a' y Hy. apply Hfg. by apply list_elem_of_further.
Qed.

Lemma elem_of_range {MR : MapRange} {A} (m : gmap string A) k v :
  (k, v) ∈ range m <-> m !! k = Some v.
Proof. rewrite range_perm. apply elem_of_map_to_list. Qed.

(** [groupXFields] on a mapping is the loop with [groupChild] in the place
    of the switch, followed by the storing of the bucket. *)
Lemma groupXFields_TMap {MR : MapRange} (dict : gmap string tree) (p : Path) :
  groupXFields (TMap dict) p
  = TMap (storeExtras (fold_left (groupStep p (groupChild p)) (range dict)
                                 (dict, ∅))).
Proof.
  cbn [groupXFields].
  match goal with
  | |- context [fold_left (groupStep p ?c) _ _] => set (child := c)
  end.
  rewrite (fold_left_ext_in (groupStep p child) (groupStep p (groupChild p))).
  - destruct (fold_left _ _ _) as [dict' extras]. reflexivity.
  - intros [d ex] [k v] Hin. apply elem_of_range in Hin.
    unfold groupStep. destruct (negb (skipXFields p) && HasPrefix k "x-");
      [reflexivity |].
    do 2 f_equal. unfold child. rewrite lookup_fmap, Hin. cbn.
    destruct v; try reflexivity.
    cbn [groupChild]. f_equal. rewrite imap_fmap. apply imap_ext.
    intros i e _. cbn. by destruct e.
Qed.

(** The loop, entry by entry: a visited key that is moved leaves [dict]
    and enters [extras]; a visited key that stays gets its child. *)
Lemma groupStep_fold (p : Path) (child : string -> tree -> tree)
    (l : list (string * tree)) :
  NoDup l.*1 ->
  forall d ex k,
    let st := fold_left (groupStep p child) l (d, ex) in
    let moved := negb (skipXFields p) && HasPrefix k "x-" in
    match (list_to_map l : gmap string tree) !! k with
    | Some v =>
        st.1 !! k = (if moved then None else Some (child k v))
        /\ st.2 !! k = (if moved then Some v else ex !! k)
    | None => st.1 !! k = d !! k /\ st.2 !! k = ex !! k
    end.
Proof.
  induction l as [|[k0 v0] l IH]; intros Hnd d ex k; cbn [fold_left].
  - cbn. rewrite lookup_empty. auto.
  - cbn [fmap list_fmap fst] in Hnd. apply NoDup_cons in Hnd as [Hk0 Hnd].
    cbn [list_to_map foldr]. cbn beta iota zeta.
    assert (Hnone : (list_to_map l : gmap string tree) !! k0 = None)
      by by apply not_elem_of_list_to_map_1.
    assert (Hstep : groupStep p child (d, ex) (k0, v0)
                    = if negb (skipXFields p) && HasPrefix k0 "x-"
                      then (delete k0 d, <[k0 := v0]> ex)
                      else (<[k0 := child k0 v0]> d, ex)) by reflexivity.
    rewrite Hstep. clear Hstep.
    destruct (negb (skipXFields p) && HasPrefix k0 "x-") eqn:Emoved.
    + specialize (IH Hnd (delete k0 d) (<[k0 := v0]> ex) k). cbn zeta in IH.
      destruct (decide (k = k0)) as [->|Hne].
      * cbn [fst snd]. rewrite lookup_insert_eq. rewrite Hnone in IH. rewrite Emoved.
        destruct IH as [-> ->]. by rewrite lookup_delete_eq, lookup_insert_eq.
      * cbn [fst snd]. rewrite lookup_insert_ne by done.
        destruct (list_to_map l !! k) as [v|].
        -- destruct IH as [-> ->]. split; [reflexivity |].
           destruct (negb (skipXFields p) && HasPrefix k "x-");
             [reflexivity |]. by rewrite lookup_insert_ne.
        -- destruct IH as [-> ->].
           by rewrite lookup_delete_ne, lookup_insert_ne.
    + specialize (IH Hnd (<[k0 := child k0 v0]> d) ex k). cbn zeta in IH.
      destruct (decide (k = k0)) as [->|Hne].
      * cbn [fst snd]. rewrite lookup_insert_eq. rewrite Hnone in IH. rewrite Emoved.
        destruct IH as [-> ->]. by rewrite lookup_insert_eq.
      * cbn [fst snd]. rewrite lookup_insert_ne by done.
        destruct (list_to_map l !! k) as [v|].
        -- exact IH.
        -- destruct IH as [-> ->]. by rewrite lookup_insert_ne.
Qed.

(** The state of the loop when every entry of [dict] was visited. *)
Lemma groupLoop_lookup {MR : MapRange} (p : Path)
    (child : string -> tree -> tree) (dict : gmap string tree) (k : string) :
  let st := fold_left (groupStep p child) (range dict) (dict, ∅) in
  let moved := negb (skipXFields p) && HasPrefix k "x-" in
  st.1 !! k = (if moved then None else child k <$> dict !! k)
  /\ st.2 !! k = (if moved then dict !! k else None).
Proof.
  assert (Hnd : NoDup (range dict).*1).
  { rewrite range_perm. apply NoDup_fst_map_to_list. }
  pose proof (groupStep_fold p child (range dict) Hnd dict ∅ k) as H.
  cbn zeta in *.
  assert (Hmap : (list_to_map (range dict) : gmap string tree) = dict).
  { rewrite <- (list_to_map_to_list dict) at 2.
    apply list_to_map_proper; [exact Hnd | apply range_perm]. }
  rewrite Hmap in H. clear Hmap.
  destruct (dict !! k) as [v|] eqn:Ek; cbn [fmap option_fmap option_map];
    destruct H as [-> ->]; rewrite ?lookup_empty;
    by destruct (negb _ && _).
Qed.

(** The rule of the specification, for every path that is not the
    one-segment path [*]: in a user-defined key scope every key stays,
    with its child; elsewhere no [x-] key stays, each is found in the
    [extensions] bucket with the value it had, and the other keys stay
    with their children. *)
Lemma groupXFields_rule {MR : MapRange} (dict : gmap string tree) (p : Path) :
  p <> ["*"] ->
  let r := groupXFieldsIntoExtensions dict p in
  (p ∈ userDefinedKeys ->
     forall k, r !! k = groupChild p k <$> dict !! k)
  /\ (p ∉ userDefinedKeys ->
      (forall k, HasPrefix k "x-" = true -> r !! k = None)
      /\ (forall k v, HasPrefix k "x-" = true -> dict !! k = Some v ->
            exists bucket, r !! consts_Extensions = Some (TMap bucket)
                           /\ bucket !! k = Some v)
      /\ (forall k, HasPrefix k "x-" = false -> k <> consts_Extensions ->
            r !! k = groupChild p k <$> dict !! k)).
Proof.
  intros Hstar r. subst r. unfold groupXFieldsIntoExtensions.
  rewrite groupXFields_TMap.
  set (st := fold_left (groupStep p (groupChild p)) (range dict) (dict, ∅)).
  assert (Hst : forall k,
             st.1 !! k = (if negb (skipXFields p) && HasPrefix k "x-"
                          then None else groupChild p k <$> dict !! k)
             /\ st.2 !! k = (if negb (skipXFields p) && HasPrefix k "x-"
                             then dict !! k else None))
    by (intros k; apply groupLoop_lookup).
  split.
  - intros Hin.
    assert (Hskip : skipXFields p = true) by (apply skipXFields_true; auto).
    rewrite Hskip in Hst. cbn [negb andb] in Hst.
    assert (Hex : st.2 = ∅) by (apply map_empty; intros k; apply Hst).
    intros k. unfold storeExtras. cbn [fst snd]. rewrite Hex, map_size_empty.
    cbn [Nat.ltb Nat.leb].
    apply Hst.
  - intros Hout.
    assert (Hskip : skipXFields p = false).
    { destruct (skipXFields p) eqn:E; [| reflexivity].
      apply skipXFields_true in E as [?|?]; contradiction. }
    rewrite Hskip in Hst. cbn [negb andb] in Hst.
    split; [| split].
    + intros k Hx. destruct (Hst k) as [H1 _]. rewrite Hx in H1.
      unfold storeExtras. destruct (0 <? size st.2)%nat; [| exact H1].
      rewrite lookup_insert_ne; [exact H1 |].
      intros <-. vm_compute in Hx. discriminate Hx.
    + intros k v Hx Hk. destruct (Hst k) as [_ H2]. rewrite Hx, Hk in H2.
      exists st.2. split; [| exact H2].
      unfold storeExtras.
      assert (Hsize : (0 <? size st.2)%nat = true).
      { apply Nat.ltb_lt. apply Nat.neq_0_lt_0. intros Hz.
        apply map_size_empty_iff in Hz. rewrite Hz, lookup_empty in H2.
        discriminate H2. }
      rewrite Hsize. apply lookup_insert_eq.
    + intros k Hx Hne. destruct (Hst k) as [H1 _]. rewrite Hx in H1.
      unfold storeExtras. destruct (0 <? size st.2)%nat; [| exact H1].
      rewrite lookup_insert_ne by done. exact H1.
Qed.

(** C7 (what the code does): under a top-level key named [*] the path of
    the mapping is [*], which is none of the user-defined key scopes, yet
    the [x-foo] key of that mapping is not moved: whatever order the maps
    are visited in, the tree comes back as it was. *)
Theorem groupXFields_keeps_x_under_star {MR : MapRange} :
  (["*"] ∉ userDefinedKeys)
  /\ groupXFieldsIntoExtensions {[ "x-foo" := TStr "bar" ]} ["*"]
     = {[ "x-foo" := TStr "bar" ]}
  /\ groupXFieldsIntoExtensions star_dict NewPath = star_dict.
Proof.
  assert (Hinner : groupXFields (TMap {[ "x-foo" := TStr "bar" ]}) ["*"]
                   = TMap {[ "x-foo" := TStr "bar" ]}).
  { cbn [groupXFields]. rewrite range_singleton. cbn [fold_left groupStep].
    change (skipXFields ["*"]) with true. cbn [negb andb].
    rewrite map_fmap_singleton, lookup_singleton_eq, insert_singleton_eq.
    reflexivity. }
  split; [| split].
  - unfold userDefinedKeys. rewrite !elem_of_cons, elem_of_nil.
    intros [H|[H|[H|[H|[H|[]]]]]]; discriminate H.
  - unfold groupXFieldsIntoExtensions. by rewrite Hinner.
  - unfold groupXFieldsIntoExtensions, star_dict. cbn [groupXFields].
    rewrite range_singleton. cbn [fold_left groupStep].
    change (skipXFields NewPath) with false.
    change (HasPrefix "*" "x-") with false. cbn [negb andb].
    rewrite map_fmap_singleton, lookup_singleton_eq.
    change (Next NewPath "*") with ["*"].
    rewrite Hinner, insert_singleton_eq. reflexivity.
Qed.

(** The two boundary cases of the specification, on one tree: [x-foo]
    directly under [services] stays where it is, [x-foo] under
    [services.web] moves into [services.web.extensions]. *)
Lemma groupXFields_services_example :
  groupXFieldsIntoExtensions (MR := key_order) services_dict NewPath
  = services_grouped.
Proof. vm_compute. reflexivity. Qed.

(** ** The merge engine: special rules *)

(** Evaluate the comparisons of two string constants, leave the others. *)
Ltac eqb_consts :=
  repeat match goal with
         | |- context [String.eqb ?a ?b] =>
             let r := eval vm_compute in (String.eqb a b) in
             match r with
             | true => change (String.eqb a b) with true
             | false => change (String.eqb a b) with false
             end
         end.

Ltac matches_simpl := cbn [Matches fst snd]; eqb_consts; cbn [andb orb].

(** At most one pattern of [mergeSpecials] matches a path. *)
Lemma mergeSpecials_unique (p : Path) (pm1 pm2 : Path * merger) :
  pm1 ∈ mergeSpecials -> pm2 ∈ mergeSpecials ->
  Matches p pm1.1 = true -> Matches p pm2.1 = true -> pm1 = pm2.
Proof.
  unfold mergeSpecials. intros H1 H2.
  repeat (apply elem_of_cons in H1 as [->|H1]);
    try (by apply elem_of_nil in H1);
    repeat (apply elem_of_cons in H2 as [->|H2]);
    try (by apply elem_of_nil in H2);
    try reflexivity;
    destruct p as [|a [|b [|c [|d [|e p]]]]]; matches_simpl; try discriminate;
    rewrite ?andb_true_r, ?andb_false_r; try discriminate;
    rewrite ?andb_true_iff, ?String.eqb_eq;
    intros M1 M2; decompose [and] M1; decompose [and] M2; subst; congruence.
Qed.


Lemma findSpecial_ulimit (p : Path) :
  Matches p ["services"; "*"; "ulimits"; "*"] = true ->
  findSpecial p = Some mergeUlimit_rule.
Proof.
  destruct p as [|a [|b [|c [|d [|e p]]]]]; matches_simpl; try discriminate;
    rewrite ?andb_true_r, ?andb_false_r; try discriminate.
  rewrite andb_true_iff, !String.eqb_eq. intros [<- <-]. reflexivity.
Qed.

Lemma string_le_total : Total string_le.
Proof. intros a b. apply String.leb_total. Qed.






(** C1 (what the code does): [mergeUlimit] never looks at the base
    operand, and when the override is a mapping what it returns is the
    override's own map.  With the base [{hard: 20, soft: 10}] at location 0
    and the override [{soft: 15}] at location 1, two mappings, the merge
    at [services.web.ulimits.nofile] returns the override map, which still
    holds [soft] only: the [hard] limit of the base is not in the result. *)
Theorem mergeUlimit_ignores_base {MR : MapRange} {F : Fmt} :
  (forall (fuel : nat) (c c' o : val) (p : Path) (s : store),
     mergeUlimit fuel c o p s = mergeUlimit fuel c' o p s)
  /\ (forall (fuel : nat) (c : val) (over : loc) (p : Path) (s s' : store)
             (merged : val),
        mergeUlimit fuel c (VMap over) p s = (Ok merged, s') ->
        merged = VMap over)
  /\ (forall fuel : nat,
        mergeYaml (S (S fuel)) (VMap 0) (VMap 1)
          ["services"; "web"; "ulimits"; "nofile"] ulimit_store
        = (Ok (VMap 1), ulimit_store))
  /\ ulimit_store !! 0 = Some {[ "hard" := VInt 20; "soft" := VInt 10 ]}
  /\ ulimit_store !! 1 = Some {[ "soft" := VInt 15 ]}.
Proof.
  split; [reflexivity |]. split; [| split; [| split; reflexivity]].
  { intros fuel c over p s s' merged E.
    unfold mergeUlimit, mergeUlimit_with, mergeMappings_with in E.
    apply bind_inv_Ok in E as (entries & s1 & _ & E).
    apply bind_inv_Ok in E as ([] & s2 & _ & E).
    by injection E as <- _. }
  intros fuel.
  cbn [mergeYaml]. unfold mergeYaml_with at 1.
  rewrite findSpecial_ulimit by reflexivity. cbn [applyMerger].
  unfold mergeUlimit_with, mergeMappings_with, bind, loadMap.
  change (ulimit_store !! 1)
    with (Some ({[ "soft" := VInt 15 ]} : gmap string val)).
  cbv beta iota. rewrite range_singleton. cbn [forM]. unfold bind.
  change (ulimit_store !! 1)
    with (Some ({[ "soft" := VInt 15 ]} : gmap string val)).
  cbv beta iota. rewrite lookup_singleton_eq.
  change (HasPrefix "soft" "x-") with false. cbv beta iota.
  unfold mergeYaml_with.
  change (findSpecial (Next ["services"; "web"; "ulimits"; "nofile"] "soft"))
    with (@None merger).
  cbv beta iota. unfold ret at 1. unfold setKey.
  change (ulimit_store !! 1)
    with (Some ({[ "soft" := VInt 15 ]} : gmap string val)).
  cbv beta iota. rewrite insert_singleton_eq. reflexivity.
Qed.

(** C9 (what the code does): the override document holds a sequence under
    [services.web.ulimits.nofile.soft].  [Merge] returns without error, and
    afterwards the override document reads [soft: [2048, 2048]] where it
    read [soft: [2048]] before the call.  (Every map of the two documents
    has one key, so there is one order to visit them in.) *)
Theorem Merge_changes_override {F : Fmt} :
  let after :=
    Merge (MR := key_order) 10 ulimit_base_loc ulimit_override_loc
          ulimit_docs in
  readback 10 ulimit_docs (VMap ulimit_base_loc) = Some ulimit_base
  /\ readback 10 ulimit_docs (VMap ulimit_override_loc) = Some ulimit_override
  /\ after.1 = Ok ulimit_base_loc
  /\ readback 10 after.2 (VMap ulimit_override_loc)
     = Some ulimit_override_after
  /\ ulimit_override_after <> ulimit_override.
Proof.
  cbv zeta.
  split; [vm_compute; reflexivity |].
  split; [vm_compute; reflexivity |].
  split; [vm_compute; reflexivity |].
  split; [vm_compute; reflexivity |].
  intros H. vm_compute in H. discriminate H.
Qed.

(* ===================================================================== *)
(** * Further properties of the embedded code *)
(* ===================================================================== *)

(** ** The cycle tracker *)

(** X1: [Add] keeps the tracked list free of duplicates and never drops or
    reorders a node: the list before the call is a prefix of the list
    after it. *)
Theorem cycleTracker_Add_NoDup (ct : cycleTracker.t) (f s : string) :
  NoDup (cycleTracker.loaded ct) ->
  NoDup (cycleTracker.loaded (cycleTracker.Add ct f s).2)
  /\ cycleTracker.loaded ct
     `prefix_of` cycleTracker.loaded (cycleTracker.Add ct f s).2.
Proof.
  intros Hnd. unfold cycleTracker.Add. rewrite existsb_serviceRef.
  case_bool_decide as Hin; cbn [snd cycleTracker.loaded].
  - split; [exact Hnd | reflexivity].
  - split.
    + apply NoDup_app. split; [exact Hnd |]. split.
      * intros x Hx Hx'. apply list_elem_of_singleton in Hx'. by subst x.
      * apply NoDup_singleton.
    + by apply prefix_app_r.
Qed.

Lemma cycleTracker_Add_NoDup_witness :
  NoDup (cycleTracker.loaded
           {| cycleTracker.loaded :=
                [ {| filename := "compose.yaml"; service := "a" |} ] |})
  /\ NoDup (cycleTracker.loaded
              (cycleTracker.Add
                 {| cycleTracker.loaded :=
                      [ {| filename := "compose.yaml"; service := "a" |} ] |}
                 "compose.yaml" "b").2)
  /\ cycleTracker.loaded
       {| cycleTracker.loaded :=
            [ {| filename := "compose.yaml"; service := "a" |} ] |}
     `prefix_of`
     cycleTracker.loaded
       (cycleTracker.Add
          {| cycleTracker.loaded :=
               [ {| filename := "compose.yaml"; service := "a" |} ] |}
          "compose.yaml" "b").2.
Proof.
  assert (H : NoDup (cycleTracker.loaded
                       {| cycleTracker.loaded :=
                            [ {| filename := "compose.yaml";
                                 service := "a" |} ] |}))
    by apply NoDup_singleton.
  split; [exact H |].
  exact (cycleTracker_Add_NoDup _ "compose.yaml" "b" H).
Defined.

(** ** Project names *)

Lemma TrimLeft_name_head (s : string) :
  match TrimLeft_name s with
  | EmptyString => True
  | String c _ => (Ascii.eqb c "_" || Ascii.eqb c "-") = false
  end.
Proof.
  induction s as [|c rest IH]; [exact Logic.I |]. cbn [TrimLeft_name].
  destruct (Ascii.eqb c "_" || Ascii.eqb c "-") eqn:E; [exact IH | exact E].
Qed.

Lemma NormalizeProjectName_result (s : string) :
  canonicalName (NormalizeProjectName s).
Proof.
  unfold NormalizeProjectName. split.
  - apply TrimLeft_name_chars, FindAllString_name_chars.
  - apply TrimLeft_name_head.
Qed.

Lemma canonicalName_fixed (n : string) :
  canonicalName n -> NormalizeProjectName n = n.
Proof.
  intros [Hchars Hhead]. unfold NormalizeProjectName.
  rewrite (ToLower_name_chars _ Hchars), (FindAllString_id _ Hchars).
  destruct n as [|c rest]; [reflexivity |]. cbn [TrimLeft_name].
  by rewrite Hhead.
Qed.

(** X2: whatever the input, [NormalizeProjectName] returns a name in
    canonical form: only characters of [[a-z0-9_-]], none of them an upper
    case letter, and no leading [_] or [-]. *)
Theorem NormalizeProjectName_canonical (s : string) :
  canonicalName (NormalizeProjectName s).
Proof. apply NormalizeProjectName_result. Qed.

(** X3: the names [NormalizeProjectName] leaves as they are are exactly
    the names in canonical form; these are the names the check of
    [projectName] (l.524) lets through. *)
Theorem NormalizeProjectName_fixed_point (n : string) :
  NormalizeProjectName n = n <-> canonicalName n.
Proof.
  split.
  - intros <-. apply NormalizeProjectName_result.
  - apply canonicalName_fixed.
Qed.










(** ** [ApplyExtends]: what it leaves alone and what it never accepts *)

Section ExtendsFrame.
Context {MR : MapRange} {FP : FilePath} {I : Interp} {EE : ExtendsEnv}.
Variables (ctx : option string) (workingdir : string) (opts : Options.t)
          (post : list PostProcessor).

Lemma extendOne_inv services name s w services' w' :
  extendOne ctx workingdir opts post services (name, s) w = (Ok services', w') ->
  exists svc,
    s = TMap svc
    /\ match svc !! "extends" with
       | None => services' = services /\ w' = w
       | Some x =>
           (exists merged,
              services' = <[name := TMap (delete "extends" merged)]> services)
           /\ (forall ref, localRef s = Some ref -> is_Some (services !! ref))
       end.
Proof.
  unfold extendOne. intros E.
  apply bind_inv_Ok in E as (svc & w1 & Hs & E).
  destruct s; try discriminate. injection Hs as -> <-.
  exists svc. split; [reflexivity |]. cbn [localRef].
  destruct (svc !! "extends") as [x|] eqn:Hx.
  - apply bind_inv_Ok in E as (file_name & w2 & _ & E).
    apply bind_inv_Ok in E as (? & w3 & _ & E).
    apply bind_inv_Ok in E as (rf & w4 & Hrf & E).
    apply bind_inv_Ok in E as (base & w5 & Hbase & E).
    apply bind_inv_Ok in E as (source & w6 & _ & E).
    apply bind_inv_Ok in E as (merged & w7 & _ & E).
    injection E as <- <-. split; [eauto |].
    intros ref Href.
    assert (Hlocal : rf = (ref, TNull)).
    { destruct x; try (injection Href as <-; by injection Hrf as <-).
      apply bind_inv_Ok in Hrf as (r & w8 & Hr & Hrf).
      destruct (index m "service"); try discriminate Hr.
      injection Hr as <- <-. injection Hrf as <- <-.
      destruct (index m "file"); try discriminate Href.
      by injection Href as <-. }
    subst rf. cbn [fst snd resolveBase] in Hbase.
    destruct (services !! ref); [eauto | discriminate Hbase].
  - by injection E as <- <-.
Qed.

(** The loop, for a list of entries of the map it started from: the keys
    of the map stay the same, an entry without [extends] is not touched,
    and every reference to a base of the same file names a service. *)
Lemma extends_loop_frame (services0 : gmap string tree)
    (l : list (string * tree)) :
  NoDup l.*1 ->
  (forall k s, (k, s) ∈ l -> services0 !! k = Some s) ->
  forall services w services' w',
    dom services = dom services0 ->
    forM l services (extendOne ctx workingdir opts post) w
      = (Ok services', w') ->
    dom services' = dom services0
    /\ (forall k, k ∉ l.*1 -> services' !! k = services !! k)
    /\ (forall k s, (k, s) ∈ l -> extendsFree s ->
          services' !! k = services !! k)
    /\ (forall k s ref, (k, s) ∈ l -> localRef s = Some ref ->
          is_Some (services0 !! ref)).
Proof.
  induction l as [|[k0 s0] l IH]; intros Hnd Hl services w services' w' Hdom E.
  - injection E as <- <-. repeat split; try done;
      intros;
      match goal with H : _ ∈ [] |- _ => by apply elem_of_nil in H end.
  - cbn [forM] in E. apply bind_inv_Ok in E as (services1 & w1 & E1 & E).
    cbn [fmap list_fmap fst] in Hnd. apply NoDup_cons in Hnd as [Hk0 Hnd].
    apply extendOne_inv in E1 as (svc & -> & H1).
    assert (Hk0dom : k0 ∈ dom services).
    { rewrite Hdom. apply elem_of_dom. exists (TMap svc).
      apply Hl, list_elem_of_here. }
    assert (Hdom1 : dom services1 = dom services0).
    { destruct (svc !! "extends").
      - destruct H1 as [[merged ->] _]. rewrite dom_insert_L, <- Hdom.
        apply subseteq_union_1_L. by apply singleton_subseteq_l.
      - by destruct H1 as [-> _]. }
    assert (Hother : forall k, k <> k0 -> services1 !! k = services !! k).
    { intros k Hne. destruct (svc !! "extends").
      - destruct H1 as [[merged ->] _]. by rewrite lookup_insert_ne.
      - by destruct H1 as [-> _]. }
    destruct (IH Hnd (fun k s Hin => Hl k s (list_elem_of_further _ _ _ Hin))
                 _ _ _ _ Hdom1 E) as (IHdom & IHout & IHfree & IHref).
    split; [exact IHdom |]. split; [| split].
    + intros k Hk. cbn [fmap list_fmap fst] in Hk.
      apply not_elem_of_cons in Hk as [Hne Hk].
      rewrite IHout by assumption. by apply Hother.
    + intros k s Hin Hfree. apply elem_of_cons in Hin as [[= -> ->]|Hin].
      * rewrite (IHout _ Hk0). destruct Hfree as (m & [= <-] & Hm).
        rewrite Hm in H1. by destruct H1 as [-> _].
      * assert (Hne : k <> k0).
        { intros ->. apply Hk0. apply list_elem_of_fmap. by exists (k0, s). }
        rewrite (IHfree _ _ Hin Hfree). by apply Hother.
    + intros k s ref Hin Href. apply elem_of_cons in Hin as [[= -> ->]|Hin].
      * cbn [localRef] in Href.
        destruct (svc !! "extends") as [x|] eqn:Hx; [| discriminate Href].
        destruct H1 as [_ H1].
        assert (Hr : is_Some (services !! ref)).
        { apply H1. cbn [localRef]. by rewrite Hx. }
        apply elem_of_dom in Hr. rewrite Hdom in Hr. by apply elem_of_dom.
      * by apply (IHref k s).
Qed.

(** X7: when [ApplyExtends] returns without error, the tree differs from
    the one it was given in the [services] entry at most; the services
    have the names they had, and every service that had no [extends] key
    is the entry it was. *)
Theorem ApplyExtends_frame (dict : gmap string tree)
    (services : gmap string tree) (w : world)
    (dict' : gmap string tree) (w' : world) :
  ApplyExtends ctx dict workingdir opts post w = (Ok dict', w') ->
  dict !! "services" = Some (TMap services) ->
  exists services' : gmap string tree,
    dict' = <["services" := TMap services']> dict
    /\ dom services' = dom services
    /\ forall name entry,
         services !! name = Some entry -> extendsFree entry ->
         services' !! name = Some entry.
Proof.
  unfold ApplyExtends. intros E Hs. rewrite Hs in E.
  apply bind_inv_Ok in E as (? & w1 & [= <- <-] & E).
  apply bind_inv_Ok in E as (services' & w2 & Hloop & E).
  injection E as <- <-. exists services'. split; [reflexivity |].
  assert (Hnd : NoDup (range services).*1).
  { rewrite range_perm. apply NoDup_fst_map_to_list. }
  destruct (extends_loop_frame services (range services) Hnd
              (fun k s Hin => proj1 (elem_of_range services k s) Hin)
              _ _ _ _ eq_refl Hloop) as (Hdom & _ & Hfree & _).
  split; [exact Hdom |].
  intros name entry Hentry Hclean. rewrite <- Hentry.
  apply (Hfree name entry); [by apply elem_of_range | exact Hclean].
Qed.



End ExtendsFrame.

Lemma ApplyExtends_frame_witness :
  ApplyExtends (MR := key_order) (FP := sample_FilePath)
    (EE := sample_ExtendsEnv)
    (Some "compose.yaml") extends_local_dict "/work" (sample_Options []) []
    world0 = (Ok extends_local_result, extends_local_world)
  /\ extends_local_dict !! "services" = Some (TMap extends_local_services)
  /\ exists services' : gmap string tree,
       extends_local_result
       = <["services" := TMap services']> extends_local_dict
       /\ dom services' = dom extends_local_services
       /\ forall name entry,
            extends_local_services !! name = Some entry ->
            extendsFree entry ->
            services' !! name = Some entry.
Proof.
  assert (E : ApplyExtends (MR := key_order) (FP := sample_FilePath)
                (EE := sample_ExtendsEnv)
                (Some "compose.yaml") extends_local_dict "/work"
                (sample_Options []) [] world0
              = (Ok extends_local_result, extends_local_world))
    by (vm_compute; reflexivity).
  assert (S : extends_local_dict !! "services"
              = Some (TMap extends_local_services))
    by (vm_compute; reflexivity).
  split; [exact E |]. split; [exact S |].
  exact (ApplyExtends_frame (MR := key_order) (FP := sample_FilePath)
           (EE := sample_ExtendsEnv) (Some "compose.yaml") "/work"
           (sample_Options []) [] extends_local_dict extends_local_services
           world0 extends_local_result extends_local_world E S).
Defined.



(** ** [ApplyExtends]: the errors of one turn of the loop *)

Section ExtendsErrors.
Context {FP : FilePath} {I : Interp} {EE : ExtendsEnv}.
Variables (workingdir : string) (opts : Options.t).

Lemma loaders_all_reject (name ref path : string)
    (l : list (nat * ResourceLoader)) :
  Forall (fun il => Accept il.2 path = false) l ->
  forall base w,
    exists w',
      forM l base (tryLoader workingdir opts name ref path) w = (Ok base, w')
      /\ ct w' = ct w.
Proof.
  induction 1 as [|[i loader] l Hrej _ IH]; intros base w.
  - exists w. split; reflexivity.
  - cbn [snd] in Hrej. cbn [forM]. unfold bind at 1.
    unfold tryLoader at 1. unfold bind at 1. cbn [emit].
    rewrite Hrej. cbn [negb ret].
    destruct (IH base {| ct := ct w; trace := trace w ++ [EvAccept i path] |})
      as (w' & -> & Hct).
    exists w'. split; [reflexivity | exact Hct].
Qed.

(** X10: when no registered loader accepts the path of a file reference
    (in particular when none is registered), resolving the base fails
    with [cannot read <path>]; nothing is loaded and the cycle tracker is
    left as it was. *)
Theorem resolveBase_no_loader (services : gmap string tree)
    (name ref path : string) (w : world) :
  Forall (fun loader => Accept loader path = false)
         (Options.ResourceLoaders opts) ->
  exists w',
    resolveBase workingdir opts services name ref (TStr path) w
    = (Err ("cannot read " +:+ path), w')
    /\ ct w' = ct w
    /\ forall i, EvLoad i path ∈ trace w' -> EvLoad i path ∈ trace w.
Proof.
  intros Hrej.
  assert (Hl : Forall (fun il : nat * ResourceLoader => Accept il.2 path = false)
                      (indexed (Options.ResourceLoaders opts))).
  { apply Forall_forall. intros [i loader] Hin. cbn [snd].
    apply list_elem_of_lookup in Hin as [j Hj]. unfold indexed in Hj.
    rewrite list_lookup_imap in Hj.
    destruct (Options.ResourceLoaders opts !! j) as [l'|] eqn:El;
      [| discriminate Hj].
    injection Hj as _ <-. rewrite Forall_forall in Hrej. apply Hrej.
    apply list_elem_of_lookup. eauto. }
  destruct (loaders_all_reject name ref path _ Hl TNull w) as (w' & E & Hct).
  exists w'. split; [| split; [exact Hct |]].
  - cbn [resolveBase]. unfold bind at 1. cbn [assert_string ret].
    unfold bind. rewrite E. reflexivity.
  - intros i. apply loaders_loop_trace in E. rewrite E. intros Hin.
    apply elem_of_app in Hin as [?|Hin]; [done |]. exfalso.
    apply list_elem_of_bind in Hin as ([j loader] & Hcalls & Hin).
    rewrite Forall_forall in Hl. specialize (Hl _ Hin). cbn [snd] in Hl.
    unfold loaderCalls in Hcalls. cbn [fst snd] in Hcalls. rewrite Hl in Hcalls.
    apply list_elem_of_singleton in Hcalls. discriminate Hcalls.
Qed.

(** X11: a turn of the loop on a service that has an [extends] key and
    whose node is already tracked fails with the circular-reference chain
    before anything else is done: no loader is asked, and tracker and log
    are left as they were. *)
Theorem extendOne_tracked (post : list PostProcessor)
    (services svc : gmap string tree) (name file : string) (w : world) :
  is_Some (svc !! "extends") ->
  {| filename := file; service := name |} ∈ cycleTracker.loaded (ct w) ->
  extendOne (Some file) workingdir opts post services (name, TMap svc) w
  = (Err (Join ("Circular reference:"
                :: chainLines (cycleTracker.loaded (ct w)
                               ++ [ {| filename := file; service := name |} ]))
               LF),
     w).
Proof.
  intros [x Hx] Hin. unfold extendOne. unfold bind at 1.
  cbn [assert_map ret]. rewrite Hx. unfold bind at 1. cbn [ret].
  unfold bind at 1. unfold onTracker, cycleTracker.Add.
  rewrite existsb_serviceRef, bool_decide_eq_true_2 by exact Hin.
  unfold cycleTracker.errLines.
  destruct (cycleTracker.loaded (ct w)) as [|first rest] eqn:El.
  - by apply elem_of_nil in Hin.
  - destruct w as [[loaded] tr]. cbn in El. subst loaded. reflexivity.
Qed.

End ExtendsErrors.

Lemma resolveBase_no_loader_witness :
  Forall (fun loader => Accept loader "base.yaml" = false)
         (Options.ResourceLoaders (sample_Options []))
  /\ exists w',
       resolveBase (FP := sample_FilePath) (EE := sample_ExtendsEnv)
         "/work" (sample_Options []) extends_local_services "web" "base"
         (TStr "base.yaml") world0
       = (Err ("cannot read " +:+ "base.yaml"), w')
       /\ ct w' = ct world0
       /\ forall i, EvLoad i "base.yaml" ∈ trace w'
                    -> EvLoad i "base.yaml" ∈ trace world0.
Proof.
  assert (H : Forall (fun loader => Accept loader "base.yaml" = false)
                     (Options.ResourceLoaders (sample_Options [])))
    by constructor.
  split; [exact H |].
  exact (resolveBase_no_loader (FP := sample_FilePath)
           (EE := sample_ExtendsEnv) "/work" (sample_Options [])
           extends_local_services "web" "base" "base.yaml" world0 H).
Defined.

Lemma extendOne_tracked_witness :
  is_Some (({[ "extends" := TStr "base" ]} : gmap string tree) !! "extends")
  /\ {| filename := "compose.yaml"; service := "web" |}
     ∈ cycleTracker.loaded (ct extends_local_world)
  /\ extendOne (FP := sample_FilePath) (EE := sample_ExtendsEnv)
       (Some "compose.yaml") "/work" (sample_Options []) []
       extends_local_services
       ("web", TMap {[ "extends" := TStr "base" ]}) extends_local_world
     = (Err (Join ("Circular reference:"
                   :: chainLines
                        (cycleTracker.loaded (ct extends_local_world)
                         ++ [ {| filename := "compose.yaml";
                                 service := "web" |} ]))
                  LF),
        extends_local_world).
Proof.
  assert (H1 : is_Some (({[ "extends" := TStr "base" ]} : gmap string tree)
                          !! "extends"))
    by (rewrite lookup_singleton_eq; eauto).
  assert (H2 : {| filename := "compose.yaml"; service := "web" |}
               ∈ cycleTracker.loaded (ct extends_local_world))
    by apply list_elem_of_here.
  split; [exact H1 |]. split; [exact H2 |].
  exact (extendOne_tracked (FP := sample_FilePath) (EE := sample_ExtendsEnv)
           "/work" (sample_Options []) [] extends_local_services
           {[ "extends" := TStr "base" ]} "web" "compose.yaml"
           extends_local_world H1 H2).
Defined.

(** ** [transformPorts]: composition *)

Section PortsMore.
Context {P : Ports}.

Lemma transformPorts_None_inv (data out : tree) (p : Path) :
  transformPorts data p = (out, None) ->
  exists entries groups,
    data = TSeq entries
    /\ mapM expandEntry entries = Some groups
    /\ out = TSeq (concat groups).
Proof.
  destruct data as [| | | | | entries |]; cbn [transformPorts];
    try discriminate.
  intros H. pose proof (portsLoop_expand (TSeq entries) entries []) as E.
  destruct (mapM expandEntry entries) as [groups|] eqn:Hg.
  - rewrite E in H. injection H as <-. exists entries, groups.
    split; [reflexivity | split; [exact Hg | reflexivity]].
  - destruct E as [err E]. rewrite H in E. discriminate E.
Qed.

Lemma expandEntry_all_maps (entries : list tree) :
  Forall (fun t => is_map t = true) entries ->
  mapM expandEntry entries = Some ((fun t => [t]) <$> entries).
Proof.
  induction 1 as [|entry rest Hm _ IH]; [reflexivity |].
  cbn [mapM]. rewrite IH. destruct entry; try discriminate Hm. reflexivity.
Qed.

Lemma concat_singletons (l : list tree) : concat ((fun t => [t]) <$> l) = l.
Proof. induction l as [|t l IH]; [reflexivity |]. cbn. by rewrite IH. Qed.

Lemma mapM_expandEntry_maps (entries : list tree) (groups : list (list tree)) :
  mapM expandEntry entries = Some groups ->
  Forall (fun t => is_map t = true) (concat groups).
Proof.
  revert groups. induction entries as [|entry rest IH]; intros groups; cbn.
  - intros [= <-]. constructor.
  - destruct (expandEntry entry) as [ms|] eqn:Em; cbn; [| discriminate].
    destruct (mapM expandEntry rest) as [groups'|]; cbn; [| discriminate].
    intros [= <-]. cbn. apply Forall_app. split.
    + by apply expandEntry_maps in Em.
    + by apply IH.
Qed.

Lemma mapM_expandEntry_app (l1 l2 : list tree) (g1 g2 : list (list tree)) :
  mapM expandEntry l1 = Some g1 -> mapM expandEntry l2 = Some g2 ->
  mapM expandEntry (l1 ++ l2) = Some (g1 ++ g2).
Proof.
  revert g1. induction l1 as [|entry rest IH]; intros g1; cbn.
  - intros [= <-] H2. exact H2.
  - destruct (expandEntry entry) as [ms|]; cbn; [| discriminate].
    destruct (mapM expandEntry rest) as [g1'|]; cbn; [| discriminate].
    intros [= <-] H2. by rewrite (IH g1' eq_refl H2).
Qed.

(** X12: [transformPorts] is idempotent: what it returns without error it
    accepts again, at any path, and returns unchanged. *)
Theorem transformPorts_idempotent (data out : tree) (p p' : Path) :
  transformPorts data p = (out, None) ->
  transformPorts out p' = (out, None).
Proof.
  intros H. apply transformPorts_None_inv in H
    as (entries & groups & -> & Hg & ->).
  apply mapM_expandEntry_maps, expandEntry_all_maps in Hg.
  cbn [transformPorts].
  pose proof (portsLoop_expand (TSeq (concat groups)) (concat groups) []) as E.
  rewrite Hg in E. rewrite E, concat_singletons. reflexivity.
Qed.

(** X13: [transformPorts] works entry by entry: when it accepts two
    sequences it accepts their concatenation, and the result is the
    concatenation of the two results. *)
Theorem transformPorts_app (l1 l2 : list tree) (r1 r2 : tree) (p : Path) :
  transformPorts (TSeq l1) p = (r1, None) ->
  transformPorts (TSeq l2) p = (r2, None) ->
  exists o1 o2,
    r1 = TSeq o1 /\ r2 = TSeq o2
    /\ transformPorts (TSeq (l1 ++ l2)) p = (TSeq (o1 ++ o2), None).
Proof.
  intros H1 H2.
  apply transformPorts_None_inv in H1 as (e1 & g1 & [= <-] & Hg1 & ->).
  apply transformPorts_None_inv in H2 as (e2 & g2 & [= <-] & Hg2 & ->).
  exists (concat g1), (concat g2). split; [reflexivity |].
  split; [reflexivity |]. cbn [transformPorts].
  pose proof (portsLoop_expand (TSeq (l1 ++ l2)) (l1 ++ l2) []) as E.
  rewrite (mapM_expandEntry_app _ _ _ _ Hg1 Hg2) in E.
  rewrite E, concat_app. reflexivity.
Qed.

(** X14: an entry that is refused makes the whole call fail, wherever it
    stands: when [transformPorts] refuses a sequence, it refuses every
    sequence that contains it as a segment. *)
Theorem transformPorts_error_propagates (pre l post : list tree) (p : Path)
    (err : string) :
  (transformPorts (TSeq l) p).2 = Some err ->
  exists err', (transformPorts (TSeq (pre ++ l ++ post)) p).2 = Some err'.
Proof.
  intros H. cbn [transformPorts] in *.
  pose proof (portsLoop_expand (TSeq (pre ++ l ++ post)) (pre ++ l ++ post) [])
    as E.
  destruct (mapM expandEntry (pre ++ l ++ post)) as [groups|] eqn:Eg;
    [| exact E].
  exfalso. clear E.
  assert (Hl : exists g, mapM expandEntry l = Some g).
  { apply mapM_Some in Eg.
    apply Forall2_app_inv_l in Eg as (g1 & g23 & _ & Eg & _).
    apply Forall2_app_inv_l in Eg as (g2 & g3 & Eg & _ & _).
    exists g2. by apply mapM_Some. }
  destruct Hl as [g Hl].
  pose proof (portsLoop_expand (TSeq l) l []) as E. rewrite Hl in E.
  rewrite E in H. discriminate H.
Qed.

End PortsMore.

Lemma transformPorts_idempotent_witness :
  transformPorts (P := sample_Ports) ports_mixed NewPath
  = (ports_mixed_long, None)
  /\ transformPorts (P := sample_Ports) ports_mixed_long ["services"; "web"]
     = (ports_mixed_long, None).
Proof.
  assert (H : transformPorts (P := sample_Ports) ports_mixed NewPath
              = (ports_mixed_long, None)) by (vm_compute; reflexivity).
  split; [exact H |].
  exact (transformPorts_idempotent (P := sample_Ports) ports_mixed
           ports_mixed_long NewPath ["services"; "web"] H).
Defined.

Lemma transformPorts_app_witness :
  transformPorts (P := sample_Ports) (TSeq [TInt 80]) NewPath
  = (TSeq [port_80], None)
  /\ transformPorts (P := sample_Ports)
       (TSeq [TMap {[ "target" := TInt 443 ]}; TStr "80"]) NewPath
     = (TSeq [TMap {[ "target" := TInt 443 ]}; port_80], None)
  /\ exists o1 o2,
       TSeq [port_80] = TSeq o1
       /\ TSeq [TMap {[ "target" := TInt 443 ]}; port_80] = TSeq o2
       /\ transformPorts (P := sample_Ports)
            (TSeq ([TInt 80] ++ [TMap {[ "target" := TInt 443 ]}; TStr "80"]))
            NewPath
          = (TSeq (o1 ++ o2), None).
Proof.
  assert (H1 : transformPorts (P := sample_Ports) (TSeq [TInt 80]) NewPath
               = (TSeq [port_80], None)) by (vm_compute; reflexivity).
  assert (H2 : transformPorts (P := sample_Ports)
                 (TSeq [TMap {[ "target" := TInt 443 ]}; TStr "80"]) NewPath
               = (TSeq [TMap {[ "target" := TInt 443 ]}; port_80], None))
    by (vm_compute; reflexivity).
  split; [exact H1 |]. split; [exact H2 |].
  exact (transformPorts_app (P := sample_Ports) _ _ _ _ NewPath H1 H2).
Defined.

Lemma transformPorts_error_propagates_witness :
  (transformPorts (P := sample_Ports) (TSeq [TStr "eighty"]) NewPath).2
  = Some "invalid containerPort: eighty"
  /\ exists err',
       (transformPorts (P := sample_Ports)
          (TSeq ([TInt 80] ++ [TStr "eighty"] ++ [TStr "80"])) NewPath).2
       = Some err'.
Proof.
  assert (H : (transformPorts (P := sample_Ports) (TSeq [TStr "eighty"])
                 NewPath).2
              = Some "invalid containerPort: eighty")
    by (vm_compute; reflexivity).
  split; [exact H |].
  exact (transformPorts_error_propagates (P := sample_Ports)
           [TInt 80] [TStr "eighty"] [TStr "80"] NewPath _ H).
Defined.

(** ** [convertIntoSequence]: the order of the map does not show *)

Lemma String_compare_trans (a : string) :
  forall b c,
    String.compare a b <> Gt -> String.compare b c <> Gt ->
    String.compare a c <> Gt.
Proof.
  induction a as [|x a IH]; intros [|y b] [|z c]; cbn; try congruence.
  unfold Ascii.compare.
  destruct (N.compare_spec (N_of_ascii x) (N_of_ascii y)) as [Exy|Lxy|Gxy];
    destruct (N.compare_spec (N_of_ascii y) (N_of_ascii z)) as [Eyz|Lyz|Gyz];
    try congruence.
  - rewrite Exy, Eyz, N.compare_refl. apply IH.
  - intros _ _. rewrite Exy. by rewrite (proj2 (N.compare_lt_iff _ _) Lyz).
  - intros _ _. rewrite <- Eyz. by rewrite (proj2 (N.compare_lt_iff _ _) Lxy).
  - intros _ _.
    by rewrite (proj2 (N.compare_lt_iff _ _) (N.lt_trans _ _ _ Lxy Lyz)).
Qed.

Lemma string_le_trans : Transitive string_le.
Proof.
  intros a b c. unfold string_le, String.leb. intros Hab Hbc.
  pose proof (String_compare_trans a b c) as H.
  destruct (String.compare a b); destruct (String.compare b c);
    try discriminate; destruct (String.compare a c); try reflexivity;
    exfalso; apply H; congruence.
Qed.

Lemma string_le_antisym : AntiSymm eq string_le.
Proof. intros a b. apply String.leb_antisym. Qed.

Lemma merge_sort_string_perm (l1 l2 : list string) :
  l1 ≡ₚ l2 ->
  merge_sort string_le (H := string_le_dec) l1
  = merge_sort string_le (H := string_le_dec) l2.
Proof.
  intros Hp.
  apply (@Sorted_unique _ string_le string_le_trans string_le_antisym).
  - apply (@Sorted_merge_sort _ string_le string_le_dec string_le_total).
  - apply (@Sorted_merge_sort _ string_le string_le_dec string_le_total).
  - by rewrite !merge_sort_Permutation.
Qed.

(** X15: the sequence [convertIntoSequence] makes of a mapping does not
    depend on the order in which Go visits the mapping: any two
    enumerations of the entries give the same outcome. *)
Theorem convertIntoSequence_order_free (MR1 MR2 : MapRange) {F : Fmt}
    (v : val) (s : store) :
  convertIntoSequence (MR := MR1) v s = convertIntoSequence (MR := MR2) v s.
Proof.
  destruct v; try reflexivity. cbn [convertIntoSequence].
  unfold bind, loadMap, get. destruct (s !! r) as [m|]; [| reflexivity].
  cbn [ret].
  rewrite (merge_sort_string_perm
             (envItem s <$> range (MapRange := MR1) m)
             (envItem s <$> range (MapRange := MR2) m)); [reflexivity |].
  apply fmap_Permutation.
  by rewrite (range_perm (MapRange := MR1)), (range_perm (MapRange := MR2)).
Qed.

(** ** The merge engine works in place *)

Lemma keepsKeys_refl (s : store) : keepsKeys s s.
Proof. split; [reflexivity |]. intros r m Hm. exists m. by split. Qed.

Lemma keepsKeys_trans (s1 s2 s3 : store) :
  keepsKeys s1 s2 -> keepsKeys s2 s3 -> keepsKeys s1 s3.
Proof.
  intros [L12 K12] [L23 K23]. split; [congruence |].
  intros r m Hm. destruct (K12 r m Hm) as (m2 & Hm2 & D2).
  destruct (K23 r m2 Hm2) as (m3 & Hm3 & D3).
  exists m3. split; [exact Hm3 | by etrans].
Qed.

Lemma assignsOnly_pure {A} (c : M store A) :
  (forall s, (c s).2 = s) -> assignsOnly c.
Proof.
  intros H s r s' E. specialize (H s). rewrite E in H. cbn in H. subst s'.
  apply keepsKeys_refl.
Qed.

Lemma assignsOnly_bind {A B} (c : M store A) (k : A -> M store B) :
  assignsOnly c -> (forall a, assignsOnly (k a)) -> assignsOnly (bind c k).
Proof.
  intros Hc Hk s r s'. unfold bind. destruct (c s) as [[a|e|e] s1] eqn:E.
  - intros E2. eapply keepsKeys_trans; [by eapply Hc | by eapply Hk].
  - intros [= <- <-]. by eapply Hc.
  - intros [= <- <-]. by eapply Hc.
Qed.

Lemma assignsOnly_forM {A B} (l : list A) (body : B -> A -> M store B) :
  (forall acc x, x ∈ l -> assignsOnly (body acc x)) ->
  forall acc, assignsOnly (forM l acc body).
Proof.
  induction l as [|x l IH]; intros Hbody acc; cbn [forM].
  - by apply assignsOnly_pure.
  - apply assignsOnly_bind.
    + apply Hbody. apply list_elem_of_here.
    + intros acc'. apply IH. intros acc'' y Hy. apply Hbody.
      by apply list_elem_of_further.
Qed.

Lemma assignsOnly_loadMap (r : loc) : assignsOnly (loadMap r).
Proof.
  apply assignsOnly_pure. intros s. unfold loadMap. by destruct (s !! r).
Qed.

Lemma assignsOnly_setKey (mapping : loc) (k : string) (v : val) :
  assignsOnly (setKey mapping k v).
Proof.
  intros s r s'. unfold setKey. destruct (s !! mapping) as [m|] eqn:Hm.
  - intros [= _ <-]. split; [apply length_insert |].
    intros r' m' Hr'. destruct (decide (r' = mapping)) as [->|Hne].
    + exists (<[k := v]> m). split.
      * apply list_lookup_insert_eq. by eapply lookup_lt_Some.
      * rewrite Hm in Hr'. injection Hr' as <-. rewrite dom_insert.
        apply union_subseteq_r.
    + exists m'. split; [| done].
      etrans; [apply list_lookup_insert_ne; congruence | exact Hr'].
  - intros [= _ <-]. apply keepsKeys_refl.
Qed.

Lemma assignsOnly_iface_eq (a b : val) : assignsOnly (iface_eq a b).
Proof. apply assignsOnly_pure. intros s. by destruct a, b. Qed.

Lemma assignsOnly_convertIntoSequence {MR : MapRange} {F : Fmt} (v : val) :
  assignsOnly (convertIntoSequence v).
Proof.
  apply assignsOnly_pure. intros s. destruct v; try reflexivity.
  cbn [convertIntoSequence]. unfold bind, loadMap, get.
  by destruct (s !! r).
Qed.

Section InPlace.
Context {MR : MapRange} {F : Fmt}.
Variable rec : val -> val -> Path -> M store val.
Hypothesis rec_assignsOnly : forall e o p, assignsOnly (rec e o p).

Lemma assignsOnly_mergeMappings_with (mapping other : loc) (p : Path) :
  assignsOnly (mergeMappings_with rec mapping other p).
Proof.
  unfold mergeMappings_with. apply assignsOnly_bind.
  - apply assignsOnly_loadMap.
  - intros entries. apply assignsOnly_bind.
    + apply assignsOnly_forM. intros [] [k v] _.
      apply assignsOnly_bind; [apply assignsOnly_loadMap |].
      intros m. destruct (m !! k) as [e|]; [| apply assignsOnly_setKey].
      destruct (HasPrefix k "x-"); [apply assignsOnly_setKey |].
      apply assignsOnly_bind; [apply rec_assignsOnly |].
      intros merged. apply assignsOnly_setKey.
    + intros _. by apply assignsOnly_pure.
Qed.

Lemma assignsOnly_mergeYaml_with (e o : val) (p : Path) :
  assignsOnly (mergeYaml_with rec e o p).
Proof.
  unfold mergeYaml_with. destruct (findSpecial p) as [[]|]; cbn [applyMerger].
  - unfold mergeLogging_with.
    destruct e; try (by apply assignsOnly_pure).
    destruct o; try (by apply assignsOnly_pure).
    apply assignsOnly_bind; [apply assignsOnly_loadMap |]. intros om.
    apply assignsOnly_bind; [apply assignsOnly_loadMap |]. intros cm.
    apply assignsOnly_bind; [apply assignsOnly_iface_eq |]. intros same.
    destruct (same || _ || _).
    + apply assignsOnly_mergeMappings_with.
    + by apply assignsOnly_pure.
  - by apply assignsOnly_pure.
  - unfold mergeEnvironment.
    apply assignsOnly_bind; [apply assignsOnly_convertIntoSequence |].
    intros right.
    apply assignsOnly_bind; [apply assignsOnly_convertIntoSequence |].
    intros left. by apply assignsOnly_pure.
  - unfold mergeUlimit_with. destruct o; try (by apply assignsOnly_pure).
    apply assignsOnly_mergeMappings_with.
  - destruct e; try (by apply assignsOnly_pure).
    + destruct o; by apply assignsOnly_pure.
    + destruct o; try (by apply assignsOnly_pure).
      apply assignsOnly_mergeMappings_with.
Qed.

End InPlace.

Lemma assignsOnly_mergeYaml {MR : MapRange} {F : Fmt} (fuel : nat) :
  forall e o p, assignsOnly (mergeYaml fuel e o p).
Proof.
  induction fuel as [|fuel IH]; intros e o p; cbn [mergeYaml].
  - by apply assignsOnly_pure.
  - by apply assignsOnly_mergeYaml_with.
Qed.

(** X16: [Merge] works in place.  Whatever the two documents and whatever
    the outcome, no map is created or dropped and no map loses a key; and
    a successful merge returns the accumulator it was given, not a new
    map. *)
Theorem Merge_in_place {MR : MapRange} {F : Fmt} (fuel : nat)
    (right left : loc) (s s' : store) (r : result loc) :
  Merge fuel right left s = (r, s') ->
  (forall merged, r = Ok merged -> merged = right)
  /\ length s' = length s
  /\ forall (l : loc) (m : gmap string val),
       s !! l = Some m ->
       exists m', s' !! l = Some m' /\ dom m ⊆ dom m'.
Proof.
  intros E. split.
  - intros merged ->. unfold Merge, bind in E.
    destruct fuel as [|fuel]; [discriminate E |].
    cbn [mergeYaml] in E. unfold mergeYaml_with in E.
    change (findSpecial NewPath) with (@None merger) in E.
    unfold mergeMappings_with, bind in E.
    destruct (loadMap left s) as [[entries|?|?] s1]; try discriminate E.
    destruct (forM _ _ _ s1) as [[[]|?|?] s2]; try discriminate E.
    cbn [ret] in E. by injection E as <- _.
  - apply (assignsOnly_bind _ _ (assignsOnly_mergeYaml fuel _ _ _)) in E;
      [exact E |].
    intros merged. destruct merged; by apply assignsOnly_pure.
Qed.

(** ** Merging mappings without nested collections *)

Lemma findSpecial_top (k : string) : findSpecial (Next NewPath k) = None.
Proof.
  unfold findSpecial, mergeSpecials, Next, NewPath.
  cbn [app find fst Matches]. by rewrite !andb_false_r.
Qed.

Lemma list_to_map_range {MR : MapRange} {A} (m : gmap string A) :
  list_to_map (range m) = m.
Proof.
  rewrite <- (list_to_map_to_list m) at 2.
  apply list_to_map_proper; [| apply range_perm].
  rewrite range_perm. apply NoDup_fst_map_to_list.
Qed.

Lemma NoDup_fst_range {MR : MapRange} {A} (m : gmap string A) :
  NoDup (range m).*1.
Proof. rewrite range_perm. apply NoDup_fst_map_to_list. Qed.

Lemma store_insert_id (s : store) (r : loc) (m : gmap string val) :
  s !! r = Some m -> <[r := m]> s = s.
Proof. apply list_insert_id. Qed.

Lemma store_insert_insert (s : store) (r : loc) (m m' : gmap string val) :
  <[r := m]> (<[r := m']> s) = <[r := m]> s.
Proof. apply list_insert_insert_eq. Qed.

Lemma forM_cons_Ok {S A B} (x : A) (l : list A) (acc acc1 : B)
    (body : B -> A -> M S B) (s s1 : S) :
  body acc x s = (Ok acc1, s1) ->
  forM (x :: l) acc body s = forM l acc1 body s1.
Proof. intros H. cbn [forM]. unfold bind. by rewrite H. Qed.

Section Flat.
Context {MR : MapRange} {F : Fmt}.
Variable rec : val -> val -> Path -> M store val.
Variables (mapping : loc) (p : Path).

Lemma flat_loop (l : list (string * val)) :
  forall (cur : gmap string val) (s : store),
    NoDup l.*1 ->
    s !! mapping = Some cur ->
    (forall k v, (k, v) ∈ l -> plainKey rec p cur k) ->
    forM l tt
      (fun _ kv =>
         let '(k, v) := kv in
         let* m := loadMap mapping in
         match m !! k with
         | Some e =>
             if HasPrefix k "x-" then setKey mapping k v
             else
               let next := Next p k in
               let* merged := rec e v next in
               setKey mapping k merged
         | None => setKey mapping k v
         end) s
    = (Ok tt, <[mapping := list_to_map l ∪ cur]> s).
Proof.
  induction l as [|[k v] l IH]; intros cur s Hnd Hs Hplain.
  - cbn [forM ret]. rewrite list_to_map_nil, (left_id_L ∅ (∪)).
    by rewrite store_insert_id.
  - cbn [fmap list_fmap fst] in Hnd. apply NoDup_cons in Hnd as [Hk Hnd].
    assert (Hstep :
      (let* m := loadMap mapping in
       match m !! k with
       | Some e =>
           if HasPrefix k "x-" then setKey mapping k v
           else
             let next := Next p k in
             let* merged := rec e v next in
             setKey mapping k merged
       | None => setKey mapping k v
       end) s = (Ok tt, <[mapping := <[k := v]> cur]> s)).
    { unfold bind at 1. unfold loadMap. rewrite Hs.
      assert (Hset : setKey mapping k v s
                     = (Ok tt, <[mapping := <[k := v]> cur]> s))
        by (unfold setKey; by rewrite Hs).
      destruct (cur !! k) as [e|] eqn:Ee; [| exact Hset].
      destruct (HasPrefix k "x-") eqn:Ex; [exact Hset |].
      destruct (Hplain k v (list_elem_of_here _ _) e Ee) as [Hx|Hrec];
        [congruence |].
      unfold bind. by rewrite Hrec. }
    erewrite forM_cons_Ok; [| exact Hstep].
    rewrite (IH (<[k := v]> cur)); [| exact Hnd | |].
    + rewrite store_insert_insert, list_to_map_cons.
      rewrite <- insert_union_l, <- insert_union_r; [reflexivity |].
      by apply not_elem_of_list_to_map_1.
    + apply list_lookup_insert_eq. by eapply lookup_lt_Some.
    + intros k' v' Hin e. rewrite lookup_insert_ne.
      * apply (Hplain k' v'). by apply list_elem_of_further.
      * intros <-. apply Hk. apply list_elem_of_fmap.
        exists (k, v'). by split.
Qed.

Lemma mergeMappings_with_flat (other : loc) (s : store)
    (m om : gmap string val) :
  s !! mapping = Some m -> s !! other = Some om ->
  (forall k v, om !! k = Some v -> plainKey rec p m k) ->
  mergeMappings_with rec mapping other p s
  = (Ok (VMap mapping), <[mapping := om ∪ m]> s).
Proof.
  intros Hm Hom Hplain. unfold mergeMappings_with. unfold bind at 1.
  unfold loadMap at 1. rewrite Hom. unfold bind at 1.
  rewrite (flat_loop (range om) m s (NoDup_fst_range om) Hm).
  - by rewrite list_to_map_range.
  - intros k v Hin. apply (Hplain k v).
    apply elem_of_map_to_list. by rewrite <- (range_perm _ om).
Qed.

End Flat.

Lemma mergeYaml_scalar {MR : MapRange} {F : Fmt} (fuel : nat) (e v : val)
    (p : Path) (s : store) :
  is_scalar e = true -> findSpecial p = None ->
  mergeYaml (S fuel) e v p s = (Ok v, s).
Proof.
  intros He Hp. cbn [mergeYaml]. unfold mergeYaml_with. rewrite Hp.
  by destruct e.
Qed.

(** X17: [mergeMappings] on mappings without nested collections is the
    union in which the override wins.  When every key the two mappings
    share is an extension key ([x-] prefix) or holds a scalar in the base
    at a path without special rule, the base becomes the override's
    entries over its own, and nothing else in the store changes. *)
Theorem mergeMappings_flat {MR : MapRange} {F : Fmt} (fuel : nat)
    (mapping other : loc) (p : Path) (s : store) (m om : gmap string val) :
  s !! mapping = Some m -> s !! other = Some om ->
  (forall k v e, om !! k = Some v -> m !! k = Some e ->
     HasPrefix k "x-" = true
     \/ (is_scalar e = true /\ findSpecial (Next p k) = None)) ->
  mergeMappings (S fuel) mapping other p s
  = (Ok (VMap mapping), <[mapping := om ∪ m]> s).
Proof.
  intros Hm Hom Hflat. unfold mergeMappings.
  apply mergeMappings_with_flat; [exact Hm | exact Hom |].
  intros k v Hv e He. destruct (Hflat k v e Hv He) as [Hx|[Hs Hp]];
    [by left | right].
  intros v' s'. by apply mergeYaml_scalar.
Qed.

(** X18: at the top level of two documents no special rule applies:
    [Merge] of an override whose keys are new to the accumulator, are
    extension keys, or hold a scalar there, leaves in the accumulator the
    override's entries over its own; the override is not changed. *)
Theorem Merge_flat {MR : MapRange} {F : Fmt} (fuel : nat)
    (right left : loc) (s : store) (m om : gmap string val) :
  s !! right = Some m -> s !! left = Some om ->
  (forall k v e, om !! k = Some v -> m !! k = Some e ->
     HasPrefix k "x-" = true \/ is_scalar e = true) ->
  Merge (S (S fuel)) right left s = (Ok right, <[right := om ∪ m]> s).
Proof.
  intros Hm Hom Hflat.
  unfold Merge. unfold bind at 1. cbn [mergeYaml].
  unfold mergeYaml_with at 1.
  change (findSpecial NewPath) with (@None merger). cbv iota.
  rewrite (mergeMappings_with_flat _ right NewPath left s m om Hm Hom);
    [reflexivity |].
  intros k v Hv e He. destruct (Hflat k v e Hv He) as [Hx|Hs];
    [by left | right].
  intros v' s'. apply (mergeYaml_scalar fuel); [exact Hs |].
  apply findSpecial_top.
Qed.

(** X19: the empty document is neutral for [Merge].  Merging an empty
    override changes nothing, and merging into an empty accumulator makes
    it a copy of the override's top level, whatever the override holds
    (nested mappings are shared with the override, not copied). *)
Theorem Merge_empty {MR : MapRange} {F : Fmt} (fuel : nat)
    (right left : loc) (s : store) (m om : gmap string val) :
  s !! right = Some m -> s !! left = Some om ->
  m = ∅ \/ om = ∅ ->
  Merge (S fuel) right left s
  = (Ok right, if decide (om = ∅) then s else <[right := om]> s).
Proof.
  intros Hm Hom Hempty.
  assert (E : Merge (S fuel) right left s
              = (Ok right, <[right := om ∪ m]> s)).
  { unfold Merge. unfold bind at 1. cbn [mergeYaml].
    unfold mergeYaml_with at 1.
    change (findSpecial NewPath) with (@None merger). cbv iota.
    rewrite (mergeMappings_with_flat _ right NewPath left s m om Hm Hom);
      [reflexivity |].
    intros k v Hv e He. destruct Hempty as [-> | ->].
    - by rewrite lookup_empty in He.
    - by rewrite lookup_empty in Hv. }
  rewrite E. destruct (decide (om = ∅)) as [-> | Hne].
  - rewrite (left_id_L ∅ (∪)). by rewrite store_insert_id.
  - destruct Hempty as [-> | ->]; [| done]. by rewrite (right_id_L ∅ (∪)).
Qed.

Lemma Merge_in_place_witness :
  Merge (MR := key_order) (F := sample_Fmt) 2 0 1 flat_store
  = (Ok 0, [flat_override; flat_override])
  /\ (forall merged, Ok 0 = Ok merged -> merged = 0)
  /\ length [flat_override; flat_override] = length flat_store
  /\ forall (l : loc) (m : gmap string val),
       flat_store !! l = Some m ->
       exists m', [flat_override; flat_override] !! l = Some m'
                  /\ dom m ⊆ dom m'.
Proof.
  assert (H : Merge (MR := key_order) (F := sample_Fmt) 2 0 1 flat_store
              = (Ok 0, [flat_override; flat_override]))
    by (vm_compute; reflexivity).
  split; [exact H |].
  exact (Merge_in_place (MR := key_order) (F := sample_Fmt) 2 0 1 flat_store
           [flat_override; flat_override] (Ok 0) H).
Defined.

Lemma mergeMappings_flat_witness :
  service_store !! 0 = Some service_base
  /\ service_store !! 1 = Some service_override
  /\ (forall k v e,
        service_override !! k = Some v -> service_base !! k = Some e ->
        HasPrefix k "x-" = true
        \/ (is_scalar e = true
            /\ findSpecial (Next ["services"; "web"] k) = None))
  /\ mergeMappings (MR := key_order) (F := sample_Fmt) 1 0 1
       ["services"; "web"] service_store
     = (Ok (VMap 0),
        <[0 := service_override ∪ service_base]> service_store).
Proof.
  assert (H : forall k v e,
            service_override !! k = Some v -> service_base !! k = Some e ->
            HasPrefix k "x-" = true
            \/ (is_scalar e = true
                /\ findSpecial (Next ["services"; "web"] k) = None)).
  { intros k v e _ He. unfold service_base in He.
    apply lookup_singleton_Some in He as [<- <-]. right. split; reflexivity. }
  split; [reflexivity |]. split; [reflexivity |]. split; [exact H |].
  exact (mergeMappings_flat (MR := key_order) (F := sample_Fmt) 0 0 1
           ["services"; "web"] service_store service_base service_override
           eq_refl eq_refl H).
Defined.

Lemma Merge_flat_witness :
  flat_store !! 0 = Some flat_base
  /\ flat_store !! 1 = Some flat_override
  /\ (forall k v e,
        flat_override !! k = Some v -> flat_base !! k = Some e ->
        HasPrefix k "x-" = true \/ is_scalar e = true)
  /\ Merge (MR := key_order) (F := sample_Fmt) 2 0 1 flat_store
     = (Ok 0, <[0 := flat_override ∪ flat_base]> flat_store).
Proof.
  assert (H : forall k v e,
            flat_override !! k = Some v -> flat_base !! k = Some e ->
            HasPrefix k "x-" = true \/ is_scalar e = true).
  { intros k v e _ He. unfold flat_base in He.
    apply lookup_singleton_Some in He as [<- <-]. right. reflexivity. }
  split; [reflexivity |]. split; [reflexivity |]. split; [exact H |].
  exact (Merge_flat (MR := key_order) (F := sample_Fmt) 0 0 1 flat_store
           flat_base flat_override eq_refl eq_refl H).
Defined.

Lemma Merge_empty_witness :
  [∅; service_override] !! 0 = Some (∅ : gmap string val)
  /\ [∅; service_override] !! 1 = Some service_override
  /\ ((∅ : gmap string val) = ∅ \/ service_override = ∅)
  /\ Merge (MR := key_order) (F := sample_Fmt) 1 0 1 [∅; service_override]
     = (Ok 0, if decide (service_override = ∅) then [∅; service_override]
              else <[0 := service_override]> [∅; service_override]).
Proof.
  split; [reflexivity |]. split; [reflexivity |].
  split; [left; reflexivity |].
  exact (Merge_empty (MR := key_order) (F := sample_Fmt) 0 0 1
           [∅; service_override] ∅ service_override eq_refl eq_refl
           (or_introl eq_refl)).
Defined.

(** ** The errors of the merge engine *)

Lemma errsIn_never {A} (Q : string -> Prop) (c : M store A) :
  (forall s msg, (c s).1 <> Err msg) -> errsIn Q c.
Proof. intros H s msg s' E. exfalso. apply (H s msg). by rewrite E. Qed.

Lemma errsIn_bind {A B} (Q : string -> Prop) (c : M store A)
    (k : A -> M store B) :
  errsIn Q c -> (forall a, errsIn Q (k a)) -> errsIn Q (bind c k).
Proof.
  intros Hc Hk s msg s'. unfold bind. destruct (c s) as [[a|e|e] s1] eqn:E.
  - apply Hk.
  - intros [= <- <-]. by eapply Hc.
  - discriminate.
Qed.

Lemma errsIn_forM {A B} (Q : string -> Prop) (l : list A)
    (body : B -> A -> M store B) :
  (forall acc x, errsIn Q (body acc x)) ->
  forall acc, errsIn Q (forM l acc body).
Proof.
  intros Hbody. induction l as [|x l IH]; intros acc; cbn [forM].
  - by apply errsIn_never.
  - apply errsIn_bind; [apply Hbody | exact IH].
Qed.

Lemma errsIn_loadMap (Q : string -> Prop) (r : loc) : errsIn Q (loadMap r).
Proof.
  apply errsIn_never. intros s msg. unfold loadMap. by destruct (s !! r).
Qed.

Lemma errsIn_setKey (Q : string -> Prop) (mapping : loc) (k : string)
    (v : val) :
  errsIn Q (setKey mapping k v).
Proof.
  apply errsIn_never. intros s msg. unfold setKey. by destruct (s !! mapping).
Qed.

Lemma errsIn_iface_eq (Q : string -> Prop) (a b : val) :
  errsIn Q (iface_eq (S := store) a b).
Proof. apply errsIn_never. intros s msg. by destruct a, b. Qed.

Lemma errsIn_convertIntoSequence {MR : MapRange} {F : Fmt}
    (Q : string -> Prop) (v : val) :
  errsIn Q (convertIntoSequence v).
Proof.
  apply errsIn_never. intros s msg. destruct v; try done.
  cbn [convertIntoSequence]. unfold bind, loadMap, get. by destruct (s !! r).
Qed.

Lemma mismatchAt_Next (p : Path) (k msg : string) :
  mismatchAt (Next p k) msg -> mismatchAt p msg.
Proof.
  intros (q & Hq & Hmsg). exists q. split; [| exact Hmsg].
  etrans; [| exact Hq]. by apply prefix_app_r.
Qed.

Lemma mismatchAt_here (p : Path) :
  mismatchAt p ("cannot override " +:+ Path_String p)
  /\ mismatchAt p ("cannont override " +:+ Path_String p).
Proof. split; exists p; split; auto. Qed.

Section Errors.
Context {MR : MapRange} {F : Fmt}.
Variable rec : val -> val -> Path -> M store val.
Hypothesis rec_errs : forall e o p, errsIn (mismatchAt p) (rec e o p).

Lemma errsIn_mergeMappings_with (mapping other : loc) (p : Path) :
  errsIn (mismatchAt p) (mergeMappings_with rec mapping other p).
Proof.
  unfold mergeMappings_with. apply errsIn_bind; [apply errsIn_loadMap |].
  intros entries. apply errsIn_bind.
  - apply errsIn_forM. intros [] [k v].
    apply errsIn_bind; [apply errsIn_loadMap |].
    intros m. destruct (m !! k) as [e|]; [| apply errsIn_setKey].
    destruct (HasPrefix k "x-"); [apply errsIn_setKey |].
    apply errsIn_bind; [| intros merged; apply errsIn_setKey].
    intros s msg s' E. apply (mismatchAt_Next p k). by eapply rec_errs.
  - intros _. by apply errsIn_never.
Qed.

Lemma errsIn_mergeYaml_with (e o : val) (p : Path) :
  errsIn (mismatchAt p) (mergeYaml_with rec e o p).
Proof.
  unfold mergeYaml_with. destruct (findSpecial p) as [[]|]; cbn [applyMerger].
  - unfold mergeLogging_with.
    destruct e; try (by apply errsIn_never).
    destruct o; try (by apply errsIn_never).
    apply errsIn_bind; [apply errsIn_loadMap |]. intros om.
    apply errsIn_bind; [apply errsIn_loadMap |]. intros cm.
    apply errsIn_bind; [apply errsIn_iface_eq |]. intros same.
    destruct (same || _ || _).
    + apply errsIn_mergeMappings_with.
    + by apply errsIn_never.
  - by apply errsIn_never.
  - unfold mergeEnvironment.
    apply errsIn_bind; [apply errsIn_convertIntoSequence |]. intros right.
    apply errsIn_bind; [apply errsIn_convertIntoSequence |]. intros left.
    by apply errsIn_never.
  - unfold mergeUlimit_with. destruct o; try (by apply errsIn_never).
    apply errsIn_mergeMappings_with.
  - destruct e; try (by apply errsIn_never).
    + destruct o; try (by apply errsIn_never);
        intros st msg st' [= <- _]; apply mismatchAt_here.
    + destruct o; try apply errsIn_mergeMappings_with;
        intros st msg st' [= <- _]; apply mismatchAt_here.
Qed.

End Errors.

Lemma errsIn_mergeYaml {MR : MapRange} {F : Fmt} (fuel : nat) :
  forall e o p, errsIn (mismatchAt p) (mergeYaml fuel e o p).
Proof.
  induction fuel as [|fuel IH]; intros e o p; cbn [mergeYaml].
  - by apply errsIn_never.
  - by apply errsIn_mergeYaml_with.
Qed.

(** X20: the only error [Merge] returns is a type mismatch.  Whenever it
    returns an error, the message is [cannot override <path>] (a mapping
    met something else) or [cannont override <path>] (a sequence met
    something else), for some path of the documents. *)
Theorem Merge_errors {MR : MapRange} {F : Fmt} (fuel : nat)
    (right left : loc) (s s' : store) (msg : string) :
  Merge fuel right left s = (Err msg, s') ->
  exists q : Path,
    msg = "cannot override " +:+ Path_String q
    \/ msg = "cannont override " +:+ Path_String q.
Proof.
  intros E.
  assert (H : errsIn (mismatchAt NewPath) (Merge fuel right left)).
  { unfold Merge. apply errsIn_bind; [apply errsIn_mergeYaml |].
    intros merged. destruct merged; by apply errsIn_never. }
  destruct (H s msg s' E) as (q & _ & Hq). by exists q.
Qed.

Lemma Merge_errors_witness :
  Merge (MR := key_order) (F := sample_Fmt) 2 0 1 mismatch_store
  = (Err "cannot override a", mismatch_store)
  /\ exists q : Path,
       "cannot override a" = "cannot override " +:+ Path_String q
       \/ "cannot override a" = "cannont override " +:+ Path_String q.
Proof.
  assert (H : Merge (MR := key_order) (F := sample_Fmt) 2 0 1 mismatch_store
              = (Err "cannot override a", mismatch_store))
    by (vm_compute; reflexivity).
  split; [exact H |].
  exact (Merge_errors (MR := key_order) (F := sample_Fmt) 2 0 1
           mismatch_store mismatch_store "cannot override a" H).
Defined.

(** ** The special rules *)

Lemma find_unique_perm {A} (f : A -> bool) (l l' : list A) :
  (forall x y, x ∈ l -> y ∈ l -> f x = true -> f y = true -> x = y) ->
  l' ≡ₚ l -> find f l' = find f l.
Proof.
  intros Huniq Hperm.
  destruct (find f l') as [x|] eqn:E'; destruct (find f l) as [y|] eqn:E;
    try reflexivity.
  - apply find_some in E' as [Hx Hfx]. apply find_some in E as [Hy Hfy].
    f_equal. apply Huniq; try done.
    + rewrite <- Hperm. by apply list_elem_of_In.
    + by apply list_elem_of_In.
  - apply find_some in E' as [Hx Hfx].
    assert (Hin : In x l)
      by (apply list_elem_of_In; rewrite <- Hperm; by apply list_elem_of_In).
    pose proof (find_none _ _ E x Hin). congruence.
  - apply find_some in E as [Hy Hfy].
    assert (Hin : In y l')
      by (apply list_elem_of_In; rewrite Hperm; by apply list_elem_of_In).
    pose proof (find_none _ _ E' y Hin). congruence.
Qed.

(** X21: [mergeYaml] visits the table [mergeSpecials] in the order Go
    picks for the map, and takes the first pattern that matches.  The
    order does not matter: in whatever order the six rules are visited,
    the same rule, or none, is found. *)
Theorem findSpecial_order_free (table : list (Path * merger)) (p : Path) :
  table ≡ₚ mergeSpecials ->
  snd <$> find (fun pm => Matches p pm.1) table = findSpecial p.
Proof.
  intros Hperm. unfold findSpecial. f_equal.
  apply find_unique_perm; [| exact Hperm].
  intros x y Hx Hy Mx My. by apply (mergeSpecials_unique p).
Qed.

Lemma findSpecial_order_free_witness :
  reverse mergeSpecials ≡ₚ mergeSpecials
  /\ snd <$> find (fun pm => Matches ["services"; "web"; "command"] pm.1)
                  (reverse mergeSpecials)
     = findSpecial ["services"; "web"; "command"].
Proof.
  assert (H : reverse mergeSpecials ≡ₚ mergeSpecials)
    by apply reverse_Permutation.
  split; [exact H |].
  exact (findSpecial_order_free (reverse mergeSpecials)
           ["services"; "web"; "command"] H).
Defined.

Lemma environment_not_ulimit (p : Path) :
  Matches p ["services"; "*"; "environment"] = true ->
  Matches p ["services"; "*"; "ulimits"; "*"] = false.
Proof.
  destruct p as [|a [|b [|c [|d p]]]]; matches_simpl; try discriminate;
    rewrite ?andb_true_r, ?andb_false_r; try discriminate; reflexivity.
Qed.

(** X22: what [mergeYaml] makes of two sequences.  At a logging path it
    panics (the rule asserts mappings); at [command], [entrypoint],
    [healthcheck.test] and under [ulimits] the override replaces the
    base; everywhere else, [environment] included, the override is
    appended to the base.  The store is never changed. *)
Theorem mergeYaml_sequences {MR : MapRange} {F : Fmt} (fuel : nat)
    (a b : list val) (p : Path) (s : store) :
  if Matches p ["services"; "*"; "logging"]
  then exists msg, mergeYaml (S fuel) (VSeq a) (VSeq b) p s = (Panic msg, s)
  else mergeYaml (S fuel) (VSeq a) (VSeq b) p s
       = (Ok (VSeq (if replacesSequence p then b else a ++ b)), s).
Proof.
  cbn [mergeYaml]. unfold mergeYaml_with, findSpecial, mergeSpecials.
  unfold replacesSequence. cbn [find fst snd].
  destruct (Matches p ["services"; "*"; "logging"]); [by eexists |].
  destruct (Matches p ["services"; "*"; "command"]); [reflexivity |].
  destruct (Matches p ["services"; "*"; "entrypoint"]); [reflexivity |].
  destruct (Matches p ["services"; "*"; "healthcheck"; "test"]);
    [reflexivity |].
  destruct (Matches p ["services"; "*"; "environment"]) eqn:Eenv.
  - rewrite (environment_not_ulimit p Eenv). reflexivity.
  - destruct (Matches p ["services"; "*"; "ulimits"; "*"]); reflexivity.
Qed.

Lemma findSpecial_logging (p : Path) :
  Matches p ["services"; "*"; "logging"] = true ->
  findSpecial p = Some mergeLogging_rule.
Proof.
  intros H. unfold findSpecial, mergeSpecials. cbn [find fst snd].
  by rewrite H.
Qed.

(** X23: the logging rule.  At [services.<name>.logging], when both
    blocks name a driver and the two names differ, the override replaces
    the base block as a whole and the base keeps its entries; when the
    names agree, or one block names no driver, the blocks are merged as
    mappings. *)
Theorem mergeYaml_logging {MR : MapRange} {F : Fmt} (fuel : nat)
    (config other : loc) (p : Path) (s : store) (cm om : gmap string val)
    (base_driver override_driver : option string) :
  Matches p ["services"; "*"; "logging"] = true ->
  s !! config = Some cm -> s !! other = Some om ->
  cm !! "driver" = VStr <$> base_driver ->
  om !! "driver" = VStr <$> override_driver ->
  mergeYaml (S fuel) (VMap config) (VMap other) p s
  = match base_driver, override_driver with
    | Some x, Some y =>
        if String.eqb y x then mergeMappings fuel config other p s
        else (Ok (VMap other), s)
    | _, _ => mergeMappings fuel config other p s
    end.
Proof.
  intros Hp Hcm Hom Hd Hd'. cbn [mergeYaml]. unfold mergeYaml_with.
  rewrite (findSpecial_logging p Hp). cbn [applyMerger].
  unfold mergeLogging_with. unfold bind at 1. unfold loadMap at 1.
  rewrite Hom. unfold bind at 1. unfold loadMap at 1. rewrite Hcm.
  rewrite Hd, Hd'. unfold bind at 1.
  destruct base_driver as [x|], override_driver as [y|]; cbn.
  - destruct (String.eqb y x); reflexivity.
  - reflexivity.
  - reflexivity.
  - reflexivity.
Qed.

Lemma mergeYaml_logging_witness :
  Matches ["services"; "web"; "logging"] ["services"; "*"; "logging"] = true
  /\ logging_store !! 0
     = Some ({[ "driver" := VStr "json-file"; "options" := VMap 2 ]}
             : gmap string val)
  /\ logging_store !! 1
     = Some ({[ "driver" := VStr "syslog" ]} : gmap string val)
  /\ ({[ "driver" := VStr "json-file"; "options" := VMap 2 ]}
      : gmap string val) !! "driver" = VStr <$> Some "json-file"
  /\ ({[ "driver" := VStr "syslog" ]} : gmap string val) !! "driver"
     = VStr <$> Some "syslog"
  /\ mergeYaml (MR := key_order) (F := sample_Fmt) 1 (VMap 0) (VMap 1)
       ["services"; "web"; "logging"] logging_store
     = if String.eqb "syslog" "json-file"
       then mergeMappings (MR := key_order) (F := sample_Fmt) 0 0 1
              ["services"; "web"; "logging"] logging_store
       else (Ok (VMap 1), logging_store).
Proof.
  split; [reflexivity |]. split; [reflexivity |]. split; [reflexivity |].
  split; [reflexivity |]. split; [reflexivity |].
  exact (mergeYaml_logging (MR := key_order) (F := sample_Fmt) 0 0 1
           ["services"; "web"; "logging"] logging_store _ _
           (Some "json-file") (Some "syslog")
           eq_refl eq_refl eq_refl eq_refl eq_refl).
Defined.

(** ** [groupXFieldsIntoExtensions] as a function of the mapping *)

Lemma movedKey_skip (p : Path) (k : string) :
  movedKey p k = negb (skipXFields p) && HasPrefix k "x-".
Proof.
  unfold movedKey. f_equal. f_equal.
  destruct (skipXFields p) eqn:E.
  - apply bool_decide_eq_true_2. by apply skipXFields_true.
  - apply bool_decide_eq_false_2. intros H. apply skipXFields_true in H.
    congruence.
Qed.

(** X24: the result of [groupXFieldsIntoExtensions] does not depend on
    the order in which Go visits the mapping.  The keys that stay are the
    keys that are not moved, each with its value grouped in turn; the
    moved entries, with the values they had (they are not descended
    into), make the bucket; and the bucket is stored under [extensions],
    over an entry of that name, exactly when it is not empty. *)
Theorem groupXFieldsIntoExtensions_spec {MR : MapRange}
    (dict : gmap string tree) (p : Path) :
  groupXFieldsIntoExtensions dict p
  = if decide (extensionBucket p dict = ∅)
    then groupedRest p dict
    else <[consts_Extensions := TMap (extensionBucket p dict)]>
           (groupedRest p dict).
Proof.
  unfold groupXFieldsIntoExtensions. rewrite groupXFields_TMap.
  set (st := fold_left (groupStep p (groupChild p)) (range dict) (dict, ∅)).
  assert (Hst : forall k,
             st.1 !! k = (if movedKey p k then None
                          else groupChild p k <$> dict !! k)
             /\ st.2 !! k = (if movedKey p k then dict !! k else None)).
  { intros k. rewrite movedKey_skip. apply groupLoop_lookup. }
  assert (H1 : st.1 = groupedRest p dict).
  { apply map_eq. intros k. destruct (Hst k) as [-> _].
    unfold groupedRest. rewrite map_lookup_imap.
    destruct (dict !! k) as [v|]; cbn; by destruct (movedKey p k). }
  assert (H2 : st.2 = extensionBucket p dict).
  { apply map_eq. intros k. destruct (Hst k) as [_ ->].
    unfold extensionBucket. rewrite map_lookup_filter.
    destruct (dict !! k) as [v|]; cbn.
    - destruct (movedKey p k) eqn:E.
      + by rewrite option_guard_True.
      + rewrite option_guard_False; [reflexivity |]. cbn. congruence.
    - by destruct (movedKey p k). }
  unfold storeExtras. rewrite H1, H2.
  destruct (decide (extensionBucket p dict = ∅)) as [->|Hne].
  - by rewrite map_size_empty.
  - assert (Hsize : (0 <? size (extensionBucket p dict))%nat = true).
    { apply Nat.ltb_lt. apply Nat.neq_0_lt_0. intros Hz.
      by apply map_size_empty_iff in Hz. }
    by rewrite Hsize.
Qed.

(** ** [convertToStringKeysRecursive] *)

Lemma sum_list_elem_le (n : nat) (l : list nat) : n ∈ l -> n <= sum_list l.
Proof.
  induction l as [|x l IH]; [by intros ?%elem_of_nil |].
  intros [->|H]%elem_of_cons; cbn; [lia |]. specialize (IH H). lia.
Qed.

Lemma raw_size_map (m : gmap string raw) (k : string) (entry : raw) :
  m !! k = Some entry -> raw_size entry < raw_size (RMap m).
Proof.
  intros H. cbn [raw_size]. apply Nat.lt_succ_r, sum_list_elem_le.
  apply list_elem_of_fmap. exists (k, raw_size entry). split; [reflexivity |].
  apply elem_of_map_to_list. by rewrite lookup_fmap, H.
Qed.

Lemma raw_size_seq (l : list raw) (entry : raw) :
  entry ∈ l -> raw_size entry < raw_size (RSeq l).
Proof.
  intros H. cbn [raw_size]. apply Nat.lt_succ_r, sum_list_elem_le.
  apply list_elem_of_fmap. by exists entry.
Qed.

Lemma raw_size_any (m : list (raw * raw)) (key entry : raw) :
  (key, entry) ∈ m -> raw_size entry < raw_size (RAny m).
Proof.
  intros H. cbn [raw_size]. apply Nat.lt_succ_r, sum_list_elem_le.
  apply list_elem_of_fmap. by exists (key, entry).
Qed.

(** Induction on a decoded value, with the hypothesis for every entry of
    a sequence or mapping. *)
Lemma raw_nested_ind (P : raw -> Prop) :
  P RNull -> (forall b, P (RBool b)) -> (forall n, P (RInt n)) ->
  (forall bits, P (RFloat bits)) -> (forall s, P (RStr s)) ->
  (forall l, Forall P l -> P (RSeq l)) ->
  (forall m, map_Forall (fun _ entry => P entry) m -> P (RMap m)) ->
  (forall m, Forall (fun kv => P kv.2) m -> P (RAny m)) ->
  forall v, P v.
Proof.
  intros Hnull Hbool Hint Hfloat Hstr Hseq Hmap Hany v.
  remember (raw_size v) as n eqn:En. revert v En.
  induction n as [n IH] using lt_wf_ind. intros v ->.
  destruct v as [| | | | |l|m|m]; auto.
  - apply Hseq, Forall_forall. intros entry Hin.
    apply (IH (raw_size entry)); [by apply raw_size_seq | reflexivity].
  - apply Hmap. intros k entry Hk.
    apply (IH (raw_size entry)); [by eapply raw_size_map | reflexivity].
  - apply Hany, Forall_forall. intros [key entry] Hin.
    apply (IH (raw_size entry)); [by eapply raw_size_any | reflexivity].
Qed.

Lemma convertLoop_ext_in {A B} (l : list A) (acc : B)
    (f g : B -> A -> B + string) :
  (forall a x, x ∈ l -> f a x = g a x) ->
  convertLoop l acc f = convertLoop l acc g.
Proof.
  revert acc. induction l as [|x l IH]; intros acc Hfg; [reflexivity |].
  cbn [convertLoop]. rewrite Hfg by apply list_elem_of_here.
  destruct (g acc x); [| reflexivity]. apply IH.
  intros a y Hy. apply Hfg. by apply list_elem_of_further.
Qed.

Lemma convertLoop_fmap {A A' B} (h : A -> A') (l : list A) (acc : B)
    (body : B -> A' -> B + string) :
  convertLoop (h <$> l) acc body
  = convertLoop l acc (fun a x => body a (h x)).
Proof.
  revert acc. induction l as [|x l IH]; intros acc; [reflexivity |].
  cbn [fmap list_fmap convertLoop]. destruct (body acc (h x)); [| reflexivity].
  apply IH.
Qed.

(** A loop that converts each entry with [g] and records the result with
    [upd]: it returns the first error of [g], or the fold of [upd] over
    the converted entries. *)
Lemma convertLoop_inv {A B C} (g : A -> C + string) (upd : B -> A -> C -> B)
    (l : list A) :
  forall acc,
    match convertLoop l acc
            (fun a x => match g x with
                        | inl c => inl (upd a x c)
                        | inr err => inr err
                        end) with
    | inl r =>
        exists cs,
          Forall2 (fun x c => g x = inl c) l cs
          /\ r = fold_left (fun a xc => upd a xc.1 xc.2) (zip l cs) acc
    | inr err => exists x, x ∈ l /\ g x = inr err
    end.
Proof.
  induction l as [|x l IH]; intros acc; cbn [convertLoop].
  - exists []. split; [constructor | reflexivity].
  - destruct (g x) as [c|err] eqn:Eg.
    + specialize (IH (upd acc x c)).
      destruct (convertLoop l _ _) as [r|err].
      * destruct IH as (cs & Hcs & ->). exists (c :: cs).
        split; [by constructor | reflexivity].
      * destruct IH as (y & Hy & Ey). exists y.
        split; [by apply list_elem_of_further | exact Ey].
    + exists x. split; [apply list_elem_of_here | exact Eg].
Qed.

Lemma convertLoop_all {A B C} (g : A -> C + string) (upd : B -> A -> C -> B)
    (h : A -> C) (l : list A) :
  (forall x, x ∈ l -> g x = inl (h x)) ->
  forall acc,
    convertLoop l acc
      (fun a x => match g x with
                  | inl c => inl (upd a x c)
                  | inr err => inr err
                  end)
    = inl (fold_left (fun a x => upd a x (h x)) l acc).
Proof.
  induction l as [|x l IH]; intros Hg acc; [reflexivity |].
  cbn [convertLoop fold_left]. rewrite Hg by apply list_elem_of_here.
  apply IH. intros y Hy. apply Hg. by apply list_elem_of_further.
Qed.

Section Convert.
Context {MR : MapRange} {KF : KeyFmt}.

(** What one entry of each kind of collection is converted to. *)
Lemma convert_RMap (mapping : gmap string raw) (keyPrefix : string) :
  convertToStringKeysRecursive (RMap mapping) keyPrefix
  = match
      convertLoop (range mapping) mapping
        (fun acc kv =>
           match convertToStringKeysRecursive kv.2
                   (newKeyPrefix keyPrefix kv.1) with
           | inl c => inl (<[kv.1 := c]> acc)
           | inr err => inr err
           end)
    with
    | inl mapping' => inl (RMap mapping')
    | inr err => inr err
    end.
Proof.
  cbn [convertToStringKeysRecursive]. erewrite convertLoop_ext_in; [reflexivity |].
  intros acc [k entry] Hin. apply elem_of_range in Hin. cbn [fst snd].
  by rewrite lookup_fmap, Hin.
Qed.

Lemma convert_RAny (mapping : list (raw * raw)) (keyPrefix : string) :
  convertToStringKeysRecursive (RAny mapping) keyPrefix
  = match
      convertLoop mapping (∅ : gmap string raw)
        (fun dict kv =>
           match convertAnyEntry keyPrefix kv with
           | inl sc => inl (<[sc.1 := sc.2]> dict)
           | inr err => inr err
           end)
    with
    | inl dict => inl (RMap dict)
    | inr err => inr err
    end.
Proof.
  cbn [convertToStringKeysRecursive]. rewrite convertLoop_fmap.
  erewrite convertLoop_ext_in; [reflexivity |].
  intros dict [key entry] _. unfold convertAnyEntry. cbn [fst snd].
  destruct key; try reflexivity.
  by destruct (convertToStringKeysRecursive entry _).
Qed.

Lemma imap_pair_fmap {A B} (h : A -> B) (l : list A) :
  imap pair (h <$> l) = (fun ix => (ix.1, h ix.2)) <$> imap pair l.
Proof.
  rewrite imap_fmap. apply list_eq. intros i.
  rewrite list_lookup_fmap, !list_lookup_imap.
  by destruct (l !! i).
Qed.

Lemma convert_RSeq (entries : list raw) (keyPrefix : string) :
  convertToStringKeysRecursive (RSeq entries) keyPrefix
  = match
      convertLoop (imap pair entries) []
        (fun convertedList ie =>
           match convertToStringKeysRecursive ie.2
                   (indexKeyPrefix keyPrefix ie.1) with
           | inl c => inl (convertedList ++ [c])
           | inr err => inr err
           end)
    with
    | inl convertedList => inl (RSeq convertedList)
    | inr err => inr err
    end.
Proof.
  cbn [convertToStringKeysRecursive].
  by rewrite imap_pair_fmap, convertLoop_fmap.
Qed.

End Convert.

Lemma String_prefix_refl (a : string) : String.prefix a a = true.
Proof.
  induction a as [|x a IH]; [reflexivity |]. cbn.
  by destruct (Ascii.ascii_dec x x).
Qed.

Lemma String_prefix_app (a b : string) : String.prefix a (a +:+ b) = true.
Proof.
  induction a as [|x a IH]; [by destruct b |].
  change (String x a +:+ b) with (String x (a +:+ b)).
  cbn [String.prefix]. by destruct (Ascii.ascii_dec x x).
Qed.

Lemma String_prefix_trans (a : string) :
  forall b c,
    String.prefix a b = true -> String.prefix b c = true ->
    String.prefix a c = true.
Proof.
  induction a as [|x a IH]; intros [|y b] [|z c]; cbn; try done.
  destruct (Ascii.ascii_dec x y) as [->|]; [| done].
  destruct (Ascii.ascii_dec y z) as [->|]; [| done].
  apply IH.
Qed.

Lemma HasPrefix_newKeyPrefix (keyPrefix key : string) :
  HasPrefix (newKeyPrefix keyPrefix key) keyPrefix = true.
Proof.
  unfold HasPrefix, newKeyPrefix.
  destruct (String.eqb_spec keyPrefix "") as [->|_].
  - by destruct key.
  - apply String_prefix_app.
Qed.

Lemma HasPrefix_indexKeyPrefix (keyPrefix : string) (index : nat) :
  HasPrefix (indexKeyPrefix keyPrefix index) keyPrefix = true.
Proof. apply String_prefix_app. Qed.

Lemma Forall2_zip {A C} (P : A -> C -> Prop) (l : list A) (cs : list C) :
  Forall2 P l cs -> Forall (fun z => P z.1 z.2) (zip l cs).
Proof. induction 1; constructor; auto. Qed.

(** The map a fold of assignments leaves: at every key, a value that was
    assigned, or the value the map had at a key that was not assigned. *)
Lemma fold_insert_lookup {Z C} (kf : Z -> string) (vf : Z -> C)
    (Q : C -> Prop) (zs : list Z) :
  Forall (fun z => Q (vf z)) zs ->
  forall (acc : gmap string C) k y,
    fold_left (fun a z => <[kf z := vf z]> a) zs acc !! k = Some y ->
    Q y \/ (acc !! k = Some y /\ k ∉ kf <$> zs).
Proof.
  induction 1 as [|z zs Hz _ IH]; intros acc k y; cbn [fold_left].
  - intros H. right. split; [exact H | apply not_elem_of_nil].
  - intros H. apply IH in H as [HQ | [Hk Hnot]]; [by left |].
    destruct (decide (k = kf z)) as [->|Hne].
    + rewrite lookup_insert_eq in Hk. injection Hk as <-. by left.
    + rewrite lookup_insert_ne in Hk by done. right. split; [exact Hk |].
      cbn [fmap list_fmap]. rewrite not_elem_of_cons. by split.
Qed.

Lemma fold_left_snoc {Z C} (vf : Z -> C) (zs : list Z) (acc : list C) :
  fold_left (fun a z => a ++ [vf z]) zs acc = acc ++ (vf <$> zs).
Proof.
  revert acc. induction zs as [|z zs IH]; intros acc; cbn.
  - by rewrite app_nil_r.
  - by rewrite IH, <- app_assoc.
Qed.

Lemma invalidKeyBelow_weaken {KF : KeyFmt} (p p' err : string) :
  HasPrefix p' p = true -> invalidKeyBelow p' err -> invalidKeyBelow p err.
Proof.
  intros Hp (location & key & -> & Hkey & Hloc).
  exists location, key. split; [reflexivity |]. split; [exact Hkey |].
  unfold HasPrefix in *. by eapply String_prefix_trans.
Qed.

Section ConvertOutcome.
Context {MR : MapRange} {KF : KeyFmt}.

Lemma convert_outcome (value : raw) :
  forall keyPrefix,
    match convertToStringKeysRecursive value keyPrefix with
    | inl converted => stringKeyed converted
    | inr err => hasNonStringKey value /\ invalidKeyBelow keyPrefix err
    end.
Proof.
  induction value as [| | | | |l IH|m IH|m IH] using raw_nested_ind;
    intros keyPrefix; try (cbn; by constructor).
  - (* sequence *)
    rewrite convert_RSeq.
    pose proof (convertLoop_inv
      (fun ie : nat * raw =>
         convertToStringKeysRecursive ie.2 (indexKeyPrefix keyPrefix ie.1))
      (fun (a : list raw) (_ : nat * raw) c => a ++ [c])
      (imap pair l) []) as H. cbv beta in H.
    destruct (convertLoop _ _ _) as [r|err].
    + destruct H as (cs & Hcs & ->). constructor.
      rewrite (fold_left_snoc (fun xc : (nat * raw) * raw => xc.2)).
      apply Forall_app. split; [constructor |].
      apply Forall_fmap, Forall_forall. intros [[i entry] c] Hin.
      apply Forall2_zip in Hcs. rewrite Forall_forall in Hcs.
      specialize (Hcs _ Hin). cbn [fst snd] in *.
      assert (Hentry : entry ∈ l).
      { apply elem_of_zip_l in Hin. apply list_elem_of_lookup in Hin as [j Hj].
        rewrite list_lookup_imap in Hj.
        destruct (l !! j) as [e|] eqn:El; [| discriminate Hj].
        injection Hj as _ <-. by eapply list_elem_of_lookup_2. }
      rewrite Forall_forall in IH.
      specialize (IH entry Hentry (indexKeyPrefix keyPrefix i)).
      by rewrite Hcs in IH.
    + destruct H as ([i entry] & Hin & Herr). cbn [fst snd] in Herr.
      assert (Hentry : entry ∈ l).
      { apply list_elem_of_lookup in Hin as [j Hj].
        rewrite list_lookup_imap in Hj.
        destruct (l !! j) as [e|] eqn:El; [| discriminate Hj].
        injection Hj as _ <-. by eapply list_elem_of_lookup_2. }
      rewrite Forall_forall in IH.
      specialize (IH entry Hentry (indexKeyPrefix keyPrefix i)).
      rewrite Herr in IH. destruct IH as [Hbad Hmsg]. split.
      * by eapply nonString_seq.
      * eapply invalidKeyBelow_weaken; [| exact Hmsg].
        apply HasPrefix_indexKeyPrefix.
  - (* map[string]interface{} *)
    rewrite convert_RMap.
    pose proof (convertLoop_inv
      (fun kv : string * raw =>
         convertToStringKeysRecursive kv.2 (newKeyPrefix keyPrefix kv.1))
      (fun (a : gmap string raw) (kv : string * raw) c => <[kv.1 := c]> a)
      (range m) m) as H. cbv beta in H.
    destruct (convertLoop _ _ _) as [r|err].
    + destruct H as (cs & Hcs & ->). constructor. intros k y Hk.
      apply (fold_insert_lookup
               (fun xc : (string * raw) * raw => xc.1.1)
               (fun xc : (string * raw) * raw => xc.2) stringKeyed) in Hk.
      * destruct Hk as [HQ | [Hm Hnot]]; [exact HQ |]. exfalso. apply Hnot.
        apply elem_of_range in Hm. apply list_elem_of_fmap.
        apply Forall2_length in Hcs.
        apply list_elem_of_lookup in Hm as [j Hj].
        destruct (lookup_lt_is_Some_2 cs j) as [c Hc].
        { rewrite <- Hcs. by eapply lookup_lt_Some. }
        exists ((k, y), c). split; [reflexivity |].
        apply list_elem_of_lookup. exists j. rewrite lookup_zip_with, Hj.
        cbn. by rewrite Hc.
      * apply Forall_forall. intros [[k' entry] c] Hin. cbn [fst snd].
        apply Forall2_zip in Hcs. rewrite Forall_forall in Hcs.
        specialize (Hcs _ Hin). cbn [fst snd] in Hcs.
        apply elem_of_zip_l, elem_of_range in Hin.
        specialize (IH k' entry Hin (newKeyPrefix keyPrefix k')).
        cbn beta in IH. by rewrite Hcs in IH.
    + destruct H as ([k entry] & Hin & Herr). cbn [fst snd] in Herr.
      apply elem_of_range in Hin.
      specialize (IH k entry Hin (newKeyPrefix keyPrefix k)). cbn beta in IH.
      rewrite Herr in IH. destruct IH as [Hbad Hmsg]. split.
      * by eapply nonString_map.
      * eapply invalidKeyBelow_weaken; [| exact Hmsg].
        apply HasPrefix_newKeyPrefix.
  - (* map[interface{}]interface{} *)
    rewrite convert_RAny.
    pose proof (convertLoop_inv (convertAnyEntry keyPrefix)
      (fun (a : gmap string raw) (_ : raw * raw) (sc : string * raw) =>
         <[sc.1 := sc.2]> a) m ∅) as H. cbv beta in H.
    destruct (convertLoop _ _ _) as [r|err].
    + destruct H as (cs & Hcs & ->). constructor. intros k y Hk.
      apply (fold_insert_lookup
               (fun xc : (raw * raw) * (string * raw) => xc.2.1)
               (fun xc : (raw * raw) * (string * raw) => xc.2.2)
               stringKeyed) in Hk.
      * destruct Hk as [HQ | [Hm _]]; [exact HQ |].
        by rewrite lookup_empty in Hm.
      * apply Forall_forall. intros [[key entry] [str c]] Hin. cbn [fst snd].
        apply Forall2_zip in Hcs. rewrite Forall_forall in Hcs.
        specialize (Hcs _ Hin). cbn [fst snd] in Hcs.
        apply elem_of_zip_l in Hin. rewrite Forall_forall in IH.
        specialize (IH _ Hin). cbn [snd] in IH.
        unfold convertAnyEntry in Hcs. cbn [fst snd] in Hcs.
        destruct key; try discriminate Hcs.
        specialize (IH (newKeyPrefix keyPrefix s)).
        destruct (convertToStringKeysRecursive entry _) as [c'|];
          [| discriminate Hcs].
        by injection Hcs as _ <-.
    + destruct H as ([key entry] & Hin & Herr).
      rewrite Forall_forall in IH. specialize (IH _ Hin). cbn [snd] in IH.
      unfold convertAnyEntry in Herr. cbn [fst snd] in Herr.
      assert (Hhere : (forall s, key <> RStr s) ->
                      err = formatInvalidKeyError keyPrefix key ->
                      hasNonStringKey (RAny m) /\ invalidKeyBelow keyPrefix err).
      { intros Hkey ->. split; [by eapply nonString_here |].
        exists keyPrefix, key. split; [reflexivity |]. split; [exact Hkey |].
        apply String_prefix_refl. }
      destruct key; try (apply Hhere; [done | congruence]).
      specialize (IH (newKeyPrefix keyPrefix s)).
      destruct (convertToStringKeysRecursive entry _) as [c'|err'];
        [discriminate Herr |].
      injection Herr as <-. destruct IH as [Hbad Hmsg]. split.
      * by eapply nonString_any.
      * eapply invalidKeyBelow_weaken; [| exact Hmsg].
        apply HasPrefix_newKeyPrefix.
Qed.
End ConvertOutcome.

Section ConvertTheorems.
Context {MR : MapRange} {KF : KeyFmt}.

Lemma convertLoop_some_error {A B C} (g : A -> C + string)
    (upd : B -> A -> C -> B) (l : list A) (acc : B) (x : A) :
  x ∈ l -> (forall c, g x <> inl c) ->
  exists err,
    convertLoop l acc
      (fun a x => match g x with
                  | inl c => inl (upd a x c)
                  | inr err => inr err
                  end) = inr err.
Proof.
  intros Hx Hg. pose proof (convertLoop_inv g upd l acc) as H.
  destruct (convertLoop _ _ _) as [r|err]; [| by exists err].
  destruct H as (cs & Hcs & _). exfalso.
  apply list_elem_of_lookup in Hx as [i Hi].
  destruct (Forall2_lookup_l _ _ _ _ _ Hcs Hi) as (c & _ & Hc).
  by apply (Hg c).
Qed.

Lemma hasNonStringKey_fails (value : raw) :
  hasNonStringKey value ->
  forall keyPrefix converted,
    convertToStringKeysRecursive value keyPrefix <> inl converted.
Proof.
  induction 1 as [m key entry Hin Hkey | m key entry Hin _ IH
                 | m k entry Hk _ IH | l entry Hin _ IH];
    intros keyPrefix converted.
  - rewrite convert_RAny.
    destruct (convertLoop_some_error (convertAnyEntry keyPrefix)
                (fun (a : gmap string raw) (_ : raw * raw)
                     (sc : string * raw) => <[sc.1 := sc.2]> a)
                m ∅ (key, entry) Hin) as [err E].
    + intros c. unfold convertAnyEntry. cbn [fst snd].
      destruct key; try discriminate. by destruct (Hkey s).
    + cbv beta in E. by rewrite E.
  - rewrite convert_RAny.
    destruct (convertLoop_some_error (convertAnyEntry keyPrefix)
                (fun (a : gmap string raw) (_ : raw * raw)
                     (sc : string * raw) => <[sc.1 := sc.2]> a)
                m ∅ (key, entry) Hin) as [err E].
    + intros c. unfold convertAnyEntry. cbn [fst snd].
      destruct key; try discriminate.
      specialize (IH (newKeyPrefix keyPrefix s)).
      destruct (convertToStringKeysRecursive entry _) as [c'|];
        [| discriminate]. by destruct (IH c').
    + cbv beta in E. by rewrite E.
  - rewrite convert_RMap.
    destruct (convertLoop_some_error
                (fun kv : string * raw =>
                   convertToStringKeysRecursive kv.2
                     (newKeyPrefix keyPrefix kv.1))
                (fun (a : gmap string raw) (kv : string * raw) c =>
                   <[kv.1 := c]> a)
                (range m) m (k, entry)) as [err E].
    + by apply elem_of_range.
    + intros c. apply IH.
    + cbv beta in E. by rewrite E.
  - rewrite convert_RSeq.
    apply list_elem_of_lookup in Hin as [i Hi].
    destruct (convertLoop_some_error
                (fun ie : nat * raw =>
                   convertToStringKeysRecursive ie.2
                     (indexKeyPrefix keyPrefix ie.1))
                (fun (a : list raw) (_ : nat * raw) c => a ++ [c])
                (imap pair l) [] (i, entry)) as [err E].
    + apply list_elem_of_lookup. exists i.
      by rewrite list_lookup_imap, Hi.
    + intros c. apply IH.
    + cbv beta in E. by rewrite E.
Qed.

Lemma convertToStringKeysRecursive_outcome_aux (value : raw)
    (keyPrefix : string) :
  match convertToStringKeysRecursive value keyPrefix with
  | inl converted => stringKeyed converted /\ ~ hasNonStringKey value
  | inr err => hasNonStringKey value /\ invalidKeyBelow keyPrefix err
  end.
Proof.
  pose proof (convert_outcome value keyPrefix) as H.
  destruct (convertToStringKeysRecursive value keyPrefix) as [r|err] eqn:E;
    [| exact H].
  split; [exact H |]. intros Hbad.
  by apply (hasNonStringKey_fails value Hbad keyPrefix r).
Qed.

(** X25: [convertToStringKeysRecursive] returns an error exactly when
    some mapping of the value has a key that is not a string.  The error
    is then the one of [formatInvalidKeyError] for such a key, at a
    location that extends the prefix given; otherwise every mapping of
    the result has string keys.  This holds in whatever order the
    mappings are visited. *)
Theorem convertToStringKeysRecursive_outcome (value : raw)
    (keyPrefix : string) :
  match convertToStringKeysRecursive value keyPrefix with
  | inl converted => stringKeyed converted /\ ~ hasNonStringKey value
  | inr err => hasNonStringKey value /\ invalidKeyBelow keyPrefix err
  end.
Proof. apply convertToStringKeysRecursive_outcome_aux. Qed.

Lemma snd_imap_pair {A} (l : list A) : (imap pair l).*2 = l.
Proof.
  apply list_eq. intros i. rewrite list_lookup_fmap, list_lookup_imap.
  by destruct (l !! i).
Qed.

Lemma fold_insert_same {A} (m : gmap string A) (l : list (string * A)) :
  (forall kv, kv ∈ l -> m !! kv.1 = Some kv.2) ->
  fold_left (fun a kv => <[kv.1 := kv.2]> a) l m = m.
Proof.
  induction l as [|kv l IH]; intros H; [reflexivity |]. cbn [fold_left].
  rewrite insert_id by (apply H, list_elem_of_here).
  apply IH. intros kv' Hin. apply H. by apply list_elem_of_further.
Qed.

(** X26: a value whose mappings all have string keys is returned as it
    is, at any prefix.  With the preceding property: converting twice is
    converting once. *)
Theorem convertToStringKeysRecursive_fixed (value : raw)
    (keyPrefix : string) :
  stringKeyed value ->
  convertToStringKeysRecursive value keyPrefix = inl value.
Proof.
  revert keyPrefix.
  induction value as [| | | | |l IH|m IH|m IH] using raw_nested_ind;
    intros keyPrefix Hsk; try reflexivity.
  - inversion Hsk as [| | | | |l' Hl|]; subst.
    rewrite convert_RSeq.
    rewrite (convertLoop_all
               (fun ie : nat * raw =>
                  convertToStringKeysRecursive ie.2
                    (indexKeyPrefix keyPrefix ie.1))
               (fun (a : list raw) (_ : nat * raw) c => a ++ [c])
               (fun ie => ie.2)).
    + by rewrite fold_left_snoc, snd_imap_pair.
    + intros [i entry] Hin. cbn [fst snd].
      apply list_elem_of_lookup in Hin as [j Hj].
      rewrite list_lookup_imap in Hj.
      destruct (l !! j) as [e|] eqn:El; [| discriminate Hj].
      injection Hj as _ <-. apply list_elem_of_lookup_2 in El.
      rewrite Forall_forall in IH, Hl. by apply IH; [| apply Hl].
  - inversion Hsk as [| | | | | |m' Hm]; subst.
    rewrite convert_RMap.
    rewrite (convertLoop_all
               (fun kv : string * raw =>
                  convertToStringKeysRecursive kv.2
                    (newKeyPrefix keyPrefix kv.1))
               (fun (a : gmap string raw) (kv : string * raw) c =>
                  <[kv.1 := c]> a)
               (fun kv => kv.2)).
    + rewrite fold_insert_same; [reflexivity |].
      intros [k entry] Hin. by apply elem_of_range in Hin.
    + intros [k entry] Hin. apply elem_of_range in Hin. cbn [fst snd].
      apply (IH k entry Hin). by apply (Hm k).
  - inversion Hsk.
Qed.

(** X27: [parseYAML] on a decoded document.  The two type assertions on
    the converted value never fail; a document that is not a mapping is
    refused with [Top-level object must be a mapping]; a mapping is
    refused exactly when a key somewhere in it is not a string, and is
    otherwise returned with string keys throughout. *)
Theorem parseYAML_outcome (cfg : raw) :
  match parseYAML cfg with
  | Some (inl converted) =>
      stringKeyed (RMap converted) /\ ~ hasNonStringKey cfg
  | Some (inr err) =>
      match cfg with
      | RMap _ | RAny _ => hasNonStringKey cfg /\ invalidKeyBelow "" err
      | _ => err = "Top-level object must be a mapping"
      end
  | None => False
  end.
Proof.
  destruct cfg as [| | | | |l|m|m]; try reflexivity.
  - unfold parseYAML.
    pose proof (convertToStringKeysRecursive_outcome_aux (RMap m) "") as H.
    rewrite convert_RMap in *.
    destruct (convertLoop _ _ _) as [r|err]; exact H.
  - unfold parseYAML.
    pose proof (convertToStringKeysRecursive_outcome_aux (RAny m) "") as H.
    rewrite convert_RAny in *.
    destruct (convertLoop _ _ _) as [r|err]; exact H.
Qed.

End ConvertTheorems.

Lemma convertToStringKeysRecursive_fixed_witness :
  stringKeyed any_doc_converted
  /\ convertToStringKeysRecursive (MR := key_order) (KF := sample_KeyFmt)
       any_doc_converted "" = inl any_doc_converted.
Proof.
  assert (H : stringKeyed any_doc_converted).
  { unfold any_doc_converted.
    apply stringKeyed_map, map_Forall_singleton.
    apply stringKeyed_map, map_Forall_singleton.
    apply stringKeyed_map, map_Forall_singleton.
    apply stringKeyed_str. }
  split; [exact H |].
  exact (convertToStringKeysRecursive_fixed (MR := key_order)
           (KF := sample_KeyFmt) any_doc_converted "" H).
Defined.

(** Two runs: a document with string keys under the other map type is
    rebuilt with string-keyed mappings; an integer key in the first
    element of [services] is reported with its location. *)
Lemma convertToStringKeysRecursive_samples :
  convertToStringKeysRecursive (MR := key_order) (KF := sample_KeyFmt)
    any_doc "" = inl any_doc_converted
  /\ convertToStringKeysRecursive (MR := key_order) (KF := sample_KeyFmt)
       int_key_doc "" = inr "Non-string key in services[0]: 80".
Proof. split; vm_compute; reflexivity. Qed.

(** ** [deepClone] on the store *)

Lemma keepsMaps_refl (s : store) : keepsMaps s s.
Proof. by intros r m. Qed.

Lemma keepsMaps_trans (s1 s2 s3 : store) :
  keepsMaps s1 s2 -> keepsMaps s2 s3 -> keepsMaps s1 s3.
Proof. intros H12 H23 r m Hm. by apply H23, H12. Qed.

Lemma keepsMaps_length (s s' : store) : keepsMaps s s' -> length s <= length s'.
Proof.
  intros H. destruct (decide (length s = 0)) as [->|Hne]; [lia |].
  destruct (lookup_lt_is_Some_2 s (length s - 1)) as [m Hm]; [lia |].
  apply H, lookup_lt_Some in Hm. lia.
Qed.

Lemma freshFrom_mono (n n' : nat) (v : val) :
  n <= n' -> freshFrom n' v = true -> freshFrom n v = true.
Proof.
  intros Hle. revert v.
  fix IH 1. intros [| | | | |l|r]; cbn [freshFrom]; try done.
  - induction l as [|x l IHl]; [done |]. cbn [forallb].
    rewrite !andb_true_iff. intros [Hx Hl]. split; [by apply IH | by apply IHl].
  - rewrite !Nat.leb_le. lia.
Qed.

Lemma forM_inv {S A B} (J : B -> S -> Prop) (l : list A)
    (body : B -> A -> M S B) :
  (forall acc x s acc' s',
     x ∈ l -> J acc s -> body acc x s = (Ok acc', s') -> J acc' s') ->
  forall acc s acc' s',
    J acc s -> forM l acc body s = (Ok acc', s') -> J acc' s'.
Proof.
  induction l as [|x l IH]; intros Hbody acc s acc' s' HJ; cbn [forM].
  - intros [= <- <-]. exact HJ.
  - unfold bind. destruct (body acc x s) as [[a|e|e] s1] eqn:E;
      try discriminate.
    apply IH.
    + intros acc0 y s0 acc1 s2 Hy. apply Hbody. by apply list_elem_of_further.
    + eapply Hbody; [apply list_elem_of_here | exact HJ | exact E].
Qed.

Lemma closedFrom_step (n : nat) (sx sy : store) :
  n <= length sx -> keepsMaps sx sy ->
  closedFrom n sx -> closedFrom (length sx) sy -> closedFrom n sy.
Proof.
  intros Hn Hkeep Hx Hy r m k x Hr Hm Hk.
  destruct (decide (r < length sx)) as [Hlt|Hge].
  - destruct (lookup_lt_is_Some_2 sx r Hlt) as [m' Hm'].
    pose proof (Hkeep r m' Hm') as Hm''. rewrite Hm in Hm''.
    injection Hm'' as ->. by eapply Hx.
  - apply (freshFrom_mono n (length sx)); [exact Hn |].
    eapply Hy; [| exact Hm | exact Hk]. lia.
Qed.

Lemma deepClone_clonedFrom {MR : MapRange} (fuel : nat) :
  forall value s c s',
    InStore.deepClone fuel value s = (Ok c, s') ->
    closedFrom (length s) s -> clonedFrom s c s'.
Proof.
  induction fuel as [|fuel IH]; intros value s c s'; [discriminate |].
  cbn [InStore.deepClone].
  destruct value as [| | | | |l|r];
    try (intros [= <- <-] Hclosed; split; [apply keepsMaps_refl |];
         split; [reflexivity | exact Hclosed]).
  - (* sequence *)
    intros E Hclosed. unfold bind in E.
    match type of E with
    | context [forM ?l ?a ?b ?st] =>
        destruct (forM l a b st) as [[cp|?|?] s1] eqn:Eloop
    end; try discriminate.
    cbn [ret] in E. injection E as <- <-.
    apply (forM_inv
             (fun (cp : list val) (sx : store) =>
                keepsMaps s sx
                /\ forallb (freshFrom (length s)) cp = true
                /\ closedFrom (length s) sx)) in Eloop; [exact Eloop | |].
    + intros acc e sx acc' sy _ (Hkeep & Hacc & Hcl). unfold bind.
      destruct (InStore.deepClone fuel e sx) as [[c|?|?] sy'] eqn:Ec;
        try discriminate.
      cbn [ret]. intros [= <- <-].
      pose proof (keepsMaps_length _ _ Hkeep) as Hlen.
      assert (Hcl' : closedFrom (length sx) sx).
      { intros r m k x Hr Hm. apply lookup_lt_Some in Hm. lia. }
      destruct (IH e sx c sy' Ec Hcl') as (Hk' & Hc & Hcl'').
      split; [by eapply keepsMaps_trans |]. split.
      * rewrite forallb_app, Hacc. cbn [forallb]. rewrite andb_true_r.
        by apply (freshFrom_mono _ (length sx)).
      * by apply (closedFrom_step _ sx).
    + split; [apply keepsMaps_refl |]. split; [reflexivity | exact Hclosed].
  - (* mapping *)
    intros E Hclosed. unfold bind at 1 in E. unfold loadMap at 1 in E.
    destruct (s !! r) as [v|] eqn:Ev; [| discriminate].
    unfold bind at 1 in E. unfold newMap at 1 in E.
    unfold bind at 1 in E.
    match type of E with
    | context [forM ?l ?a ?b ?st] =>
        destruct (forM l a b st) as [[[]|?|?] s1] eqn:Eloop
    end; try discriminate.
    cbn [ret] in E. injection E as <- <-.
    apply (forM_inv
             (fun (_ : unit) (sx : store) =>
                keepsMaps s sx
                /\ length s < length sx
                /\ closedFrom (length s) sx)) in Eloop.
    + destruct Eloop as (Hkeep & _ & Hcl). split; [exact Hkeep |].
      split; [| exact Hcl]. cbn [freshFrom]. by apply Nat.leb_le.
    + intros [] [k e] sx [] sz _ (Hkeep & Hlt & Hcl). unfold bind.
      destruct (InStore.deepClone fuel e sx) as [[c|?|?] sy] eqn:Ec;
        try discriminate.
      assert (Hcl' : closedFrom (length sx) sx).
      { intros r0 m k0 x Hr Hm. apply lookup_lt_Some in Hm. lia. }
      destruct (IH e sx c sy Ec Hcl') as (Hk' & Hc & Hcl'').
      pose proof (keepsMaps_length _ _ Hk') as Hlen.
      unfold setKey.
      match goal with
      | |- context [match ?x with Some _ => _ | None => _ end] =>
          destruct x as [mcp|] eqn:Ecp
      end; [| discriminate].
      intros [= <-].
      assert (Hcly : closedFrom (length s) sy)
        by (apply (closedFrom_step _ sx); auto; lia).
      split; [| split].
      * intros r0 m Hm.
        assert (r0 <> length s) by (apply lookup_lt_Some in Hm; lia).
        etrans; [apply list_lookup_insert_ne; congruence |].
        by apply Hk', Hkeep.
      * eapply Nat.lt_le_trans; [exact Hlt |].
        eapply Nat.le_trans; [exact Hlen |].
        apply Nat.eq_le_incl. symmetry. apply length_insert.
      * intros r0 m k0 x Hr Hm Hk0.
        destruct (decide (r0 = length s)) as [->|Hne].
        -- assert (Hm' : Some m = Some (<[k := c]> mcp))
             by (rewrite <- Hm; apply list_lookup_insert_eq; lia).
           injection Hm' as ->.
           destruct (decide (k0 = k)) as [->|Hk].
           ++ rewrite lookup_insert_eq in Hk0. injection Hk0 as <-.
              apply (freshFrom_mono _ (length sx)); [lia | exact Hc].
           ++ rewrite lookup_insert_ne in Hk0 by done.
              by eapply (Hcly (length s)).
        -- assert (Hm' : sy !! r0 = Some m)
             by (rewrite <- Hm; symmetry; apply list_lookup_insert_ne;
                 congruence).
           by eapply Hcly.
    + split; [| split].
      * intros r0 m Hm. by apply lookup_app_l_Some.
      * rewrite length_app. cbn. lia.
      * intros r0 m k x Hr Hm Hk. unfold store in *.
        destruct (decide (r0 = length s)) as [->|Hne].
        -- rewrite lookup_app_r in Hm by lia.
           rewrite Nat.sub_diag in Hm. injection Hm as <-.
           by rewrite lookup_empty in Hk.
        -- apply lookup_lt_Some in Hm as Hlt. rewrite length_app in Hlt.
           cbn in Hlt. lia.
Qed.

Lemma forM_total {S A B} (J : B -> S -> Prop) (l : list A)
    (body : B -> A -> M S B) :
  (forall acc x s,
     x ∈ l -> J acc s ->
     exists acc' s', body acc x s = (Ok acc', s') /\ J acc' s') ->
  forall acc s,
    J acc s ->
    exists acc' s', forM l acc body s = (Ok acc', s') /\ J acc' s'.
Proof.
  induction l as [|x l IH]; intros Hbody acc s HJ; cbn [forM].
  - by exists acc, s.
  - destruct (Hbody acc x s (list_elem_of_here _ _) HJ) as (a & s1 & E & HJ1).
    unfold bind. rewrite E. apply IH; [| exact HJ1].
    intros acc0 y s0 Hy. apply Hbody. by apply list_elem_of_further.
Qed.

Lemma closedFrom_length (s : store) : closedFrom (length s) s.
Proof. intros r m k x Hr Hm. apply lookup_lt_Some in Hm. lia. Qed.

Lemma readback_seq_inv (fuel : nat) (s : store) (l : list val) (t : tree) :
  readback (S fuel) s (VSeq l) = Some t ->
  exists ts, t = TSeq ts /\ Forall2 (fun e t => readback fuel s e = Some t) l ts.
Proof.
  cbn [readback]. destruct (mapM (readback fuel s) l) as [ts|] eqn:E;
    [| discriminate].
  intros [= <-]. exists ts. split; [reflexivity |]. by apply mapM_Some.
Qed.

Lemma readback_map_entries (fuel : nat) (s : store) (r : loc) (t : tree) :
  readback (S fuel) s (VMap r) = Some t ->
  exists m,
    s !! r = Some m
    /\ forall k e, m !! k = Some e -> is_Some (readback fuel s e).
Proof.
  cbn [readback]. destruct (s !! r) as [m|] eqn:Em; [| discriminate].
  destruct (mapM (readback fuel s) (map_to_list m).*2) as [vs|] eqn:E;
    [| discriminate].
  intros _. exists m. split; [reflexivity |]. intros k e Hk.
  apply mapM_Some in E.
  assert (Hin : e ∈ (map_to_list m).*2).
  { apply list_elem_of_fmap. exists (k, e). split; [reflexivity |].
    by apply elem_of_map_to_list. }
  apply list_elem_of_lookup in Hin as [i Hi].
  destruct (Forall2_lookup_l _ _ _ _ _ E Hi) as (v & _ & Hv). by exists v.
Qed.

Lemma deepClone_returns {MR : MapRange} (fuel : nat) :
  forall value s0 t s,
    readback fuel s0 value = Some t -> keepsMaps s0 s ->
    exists c s', InStore.deepClone fuel value s = (Ok c, s').
Proof.
  induction fuel as [|fuel IH]; intros value s0 t s Hrb Hkeep;
    [discriminate |].
  destruct value as [| | | | |l|r]; try (by eexists _, _).
  - (* sequence *)
    apply readback_seq_inv in Hrb as (ts & _ & Hts).
    cbn [InStore.deepClone].
    destruct (forM_total
                (fun (_ : list val) (sx : store) => keepsMaps s0 sx) l
                (fun cp e =>
                   let* c := InStore.deepClone fuel e in ret (cp ++ [c])))
      with (acc := @nil val) (s := s) as (cp & s1 & E & _).
    + intros acc e sx Hin Hsx.
      apply list_elem_of_lookup in Hin as [i Hi].
      destruct (Forall2_lookup_l _ _ _ _ _ Hts Hi) as (te & _ & Hte).
      destruct (IH e s0 te sx Hte Hsx) as (c & sy & Ec).
      exists (acc ++ [c]), sy. unfold bind. rewrite Ec. split; [reflexivity |].
      eapply keepsMaps_trans; [exact Hsx |].
      by destruct (deepClone_clonedFrom fuel e sx c sy Ec
                     (closedFrom_length sx)) as (? & _).
    + exact Hkeep.
    + unfold bind at 1. rewrite E. by eexists _, _.
  - (* mapping *)
    apply readback_map_entries in Hrb as (m & Hm & Hentries).
    cbn [InStore.deepClone]. unfold bind at 1. unfold loadMap at 1.
    rewrite (Hkeep r m Hm). unfold bind at 1. unfold newMap at 1.
    destruct (forM_total
                (fun (_ : unit) (sx : store) =>
                   keepsMaps s0 sx /\ length s < length sx) (range m)
                (fun _ ke =>
                   let '(k, e) := ke in
                   let* c := InStore.deepClone fuel e in
                   setKey (length s) k c))
      with (acc := tt) (s := s ++ [∅]) as ([] & s1 & E & _).
    + intros [] [k e] sx Hin [Hsx Hlt]. apply elem_of_range in Hin.
      destruct (Hentries k e Hin) as [te Hte].
      destruct (IH e s0 te sx Hte Hsx) as (c & sy & Ec).
      destruct (deepClone_clonedFrom fuel e sx c sy Ec
                  (closedFrom_length sx)) as (Hk' & _).
      pose proof (keepsMaps_length _ _ Hk') as Hlen.
      pose proof (keepsMaps_length _ _ Hkeep) as Hlen0.
      destruct (lookup_lt_is_Some_2 sy (length s)) as [mcp Hcp]; [lia |].
      exists tt, (<[length s := <[k := c]> mcp]> sy).
      unfold bind. rewrite Ec. unfold setKey.
      match goal with
      | |- context [match ?x with Some _ => _ | None => _ end] =>
          replace x with (Some mcp)
      end.
      split; [reflexivity |]. split.
      * intros r0 m0 Hm0.
        assert (r0 <> length s) by (apply lookup_lt_Some in Hm0; lia).
        etrans; [apply list_lookup_insert_ne; congruence |].
        by apply Hk', Hsx.
      * eapply Nat.lt_le_trans; [exact Hlt |].
        eapply Nat.le_trans; [exact Hlen |].
        apply Nat.eq_le_incl. symmetry. apply length_insert.
    + split.
      * intros r0 m0 Hm0. apply lookup_app_l_Some. by apply Hkeep.
      * rewrite length_app. cbn. lia.
    + unfold bind at 1. rewrite E. by eexists _, _.
Qed.

(** [readback] of a mapping, entry by entry. *)
Lemma readback_map_inv (fuel : nat) (s : store) (r : loc) (t : tree) :
  readback (S fuel) s (VMap r) = Some t ->
  exists (m : gmap string val) (T : gmap string tree),
    s !! r = Some m /\ t = TMap T
    /\ (forall k e, m !! k = Some e ->
          exists te, readback fuel s e = Some te /\ T !! k = Some te)
    /\ (forall k, m !! k = None -> T !! k = None).
Proof.
  cbn [readback]. destruct (s !! r) as [m|] eqn:Em; [| discriminate].
  destruct (mapM (readback fuel s) (map_to_list m).*2) as [vs|] eqn:E;
    [| discriminate].
  cbn. intros [= <-]. exists m, (list_to_map (zip (map_to_list m).*1 vs)).
  apply mapM_Some in E. pose proof (Forall2_length _ _ _ E) as Hlen.
  rewrite length_fmap in Hlen.
  assert (Hfst : (zip (map_to_list m).*1 vs).*1 = (map_to_list m).*1)
    by (apply fst_zip; rewrite length_fmap; lia).
  split; [reflexivity |]. split; [reflexivity |]. split.
  - intros k e Hk. apply elem_of_map_to_list in Hk.
    apply list_elem_of_lookup in Hk as [i Hi].
    assert (Hi2 : (map_to_list m).*2 !! i = Some e)
      by (by rewrite list_lookup_fmap, Hi).
    destruct (Forall2_lookup_l _ _ _ _ _ E Hi2) as (te & Hte & Hrb).
    exists te. split; [exact Hrb |].
    apply elem_of_list_to_map_1.
    + rewrite Hfst. apply NoDup_fst_map_to_list.
    + apply list_elem_of_lookup. exists i.
      rewrite lookup_zip_with, list_lookup_fmap, Hi. cbn. by rewrite Hte.
  - intros k Hk. apply not_elem_of_list_to_map_1. rewrite Hfst.
    intros Hin. apply list_elem_of_fmap in Hin as ([k' e] & -> & Hin).
    apply elem_of_map_to_list in Hin. cbn in Hk. congruence.
Qed.

Lemma readback_map_intro (fuel : nat) (s : store) (r : loc)
    (m : gmap string val) (T : gmap string tree) :
  s !! r = Some m ->
  (forall k e, m !! k = Some e ->
     exists te, readback fuel s e = Some te /\ T !! k = Some te) ->
  (forall k, m !! k = None -> T !! k = None) ->
  readback (S fuel) s (VMap r) = Some (TMap T).
Proof.
  intros Hm Hsome Hnone. cbn [readback]. rewrite Hm.
  set (h := fun kv : string * val => default TNull (T !! kv.1)).
  assert (E : mapM (readback fuel s) (map_to_list m).*2
              = Some (h <$> map_to_list m)).
  { apply mapM_Some, Forall2_fmap, Forall_Forall2_diag, Forall_forall.
    intros [k e] Hin. apply elem_of_map_to_list in Hin.
    destruct (Hsome k e Hin) as (te & Hrb & HT). unfold h. cbn.
    by rewrite HT. }
  rewrite E. cbn. do 2 f_equal. apply map_eq. intros k.
  assert (Hzip : zip (map_to_list m).*1 (h <$> map_to_list m)
                 = (fun kv => (kv.1, h kv)) <$> map_to_list m).
  { generalize (map_to_list m). intros l.
    induction l as [|x l IH]; [reflexivity |]. cbn. by rewrite IH. }
  rewrite Hzip.
  assert (Hfst : ((fun kv => (kv.1, h kv)) <$> map_to_list m).*1
                 = (map_to_list m).*1).
  { rewrite <- list_fmap_compose. reflexivity. }
  destruct (m !! k) as [e|] eqn:Ek.
  - destruct (Hsome k e Ek) as (te & _ & HT). rewrite HT.
    apply elem_of_list_to_map_1.
    + rewrite Hfst. apply NoDup_fst_map_to_list.
    + apply list_elem_of_fmap. exists (k, e). split.
      * unfold h. cbn. by rewrite HT.
      * by apply elem_of_map_to_list.
  - rewrite (Hnone k Ek). apply not_elem_of_list_to_map_1. rewrite Hfst.
    intros Hin. apply list_elem_of_fmap in Hin as ([k' e] & -> & Hin).
    apply elem_of_map_to_list in Hin. cbn in Ek. congruence.
Qed.

Lemma mapM_frame {A B} (f g : A -> option B) (l : list A) (ts : list B) :
  (forall x t, x ∈ l -> f x = Some t -> g x = Some t) ->
  mapM f l = Some ts -> mapM g l = Some ts.
Proof.
  intros H E. apply mapM_Some. apply mapM_Some in E.
  induction E as [|x t l ts Hx _ IH]; constructor.
  - apply H; [apply list_elem_of_here | exact Hx].
  - apply IH. intros y ty Hy. apply H. by apply list_elem_of_further.
Qed.

(** A value that names only maps from [n] on, in a store closed from
    [n] on, reads back the same wherever those maps are kept. *)
Lemma readback_frame (n : nat) (s1 s2 : store) (fuel : nat) :
  closedFrom n s1 ->
  (forall (r : loc) m, n <= r -> s1 !! r = Some m -> s2 !! r = Some m) ->
  forall v t,
    freshFrom n v = true ->
    readback fuel s1 v = Some t -> readback fuel s2 v = Some t.
Proof.
  intros Hclosed Hkeep. induction fuel as [|fuel IH]; intros v t Hv;
    [discriminate |].
  destruct v as [| | | | |l|r]; try done.
  - cbn [readback freshFrom] in *.
    destruct (mapM (readback fuel s1) l) as [ts|] eqn:E; [| discriminate].
    intros [= <-]. erewrite mapM_frame; [reflexivity | | exact E].
    intros x tx Hx. apply IH.
    rewrite forallb_forall in Hv. apply Hv. by apply list_elem_of_In.
  - cbn [freshFrom] in Hv. apply Nat.leb_le in Hv. intros Hrb.
    apply readback_map_inv in Hrb as (m & T & Hm & -> & Hsome & Hnone).
    apply (readback_map_intro fuel s2 r m T); [by apply Hkeep | | exact Hnone].
    intros k e Hk. destruct (Hsome k e Hk) as (te & Hte & HT).
    exists te. split; [| exact HT]. apply IH; [| exact Hte].
    by eapply Hclosed.
Qed.

Lemma freshFrom_0 (v : val) : freshFrom 0 v = true.
Proof.
  revert v. fix IH 1. intros [| | | | |l|r]; cbn [freshFrom]; try done.
  induction l as [|x l IHl]; [done |]. cbn [forallb].
  by rewrite IH, IHl.
Qed.

Lemma readback_keepsMaps (s1 s2 : store) (fuel : nat) (v : val) (t : tree) :
  keepsMaps s1 s2 ->
  readback fuel s1 v = Some t -> readback fuel s2 v = Some t.
Proof.
  intros Hkeep. apply (readback_frame 0).
  - intros r m k x _ _ _. apply freshFrom_0.
  - intros r m _. apply Hkeep.
  - apply freshFrom_0.
Qed.

Section CloneReadback.
Context {MR : MapRange}.
Variables (fuel : nat) (s0 : store).
Hypothesis IHfuel :
  forall value t s c s',
    readback fuel s0 value = Some t -> keepsMaps s0 s ->
    InStore.deepClone fuel value s = (Ok c, s') ->
    readback fuel s' c = Some t.

Lemma clone_seq_loop (l : list val) (ts : list tree) :
  Forall2 (fun e t => readback fuel s0 e = Some t) l ts ->
  forall (acc : list val) (tacc : list tree) (sx : store) cp s1,
    keepsMaps s0 sx ->
    Forall2 (fun c t => readback fuel sx c = Some t) acc tacc ->
    forM l acc
      (fun cp e => let* c := InStore.deepClone fuel e in ret (cp ++ [c])) sx
    = (Ok cp, s1) ->
    Forall2 (fun c t => readback fuel s1 c = Some t) cp (tacc ++ ts).
Proof.
  induction 1 as [|e te l ts He _ IH]; intros acc tacc sx cp s1 Hkeep Hacc;
    cbn [forM].
  - intros [= <- <-]. by rewrite app_nil_r.
  - unfold bind at 1. unfold bind at 1.
    destruct (InStore.deepClone fuel e sx) as [[c|?|?] sy] eqn:Ec;
      try discriminate.
    cbn [ret]. intros E.
    destruct (deepClone_clonedFrom fuel e sx c sy Ec (closedFrom_length sx))
      as (Hk' & _).
    rewrite (cons_middle te), app_assoc.
    apply (IH (acc ++ [c]) (tacc ++ [te]) sy); [| | exact E].
    + by eapply keepsMaps_trans.
    + apply Forall2_app.
      * eapply Forall2_impl; [exact Hacc |]. intros c' t'.
        by apply readback_keepsMaps.
      * constructor; [| constructor]. by eapply IHfuel.
Qed.

Lemma clone_map_loop (n : nat) (m : gmap string val) (T : gmap string tree)
    (l : list (string * val)) :
  length s0 <= n ->
  (forall k e, m !! k = Some e ->
     exists te, readback fuel s0 e = Some te /\ T !! k = Some te) ->
  (forall k e, (k, e) ∈ l -> m !! k = Some e) ->
  forall visited sx s1,
    cloneMapInv fuel s0 n T visited sx ->
    forM l tt
      (fun _ ke =>
         let '(k, e) := ke in
         let* c := InStore.deepClone fuel e in
         setKey n k c) sx
    = (Ok tt, s1) ->
    cloneMapInv fuel s0 n T (visited ++ l.*1) s1.
Proof.
  intros Hn Hsome. induction l as [|[k e] l IH]; intros Hl visited sx s1 Hinv;
    cbn [forM].
  - intros [= <-]. by rewrite app_nil_r.
  - unfold bind at 1. unfold bind at 1.
    destruct (InStore.deepClone fuel e sx) as [[c|?|?] sy] eqn:Ec;
      try discriminate.
    destruct Hinv as (Hkeep & Hlen & Hclosed & mcp & Hcp & Hvals & Hdom).
    destruct (deepClone_clonedFrom fuel e sx c sy Ec (closedFrom_length sx))
      as (Hk' & Hc & Hcl').
    pose proof (keepsMaps_length _ _ Hk') as Hlen'.
    unfold setKey at 1. rewrite (Hk' n mcp Hcp).
    intros E. cbn [fmap list_fmap fst]. rewrite (cons_middle k), app_assoc.
    apply (IH (fun k' e' Hin => Hl k' e' (list_elem_of_further _ _ _ Hin))
              (visited ++ [k]) (<[n := <[k := c]> mcp]> sy) s1);
      [| exact E].
    destruct (Hsome k e (Hl k e (list_elem_of_here _ _))) as (te & Hte & HT).
    assert (Hrc : readback fuel sy c = Some te) by (by eapply IHfuel).
    assert (Hcly : closedFrom (S n) sy)
      by (by apply (closedFrom_step _ sx)).
    assert (Hframe : forall v t,
               freshFrom (S n) v = true -> readback fuel sy v = Some t ->
               readback fuel (<[n := <[k := c]> mcp]> sy) v = Some t).
    { apply readback_frame; [exact Hcly |].
      intros r0 m0 Hr0 Hm0. rewrite <- Hm0.
      apply list_lookup_insert_ne. lia. }
    split; [| split; [| split]].
    + intros r0 m0 Hm0.
      assert (r0 <> n) by (apply lookup_lt_Some in Hm0; lia).
      etrans; [apply list_lookup_insert_ne; congruence |].
      by apply Hk', Hkeep.
    + eapply Nat.le_trans; [exact Hlen |].
      eapply Nat.le_trans; [exact Hlen' |].
      apply Nat.eq_le_incl. symmetry. apply length_insert.
    + intros r0 m0 k0 x Hr0 Hm0 Hk0.
      assert (Hm' : sy !! r0 = Some m0).
      { rewrite <- Hm0. symmetry. apply list_lookup_insert_ne. lia. }
      by eapply Hcly.
    + exists (<[k := c]> mcp). split; [| split].
      * apply list_lookup_insert_eq. lia.
      * intros k0 c0. destruct (decide (k0 = k)) as [->|Hne].
        -- rewrite lookup_insert_eq. intros [= <-].
           assert (Hfc : freshFrom (S n) c = true)
             by (apply (freshFrom_mono _ (length sx)); [lia | exact Hc]).
           split; [exact Hfc |]. exists te. split; [exact HT |].
           by apply Hframe.
        -- rewrite lookup_insert_ne by done. intros Hk0.
           destruct (Hvals k0 c0 Hk0) as (Hf0 & t0 & HT0 & Hr0).
           split; [exact Hf0 |]. exists t0. split; [exact HT0 |].
           apply Hframe; [exact Hf0 |]. by eapply readback_keepsMaps.
      * intros k0. rewrite elem_of_app, list_elem_of_singleton, <- Hdom.
        destruct (decide (k0 = k)) as [->|Hne].
        -- rewrite lookup_insert_eq. split; [by right | by eauto].
        -- rewrite lookup_insert_ne by done. split; [by left |].
           by intros [?|?].
Qed.

End CloneReadback.

Lemma deepClone_readback {MR : MapRange} (fuel : nat) :
  forall value s0 t s c s',
    readback fuel s0 value = Some t -> keepsMaps s0 s ->
    InStore.deepClone fuel value s = (Ok c, s') ->
    readback fuel s' c = Some t.
Proof.
  induction fuel as [|fuel IH]; intros value s0 t s c s' Hrb Hkeep;
    [discriminate |].
  destruct value as [| | | | |l|r];
    try (cbn [InStore.deepClone ret]; intros [= <- <-]; exact Hrb).
  - (* sequence *)
    apply readback_seq_inv in Hrb as (ts & -> & Hts).
    cbn [InStore.deepClone]. unfold bind at 1.
    match goal with
    | |- context [forM ?l ?a ?b ?st] =>
        destruct (forM l a b st) as [[cp|?|?] s1] eqn:Eloop
    end; try discriminate.
    cbn [ret]. intros [= <- <-].
    apply (clone_seq_loop fuel s0 (fun v t s c s' => IH v s0 t s c s')
             l ts Hts [] [] s cp s1 Hkeep) in Eloop; [| constructor].
    cbn [readback]. apply mapM_Some_2 in Eloop. cbn in Eloop.
    by rewrite Eloop.
  - (* mapping *)
    apply readback_map_inv in Hrb as (m & T & Hm & -> & Hsome & Hnone).
    cbn [InStore.deepClone]. unfold bind at 1. unfold loadMap at 1.
    rewrite (Hkeep r m Hm). unfold bind at 1. unfold newMap at 1.
    unfold bind at 1.
    match goal with
    | |- context [forM ?l ?a ?b ?st] =>
        destruct (forM l a b st) as [[[]|?|?] s1] eqn:Eloop
    end; try discriminate.
    cbn [ret]. intros [= <- <-].
    pose proof (keepsMaps_length _ _ Hkeep) as Hlen.
    apply (clone_map_loop fuel s0 (fun v t s c s' => IH v s0 t s c s')
             (length s) m T (range m) Hlen Hsome) with (visited := [])
      in Eloop.
    + destruct Eloop as (_ & _ & _ & mcp & Hcp & Hvals & Hdom).
      apply (readback_map_intro fuel s1 (length s) mcp T Hcp).
      * intros k c0 Hk. destruct (Hvals k c0 Hk) as (_ & te & HT & Hr).
        by exists te.
      * intros k Hk. apply Hnone.
        destruct (m !! k) as [e|] eqn:Ek; [| reflexivity]. exfalso.
        assert (Hin : k ∈ [] ++ (range m).*1).
        { cbn. apply list_elem_of_fmap. exists (k, e).
          split; [reflexivity | by apply elem_of_range]. }
        apply Hdom in Hin as [? Hin]. congruence.
    + intros k e Hin. by apply elem_of_range.
    + split; [| split; [| split]].
      * intros r0 m0 Hm0. apply lookup_app_l_Some. by apply Hkeep.
      * rewrite length_app. cbn. lia.
      * replace (S (length s)) with (length (s ++ [∅ : gmap string val]))
          by (rewrite length_app; cbn; lia).
        apply closedFrom_length.
      * exists ∅. split; [| split].
        -- unfold store in *. rewrite lookup_app_r by lia.
           by rewrite Nat.sub_diag.
        -- intros k c0 Hk. by rewrite lookup_empty in Hk.
        -- intros k. rewrite lookup_empty, elem_of_nil.
           split; [by intros [? ?] | done].
Qed.

(** X28: [deepClone] makes an equal copy that shares no map with the
    original.  For a value that reads back as the tree [t] (a finite
    value: the recursion of Go ends), [deepClone] returns a value that
    reads back as [t]; the maps the store had are kept as they were; and
    the copy, and every map made for it, names only maps made for it. *)
Theorem deepClone_copy {MR : MapRange} (fuel : nat) (value : val)
    (s : store) (t : tree) :
  readback fuel s value = Some t ->
  exists c s',
    InStore.deepClone fuel value s = (Ok c, s')
    /\ readback fuel s' c = Some t
    /\ keepsMaps s s'
    /\ freshFrom (length s) c = true
    /\ closedFrom (length s) s'.
Proof.
  intros Hrb.
  destruct (deepClone_returns fuel value s t s Hrb (keepsMaps_refl s))
    as (c & s' & E).
  exists c, s'. split; [exact E |]. split.
  - by apply (deepClone_readback fuel value s t s c s' Hrb (keepsMaps_refl s)).
  - apply (deepClone_clonedFrom fuel value s c s' E (closedFrom_length s)).
Qed.

Lemma deepClone_copy_witness :
  readback 3 logging_store (VMap 0) = Some logging_tree
  /\ exists c s',
       InStore.deepClone (MR := key_order) 3 (VMap 0) logging_store
       = (Ok c, s')
       /\ readback 3 s' c = Some logging_tree
       /\ keepsMaps logging_store s'
       /\ freshFrom (length logging_store) c = true
       /\ closedFrom (length logging_store) s'.
Proof.
  assert (H : readback 3 logging_store (VMap 0) = Some logging_tree)
    by (vm_compute; reflexivity).
  split; [exact H |].
  exact (deepClone_copy (MR := key_order) 3 (VMap 0) logging_store
           logging_tree H).
Defined.

(** ** [cycleTracker.Add]: a node is taken once *)

(** X29: a node that [Add] has taken is refused from then on: after a
    successful [Add] of a node, adding the same node again returns the
    circular-reference error and leaves the tracker as it is. *)
Theorem cycleTracker_Add_twice (ct ct' : cycleTracker.t)
    (filename service : string) :
  cycleTracker.Add ct filename service = (Ok tt, ct') ->
  exists msg,
    cycleTracker.Add ct' filename service = (Err msg, ct')
    /\ HasPrefix msg "Circular reference:" = true.
Proof.
  unfold cycleTracker.Add.
  destruct (existsb _ (cycleTracker.loaded ct)) eqn:E; [discriminate |].
  intros [= <-]. cbn [cycleTracker.loaded].
  assert (Hin : existsb (serviceRef_eqb {| filename := filename;
                                           service := service |})
                  (cycleTracker.loaded ct
                   ++ [ {| filename := filename; service := service |} ])
                = true).
  { rewrite existsb_serviceRef. apply bool_decide_eq_true_2.
    apply elem_of_app. right. apply list_elem_of_here. }
  rewrite Hin. eexists. split; [reflexivity |].
  unfold cycleTracker.errLines.
  destruct (cycleTracker.loaded ct ++ _) as [|first rest]; reflexivity.
Qed.

Lemma cycleTracker_Add_twice_witness :
  cycleTracker.Add cycleTracker.empty "compose.yaml" "web"
  = (Ok tt, {| cycleTracker.loaded :=
                 [ {| filename := "compose.yaml"; service := "web" |} ] |})
  /\ exists msg,
       cycleTracker.Add
         {| cycleTracker.loaded :=
              [ {| filename := "compose.yaml"; service := "web" |} ] |}
         "compose.yaml" "web"
       = (Err msg,
          {| cycleTracker.loaded :=
               [ {| filename := "compose.yaml"; service := "web" |} ] |})
       /\ HasPrefix msg "Circular reference:" = true.
Proof.
  assert (H : cycleTracker.Add cycleTracker.empty "compose.yaml" "web"
              = (Ok tt, {| cycleTracker.loaded :=
                             [ {| filename := "compose.yaml";
                                  service := "web" |} ] |}))
    by reflexivity.
  split; [exact H |].
  exact (cycleTracker_Add_twice cycleTracker.empty _ "compose.yaml" "web" H).
Defined.
